(** * get_predictions.py: active-learning prioritisation, verified

    A shallow embedding of [src/get_predictions.py] and the properties of its
    top-2 extraction, per-label metrics, aggregate F-scores and ordering
    strategies.

    Number model.
    - Confidence scores come from the classifier (numpy float32 scalars).  The
      program only compares them and divides one by another; a finite float is
      a rational number and comparison of finite floats is comparison of the
      rationals they denote, so scores are modelled as [Q].  The quotient of
      two scores is a float32 again: the exact quotient rounded to the nearest
      float32, ties to even, and [inf] beyond the float32 range.
    - Precision, recall, F-scores and their sums are Python floats computed
      from integer counters: they are modelled as IEEE binary64 values
      ([PrimFloat.float]) with the kernel's correctly rounded operations.
    - Counters are Python integers, modelled as [nat].

    String model.  A [str] is modelled as the list of its characters, a
    character being a code point below 256; [rstrip] and [lower] are those of
    Python 3 on these characters. *)

From Stdlib Require Import List String Ascii Bool Arith Lia.
From Stdlib Require Import NArith QArith Qminmax Lqa Qround Qpower Qabs.
From Stdlib Require Import Permutation Sorted.
From Stdlib Require Import PrimFloat.
Import ListNotations.

Set Warnings "-inexact-float".

Local Open Scope string_scope.
Local Open Scope list_scope.

(** ** Python values used by the program *)

(** [x > y] on confidence scores. *)
Definition Qgtb (x y : Q) : bool := negb (Qle_bool x y).

(** ** Top-2 extraction (main, lines 197-211)

    [predictions] is the dict returned by [get_image_prediction], in iteration
    order: a list of (label, confidence) pairs whose labels are pairwise
    distinct.  The list [[]] returned for a file that is not a JPEG iterates as
    an empty dict does. *)

Definition predictions := list (string * Q).

Record top2 := mk_top2 {
  top_prediction : string;
  top_confidence : Q;
  second_prediction : string;
  second_confidence : Q
}.

(** Lines 197-200. *)
Definition top2_init : top2 := mk_top2 "" 0 "" 0.

(** The body of the loop, lines 202-211. *)
Definition top2_step (t : top2) (p : string * Q) : top2 :=
  let prediction := fst p in
  let confidence := snd p in
  if Qgtb confidence (top_confidence t) then
    let t' :=
      if Qgtb (top_confidence t) (second_confidence t)
      then mk_top2 (top_prediction t) (top_confidence t)
                   (top_prediction t) (top_confidence t)
      else t in
    mk_top2 prediction confidence (second_prediction t') (second_confidence t')
  else if Qgtb confidence (second_confidence t) then
    mk_top2 (top_prediction t) (top_confidence t) prediction confidence
  else t.

Definition top_two (ps : predictions) : top2 := fold_left top2_step ps top2_init.

(** The two entries a result names. *)
Definition top_entry (t : top2) : string * Q := (top_prediction t, top_confidence t).
Definition second_entry (t : top2) : string * Q :=
  (second_prediction t, second_confidence t).

(** *** What "the two highest-scoring entries, ties by first-seen order" means *)

(** [e] is the first entry of [ps] that attains the highest score. *)
Definition first_seen_max (e : string * Q) (ps : predictions) : Prop :=
  exists pre post,
    ps = pre ++ e :: post /\
    (forall x, In x pre -> (snd x < snd e)%Q) /\
    (forall x, In x post -> (snd x <= snd e)%Q).

(** [e1] and [e2] are the highest and the second-highest entry of [ps], each
    the first seen among those of equal score. *)
Definition two_highest_first_seen (e1 e2 : string * Q) (ps : predictions) : Prop :=
  exists pre post,
    ps = pre ++ e1 :: post /\
    (forall x, In x pre -> (snd x < snd e1)%Q) /\
    (forall x, In x post -> (snd x <= snd e1)%Q) /\
    first_seen_max e2 (pre ++ post).

Definition positive_scores (ps : predictions) : Prop :=
  forall x, In x ps -> (0 < snd x)%Q.

(** Entries with equal scores are the same entry. *)
Definition distinct_scores (ps : predictions) : Prop :=
  forall x y, In x ps -> In y ps -> (snd x == snd y)%Q -> x = y.

(** ** Strings: the operations of [str] the program calls *)

(** [c.isspace()]: the characters 9 to 13 (tab, line feed, vertical tab, form
    feed, carriage return), 28 to 31 (the four separators), 32 (space), 133
    (next line) and 160 (no-break space). *)
Definition is_space (c : ascii) : bool :=
  let n := nat_of_ascii c in
  (((9 <=? n) && (n <=? 13)) || ((28 <=? n) && (n <=? 32))
   || (n =? 133) || (n =? 160))%nat.

(** [s.rstrip()]: trailing whitespace removed. *)
Fixpoint drop_while (f : ascii -> bool) (l : list ascii) : list ascii :=
  match l with
  | [] => []
  | c :: l' => if f c then drop_while f l' else l
  end.

Definition rstrip (s : string) : string :=
  string_of_list_ascii (rev (drop_while is_space (rev (list_ascii_of_string s)))).

(** [s.endswith(suffix)]. *)
Definition endswith (s suffix : string) : bool :=
  let n := String.length s in
  let m := String.length suffix in
  (m <=? n)%nat && String.eqb (substring (n - m) m s) suffix.

(** [s.lower()], character by character: the letters A to Z and the
    upper-case letters 192 to 222 (all of that range but the multiplication
    sign, 215) have their lower-case letter 32 places on. *)
Definition lower_char (c : ascii) : ascii :=
  let n := nat_of_ascii c in
  if (((65 <=? n) && (n <=? 90))
      || ((192 <=? n) && (n <=? 222) && negb (n =? 215)))%nat
  then ascii_of_nat (n + 32) else c.

(** The characters of the class [[a-z0-9]]. *)
Definition is_label_char (c : ascii) : bool :=
  let n := nat_of_ascii c in
  (((97 <=? n) && (n <=? 122)) || ((48 <=? n) && (n <=? 57)))%nat.

(** [re.sub("^.*\/", '', s)]: the greedy match runs from the start of the
    string to the last slash of its first line (the dot matches no newline);
    with no slash there, nothing is replaced. *)
Fixpoint after_last_slash (l : list ascii) : option (list ascii) :=
  match l with
  | [] => None
  | c :: l' =>
      if Ascii.eqb c "010" then None
      else match after_last_slash l' with
           | Some r => Some r
           | None => if Ascii.eqb c "/" then Some l' else None
           end
  end.

Definition strip_directories (l : list ascii) : list ascii :=
  match after_last_slash l with
  | Some r => r
  | None => l
  end.

(** [re.sub("[^a-z0-9]+", ' ', s)]: every maximal run of other characters
    becomes one space; [in_run] says that the run has already been replaced. *)
Fixpoint squash_forbidden (in_run : bool) (l : list ascii) : list ascii :=
  match l with
  | [] => []
  | c :: l' =>
      if is_label_char c then c :: squash_forbidden false l'
      else if in_run then squash_forbidden true l'
      else " "%char :: squash_forbidden true l'
  end.

(** Lines 176-177: the label of a directory. *)
Definition label_of_dir (label_dir : string) : string :=
  let name := strip_directories (list_ascii_of_string label_dir) in
  string_of_list_ascii (squash_forbidden false (map lower_char name)).

(** ** Numbers *)

(** A Python integer converted to a float, as [/] and [*] do with an integer
    operand: exact below 2^53, which no counter of a run exceeds. *)
Fixpoint float_of_pos (p : positive) : float :=
  match p with
  | xH => 1
  | xO p' => 2 * float_of_pos p'
  | xI p' => 2 * float_of_pos p' + 1
  end%float.

Definition float_of_nat (n : nat) : float :=
  match N.of_nat n with
  | N0 => 0%float
  | Npos p => float_of_pos p
  end.

Inductive exn := ZeroDivisionError.

Inductive result (A : Type) : Type :=
| Ok (a : A)
| Raise (e : exn).
Arguments Ok {A} a.
Arguments Raise {A} e.

Definition bind {A B : Type} (m : result A) (k : A -> result B) : result B :=
  match m with
  | Ok a => k a
  | Raise e => Raise e
  end.

Notation "x <- m ;; k" := (bind m (fun x => k))
  (at level 61, m at next level, right associativity).

(** A loop whose body may raise: the exception leaves the loop. *)
Fixpoint for_each {A S : Type} (body : S -> A -> result S) (l : list A) (s : S)
  : result S :=
  match l with
  | [] => Ok s
  | a :: l' => s' <- body s a ;; for_each body l' s'
  end.

(** A float32 that is a number, or [inf]. *)
Inductive ratio :=
| Finite (q : Q)
| Infinity.

(** The exponent of a positive number [x]: 2^e <= x < 2^(e+1). *)
Definition floor_log2 (x : Q) : Z :=
  let e := (Z.log2 (Qnum x) - Z.log2 (Zpos (Qden x)))%Z in
  if Qle_bool (2 ^ e) x then e else (e - 1)%Z.

(** The nearest integer, the even one of two that are equally near. *)
Definition round_half_even (x : Q) : Z :=
  let f := Qfloor x in
  match (x - inject_Z f ?= 1 # 2)%Q with
  | Lt => f
  | Gt => (f + 1)%Z
  | Eq => if Z.even f then f else (f + 1)%Z
  end.

(** The float32 of a positive number: 24 significant bits, the last of them
    worth no less than 2^-149, rounded to nearest with ties to even; [inf]
    when the rounded value reaches 2^128. *)
Definition round_float32 (x : Q) : ratio :=
  let e := floor_log2 x in
  let q := Z.max (e - 23) (-149) in
  let m := round_half_even (x / 2 ^ q) in
  let v := Qred (inject_Z m * 2 ^ q) in
  if Qle_bool (2 ^ 128) v then Infinity else Finite v.

(** The value of [top_confidence / second_confidence] (line 214).

    [second_confidence] is zero only while it still holds the Python float
    [0.0] of line 200, and so is [top_confidence] (line 198): the loop assigns
    only scores above the current, non-negative, value.  Two Python floats
    divide with [ZeroDivisionError] when the divisor is zero.  A score of the
    classifier is a numpy float32 scalar ([run_graph] takes it from the array
    that [sess.run] returns, lines 105 and 115): numpy divides a positive
    scalar by zero to [inf], with a warning and no exception, and divides two
    float32 scalars, here positive, to the float32 of their quotient. *)
Definition confidence_ratio (t : top2) : result ratio :=
  if Qeq_bool (second_confidence t) 0 then
    if Qeq_bool (top_confidence t) 0 then Raise ZeroDivisionError
    else Ok Infinity
  else Ok (round_float32 (top_confidence t / second_confidence t)).

(** ** The record of an image and the state of [main] *)

(** [image_info], the six-element list of line 217, by position. *)
Record image_info := mk_info {
  info_image : string;              (* x[0] *)
  info_top_prediction : string;     (* x[1] *)
  info_top_confidence : Q;          (* x[2] *)
  info_second_prediction : string;  (* x[3] *)
  info_second_confidence : Q;       (* x[4] *)
  info_ratio : ratio                (* x[5] *)
}.

(** What [print] writes. *)
Inductive printed :=
| PInfo (i : image_info)
| PText (s : string)
| PFloat (f : float).

(** The counters of one label (lines 182-185). *)
Record counters := mk_counters {
  count : nat;
  tp : nat;
  fn : nat;
  fp : nat
}.

Definition counters0 : counters := mk_counters 0 0 0 0.

(** The values a label's iteration ends with: its name, its counters and its
    F-score. *)
Record label_stat := mk_stat {
  stat_label : string;
  stat_counters : counters;
  stat_fscore : float
}.

(** The variables of [main] that outlive an iteration (lines 161-167), the
    standard output, the number of calls of [random.random] made so far, and
    the trace of the labels done. *)
Record globals := mk_globals {
  microfscores : float;
  macrofscores : float;
  total_images : nat;
  total_labels : nat;
  all_predictions : list image_info;
  stdout : list printed;
  random_calls : nat;
  label_stats : list label_stat
}.

Definition globals0 : globals := mk_globals 0 0 0 0 [] [] 0 [].

Definition print (x : printed) (g : globals) : globals :=
  mk_globals (microfscores g) (macrofscores g) (total_images g) (total_labels g)
             (all_predictions g) (stdout g ++ [x]) (random_calls g) (label_stats g).

Definition append_prediction (i : image_info) (g : globals) : globals :=
  mk_globals (microfscores g) (macrofscores g) (total_images g) (total_labels g)
             (all_predictions g ++ [i]) (stdout g) (random_calls g) (label_stats g).

Definition incr_total_images (g : globals) : globals :=
  mk_globals (microfscores g) (macrofscores g) (S (total_images g)) (total_labels g)
             (all_predictions g) (stdout g) (random_calls g) (label_stats g).

Definition incr_total_labels (g : globals) : globals :=
  mk_globals (microfscores g) (macrofscores g) (total_images g) (S (total_labels g))
             (all_predictions g) (stdout g) (random_calls g) (label_stats g).

Definition incr_random_calls (g : globals) : globals :=
  mk_globals (microfscores g) (macrofscores g) (total_images g) (total_labels g)
             (all_predictions g) (stdout g) (S (random_calls g)) (label_stats g).

(** Lines 242-243, with the trace of the label. *)
Definition add_fscore (label : string) (c : counters) (fscore : float) (g : globals)
  : globals :=
  mk_globals (microfscores g + fscore * float_of_nat (count c))%float
             (macrofscores g + fscore)%float
             (total_images g) (total_labels g)
             (all_predictions g) (stdout g) (random_calls g)
             (label_stats g ++ [mk_stat label c fscore]).

Definition set_all_predictions (l : list image_info) (g : globals) : globals :=
  mk_globals (microfscores g) (macrofscores g) (total_images g) (total_labels g)
             l (stdout g) (random_calls g) (label_stats g).

(** ** Accuracy metrics *)

(** Lines 222-228: the counters of the label being read, after an image whose
    top prediction is [top]. *)
Definition update_metrics (label top : string) (c : counters) : counters :=
  let c' :=
    if String.eqb top label
    then mk_counters (count c) (S (tp c)) (fn c) (fp c)
    else mk_counters (count c) (tp c) (S (fn c)) (S (fp c)) in
  mk_counters (S (count c')) (tp c') (fn c') (fp c').

(** Lines 236 and 237. *)
Definition precision_of (tp fp : nat) : float :=
  (float_of_nat tp / float_of_nat (tp + fp))%float.

Definition recall_of (tp fn : nat) : float :=
  (float_of_nat tp / float_of_nat (tp + fn))%float.

(** Lines 233-238. *)
Definition fscore_of (tp fp fn : nat) : float :=
  if (tp =? 0)%nat then 0%float
  else
    let precision := precision_of tp fp in
    let recall := recall_of tp fn in
    ((2 * precision * recall) / (precision + recall))%float.

(** ** Ordering strategies *)

(** [list.sort(key=key)]: Python's sort is stable and compares keys with [<]
    only; the stable insertion sort is the sorted list it returns. *)
Section Sort.
Context {A : Type}.
Variable key : A -> Q.

Fixpoint insert_by (x : A) (l : list A) : list A :=
  match l with
  | [] => [x]
  | y :: l' => if Qgtb (key x) (key y) then y :: insert_by x l' else x :: l
  end.

Definition sort_by (l : list A) : list A := fold_right insert_by [] l.
End Sort.

(** Strategy 1, lines 259-261: the images, least confident first. *)
Definition least_confident_first (l : list image_info) : list image_info :=
  sort_by info_top_confidence l.

(** Strategies 3 and 4 (lines 273-290 and 297-313) are one algorithm with two
    keys.  The dict of lists is a list of (key, queue) pairs in the order the
    keys were first inserted, which is the order a dict iterates in. *)
Section Stratify.
Context {A B : Type}.
Variable key : A -> string.
Variable payload : A -> B.

Definition queues := list (string * list B).

(** Lines 276-278: append to the key's list, created when the key is new. *)
Fixpoint enqueue (k : string) (v : B) (d : queues) : queues :=
  match d with
  | [] => [(k, [v])]
  | (k', q) :: d' =>
      if String.eqb k' k then (k', q ++ [v]) :: d' else (k', q) :: enqueue k v d'
  end.

(** Lines 273-278. *)
Definition build_queues (l : list A) : queues :=
  fold_left (fun d x => enqueue (key x) (payload x) d) l [].

(** Lines 284-289, one run of the [for] loop: what it prints and the dict
    it leaves.  [keep_going] is set exactly when something was printed. *)
Fixpoint take_round (d : queues) : list B * queues :=
  match d with
  | [] => ([], [])
  | (k, q) :: d' =>
      let (out, rest) := take_round d' in
      match q with
      | [] => (out, (k, []) :: rest)
      | image :: images => (image :: out, (k, images) :: rest)
      end
  end.

(** Lines 281-289: the [while] loop, for at most [fuel] rounds; [None] when
    the rounds do not suffice. *)
Fixpoint interleave (fuel : nat) (d : queues) : option (list B) :=
  match fuel with
  | O => None
  | S fuel' =>
      let (out, rest) := take_round d in
      match out with
      | [] => Some []
      | _ => option_map (app out) (interleave fuel' rest)
      end
  end.

(** One round more than there are records always suffices
    (see [interleave_terminates]). *)
Definition stratify (l : list A) : option (list B) :=
  interleave (S (List.length l)) (build_queues l).
End Stratify.

(** Strategy 3: the image names, round-robin over the top predictions. *)
Definition stratify_by_label (l : list image_info) : option (list string) :=
  stratify info_top_prediction info_image l.

(** ** The run *)

Section Run.
(** [FLAGS.directory]. *)
Variable directory : string.
(** [random k] is the value of the call number [k] of [random.random()]. *)
Variable random : nat -> float.
(** [run_graph image] is the dict [run_graph] returns for the image file:
    the classifier, outside the program. *)
Variable run_graph : string -> predictions.

(** Lines 123-136. *)
Definition get_image_prediction (image : string) : predictions :=
  if negb (endswith image ".jpg" || endswith image ".jpeg") then []
  else run_graph image.

(** Lines 193-217: the record of an image. *)
Definition image_record (image : string) : result image_info :=
  let predictions := get_image_prediction image in
  let t := top_two predictions in
  ratio <- confidence_ratio t ;;
  Ok (mk_info image (top_prediction t) (top_confidence t)
              (second_prediction t) (second_confidence t) ratio).

(** Lines 187-230, the body of the loop over the images of a label. *)
Definition process_image (label : string) (s : globals * counters) (image : string)
  : result (globals * counters) :=
  let (g, c) := s in
  let r := random (random_calls g) in
  let g := incr_random_calls g in
  if (0.05 <? r)%float then Ok (g, c)
  else
    let image := rstrip image in
    info <- image_record image ;;
    let g := print (PInfo info) g in
    let g := append_prediction info g in
    let c := update_metrics label (info_top_prediction info) c in
    let g := incr_total_images g in
    Ok (g, c).

(** Lines 174-243, the body of the loop over the label directories; an
    entry is the name of a subdirectory and the files [os.listdir] finds
    in it. *)
Definition process_label (g : globals) (entry : string * list string)
  : result globals :=
  let g := incr_total_labels g in
  let label_dir := (directory ++ "/" ++ fst entry)%string in
  let label := label_of_dir label_dir in
  let images := map (fun x => (label_dir ++ "/" ++ x)%string) (snd entry) in
  s <- for_each (process_image label) images (g, counters0) ;;
  let (g, c) := s in
  let fscore := fscore_of (tp c) (fp c) (fn c) in
  let g := print (PText (label ++ " f-score:")%string) g in
  let g := print (PFloat fscore) g in
  Ok (add_fscore label c fscore g).

(** What a run that ends leaves: the overall scores and the final state. *)
Record outcome := mk_outcome {
  microf : float;
  macrof : float;
  final : globals
}.

(** Lines 246-247: a float divided by the integer zero raises. *)
Definition divide_by_count (x : float) (n : nat) : result float :=
  if (n =? 0)%nat then Raise ZeroDivisionError
  else Ok (x / float_of_nat n)%float.

(** Lines 158-261, [corpus] being the subdirectories of [FLAGS.directory]
    in the order [os.listdir] gives them.  Line 261 is read as the body of the
    loop of line 260, although the file indents the two lines alike. *)
Definition main (corpus : list (string * list string)) : result outcome :=
  g <- for_each process_label corpus globals0 ;;
  microf <- divide_by_count (microfscores g) (total_images g) ;;
  macrof <- divide_by_count (macrofscores g) (total_labels g) ;;
  let g := print (PText "Micro-f: ") g in
  let g := print (PFloat microf) g in
  let g := print (PText "Macro-f: ") g in
  let g := print (PFloat macrof) g in
  let g := set_all_predictions (least_confident_first (all_predictions g)) g in
  let g := fold_left (fun g i => print (PText (info_image i)) g)
                     (all_predictions g) g in
  Ok (mk_outcome microf macrof g).
End Run.

(** ** The dict of [run_graph] (lines 97-119) *)

(** [a[-k:]] for a Python integer [k]: the last [k] elements when [k] is
    positive, everything when [k] is zero, and [a[|k|:]] when it is
    negative. *)
Definition last_slice {A : Type} (k : Z) (a : list A) : list A :=
  let n := Z.of_nat (List.length a) in
  let start := if (0 <? k)%Z then Z.max 0 (n - k) else Z.min (- k) n in
  skipn (Z.to_nat start) a.

(** Line 109, [order] being [predictions.argsort()]. *)
Definition top_k (num_top_predictions : Z) (order : list nat) : list nat :=
  rev (last_slice num_top_predictions order).

(** [d[k] = v]: the value of a key of the dict is replaced where the key
    stands, a new key goes to the end. *)
Fixpoint dict_set (k : string) (v : Q) (d : predictions) : predictions :=
  match d with
  | [] => [(k, v)]
  | (k', v') :: d' =>
      if String.eqb k' k then (k', v) :: d' else (k', v') :: dict_set k v d'
  end.

(** Lines 113-117; [None] is the [IndexError] of [labels[node_id]] or
    [predictions[node_id]]. *)
Fixpoint label_predictions (labels : list string) (scores : list Q)
  (ids : list nat) (d : predictions) : option predictions :=
  match ids with
  | [] => Some d
  | node_id :: ids' =>
      match nth_error labels node_id, nth_error scores node_id with
      | Some human_string, Some score =>
          label_predictions labels scores ids' (dict_set human_string score d)
      | _, _ => None
      end
  end.

(** Lines 108-119, for the scores [sess.run] returns and their argsort. *)
Definition run_graph_dict (labels : list string) (scores : list Q)
  (order : list nat) (num_top_predictions : Z) : option predictions :=
  label_predictions labels scores (top_k num_top_predictions order) [].

(** Line 86, for the lines of the labels file. *)
Definition load_labels (lines : list string) : list string := map rstrip lines.

(** ** Strategies 2 and 4 (lines 265-267 and 296-313) *)

(** [a < b] on the ratios of line 214: [inf] is above every number and not
    above itself. *)
Definition ratio_ltb (a b : ratio) : bool :=
  match a, b with
  | Finite x, Finite y => Qgtb y x
  | Finite _, Infinity => true
  | Infinity, _ => false
  end.

Definition ratio_le (a b : ratio) : Prop :=
  match a, b with
  | Finite x, Finite y => (x <= y)%Q
  | _, Infinity => True
  | Infinity, Finite _ => False
  end.

Definition ratio_eqb (a b : ratio) : bool :=
  match a, b with
  | Finite x, Finite y => Qeq_bool x y
  | Infinity, Infinity => true
  | _, _ => false
  end.

(** [list.sort(key=key)] for keys that are ratios. *)
Section SortRatio.
Context {A : Type}.
Variable key : A -> ratio.

Fixpoint insert_by_ratio (x : A) (l : list A) : list A :=
  match l with
  | [] => [x]
  | y :: l' => if ratio_ltb (key y) (key x) then y :: insert_by_ratio x l' else x :: l
  end.

Definition sort_by_ratio (l : list A) : list A := fold_right insert_by_ratio [] l.

Definition ratio_key_le (a b : A) : Prop := ratio_le (key a) (key b).
Definition has_ratio (r : ratio) (a : A) : bool := ratio_eqb (key a) r.
End SortRatio.

(** Strategy 2, line 265. *)
Definition closest_ratio_first (l : list image_info) : list image_info :=
  sort_by_ratio info_ratio l.

(** Line 299. *)
Definition pair_key (i : image_info) : string :=
  (info_top_prediction i ++ " " ++ info_second_prediction i)%string.

(** Strategy 4, lines 296-313. *)
Definition stratify_by_label_pair (l : list image_info) : option (list string) :=
  stratify pair_key info_image (closest_ratio_first l).

(** * Specification

    The notions the properties below are stated with. *)

(** ** Top-2 extraction *)

(** [e1] is the first entry of [ps] with the highest score and [e2] is an
    entry with the highest score among the others. *)
Definition two_highest (e1 e2 : string * Q) (ps : predictions) : Prop :=
  exists pre post,
    ps = pre ++ e1 :: post /\
    (forall x, In x pre -> (snd x < snd e1)%Q) /\
    (forall x, In x post -> (snd x <= snd e1)%Q) /\
    In e2 (pre ++ post) /\
    (forall x, In x (pre ++ post) -> (snd x <= snd e2)%Q).

(** The score is above the initial [0.0]. *)
Definition positive (p : string * Q) : bool := Qgtb (snd p) 0.

(** Two entries of one positive score come before the only entry that
    outscores them. *)
Definition tied_before_top (ps : predictions) : Prop :=
  exists l1 x l2 y l3 c l4,
    ps = l1 ++ x :: l2 ++ y :: l3 ++ c :: l4 /\
    (0 < snd x)%Q /\ (snd x == snd y)%Q /\ (snd x < snd c)%Q /\
    forall z, In z (l1 ++ l2 ++ l3 ++ l4) -> (snd z <= snd x)%Q.

(** The second place holds an entry that comes after another of its score,
    both before the top entry. *)
Definition second_late (pre : predictions) (t : top2) : Prop :=
  (second_confidence t < top_confidence t)%Q /\
  exists l1 x l2 l3,
    pre = l1 ++ x :: l2 ++ second_entry t :: l3 /\
    (snd x == second_confidence t)%Q.

(** What the loop of lines 201-211 has established after the entries [seen]:
    nothing is held while no score is positive; then the top place holds the
    first entry of the highest score; with two positive scores the second
    place holds an entry of the highest score among the others. *)
Definition top2_state (seen : predictions) (t : top2) : Prop :=
  (t = top2_init /\ forall x, In x seen -> (snd x <= 0)%Q) \/
  exists pre post,
    seen = pre ++ top_entry t :: post /\
    (0 < top_confidence t)%Q /\
    ((second_entry t = ("", 0%Q) /\
      forall x, In x (pre ++ post) -> (snd x <= 0)%Q) \/
     ((0 < second_confidence t)%Q /\
      (forall x, In x pre -> (snd x < top_confidence t)%Q) /\
      (forall x, In x post -> (snd x <= top_confidence t)%Q) /\
      In (second_entry t) (pre ++ post) /\
      (forall x, In x (pre ++ post) -> (snd x <= second_confidence t)%Q) /\
      (first_seen_max (second_entry t) (pre ++ post) \/ second_late pre t))).

(** ** Sorting *)

Section SortSpec.
Context {A : Type}.
Variable key : A -> Q.

Definition key_le (a b : A) : Prop := (key a <= key b)%Q.
Definition has_key (q : Q) (a : A) : bool := Qeq_bool (key a) q.
End SortSpec.

(** ** Metrics *)

Definition is_hit (label : string) (i : image_info) : bool :=
  String.eqb (info_top_prediction i) label.

(** The counters of a label whose scored images have the records [infos]. *)
Definition tally (label : string) (infos : list image_info) : counters :=
  let hits := List.length (filter (is_hit label) infos) in
  let misses := List.length (filter (fun i => negb (is_hit label i)) infos) in
  mk_counters (List.length infos) hits misses misses.

Definition add_counters (c d : counters) : counters :=
  mk_counters (count c + count d) (tp c + tp d) (fn c + fn d) (fp c + fp d).

Definition stat_of (label : string) (infos : list image_info) : label_stat :=
  let c := tally label infos in
  mk_stat label c (fscore_of (tp c) (fp c) (fn c)).

(** Precision, recall and F-score in exact arithmetic. *)
Definition exact_precision (tp fp : nat) : Q :=
  inject_Z (Z.of_nat tp) / inject_Z (Z.of_nat (tp + fp)).

Definition exact_recall (tp fn : nat) : Q :=
  inject_Z (Z.of_nat tp) / inject_Z (Z.of_nat (tp + fn)).

Definition exact_fscore (tp fp fn : nat) : Q :=
  if (tp =? 0)%nat then 0
  else (2 * exact_precision tp fp * exact_recall tp fn)
       / (exact_precision tp fp + exact_recall tp fn).

(** The sums of lines 242 and 243 over the labels done. *)
Definition weighted_sum (stats : list label_stat) (start : float) : float :=
  fold_left (fun acc s => acc + stat_fscore s * float_of_nat (count (stat_counters s)))%float
            stats start.

Definition plain_sum (stats : list label_stat) (start : float) : float :=
  fold_left (fun acc s => acc + stat_fscore s)%float stats start.

Definition total_count (stats : list label_stat) : nat :=
  fold_right (fun s n => (count (stat_counters s) + n)%nat) 0%nat stats.

(** ** The state after a loop *)

(** The state after [n] images of which those of [infos] were scored. *)
Definition scored (g : globals) (infos : list image_info) (n : nat) : globals :=
  mk_globals (microfscores g) (macrofscores g)
             (total_images g + List.length infos) (total_labels g)
             (all_predictions g ++ infos) (stdout g ++ map PInfo infos)
             (random_calls g + n) (label_stats g).

(** The state after a label with [n] files of which those of [infos] were
    scored. *)
Definition labelled (g : globals) (label : string) (infos : list image_info) (n : nat)
  : globals :=
  let s := stat_of label infos in
  let g := scored (incr_total_labels g) infos n in
  let g := print (PText (label ++ " f-score:")%string) g in
  let g := print (PFloat (stat_fscore s)) g in
  add_fscore label (stat_counters s) (stat_fscore s) g.

(** The prints of a loop leave the other variables as they are. *)
Definition same_variables (g g' : globals) : Prop :=
  microfscores g' = microfscores g /\ macrofscores g' = macrofscores g /\
  total_images g' = total_images g /\ total_labels g' = total_labels g /\
  all_predictions g' = all_predictions g /\ random_calls g' = random_calls g /\
  label_stats g' = label_stats g.

Definition files_count (corpus : list (string * list string)) : nat :=
  fold_right (fun e n => (List.length (snd e) + n)%nat) 0%nat corpus.

(** A directory entry with the records of its scored images. *)
Definition slice : Type := (string * list string) * list image_info.

Section RunSpec.
Variable directory : string.
Variable random : nat -> float.
Variable run_graph : string -> predictions.

(** The image read at the call number [k] of [random.random] is scored. *)
Definition selected (k : nat) : bool := negb (0.05 <? random k)%float.

Definition dir_of (entry : string * list string) : string :=
  (directory ++ "/" ++ fst entry)%string.

Definition label_of (entry : string * list string) : string :=
  label_of_dir (dir_of entry).

Definition images_of (entry : string * list string) : list string :=
  map (fun x => (dir_of entry ++ "/" ++ x)%string) (snd entry).

(** The records [infos] are those of images of the directory [entry]. *)
Definition from_entry (entry : string * list string) (infos : list image_info) : Prop :=
  Forall (fun i => exists x,
              In x (images_of entry) /\ image_record run_graph (rstrip x) = Ok i)
         infos.

Definition slice_stat (s : slice) : label_stat :=
  stat_of (label_of (fst s)) (snd s).

Definition after_labels (g : globals) (ls : list slice) : globals :=
  fold_left (fun g s => labelled g (label_of (fst s)) (snd s)
                                 (List.length (snd (fst s)))) ls g.

(** What the iteration of a label prints. *)
Definition label_output (s : slice) : list printed :=
  map PInfo (snd s) ++
  [PText (label_of (fst s) ++ " f-score:")%string;
   PFloat (stat_fscore (slice_stat s))].

(** The images of a list that are scored, in the order read and under the
    names line 191 leaves them; [k] is the number of the call of
    [random.random] made for the first image. *)
Fixpoint sampled (k : nat) (images : list string) : list string :=
  match images with
  | [] => []
  | x :: images' =>
      if selected k then rstrip x :: sampled (S k) images'
      else sampled (S k) images'
  end.

(** The scored images of each directory of a corpus. *)
Fixpoint sample_corpus (k : nat) (corpus : list (string * list string))
  : list (list string) :=
  match corpus with
  | [] => []
  | e :: corpus' =>
      sampled k (images_of e) :: sample_corpus (k + List.length (snd e)) corpus'
  end.

(** The scored images of a run, in the order read. *)
Definition processed (corpus : list (string * list string)) : list string :=
  List.concat (sample_corpus 0 corpus).

(** [ls] holds, for each directory in turn, the records of its scored images
    in the order read. *)
Definition records_of_run (ls : list slice) : Prop :=
  map (fun s => map (@Ok image_info) (snd s)) ls
  = map (map (image_record run_graph)) (sample_corpus 0 (map fst ls)).
End RunSpec.

(** ** Stratification *)

(** The keys of a list in the order of their first occurrence. *)
Fixpoint first_seen (keys : list string) : list string :=
  match keys with
  | [] => []
  | k :: keys' => k :: filter (fun k' => negb (String.eqb k' k)) (first_seen keys')
  end.

(** No two neighbours are equal unless everything after them is equal too. *)
Fixpoint alternating (keys : list string) : Prop :=
  match keys with
  | a :: (b :: _) as rest => (a = b -> forall z, In z rest -> z = a) /\ alternating rest
  | _ => True
  end.

Section StratifySpec.
Context {A B : Type}.
Variable key : A -> string.
Variable payload : A -> B.

(** The records of a key, in their order. *)
Definition bucket (l : list A) (k : string) : list B :=
  map payload (filter (fun x => String.eqb (key x) k) l).

Definition partition_by_key (l : list A) : list (string * list B) :=
  map (fun k => (k, bucket l k)) (first_seen (map key l)).

Definition map_queues (d : list (string * list A)) : list (string * list B) :=
  map (fun e => (fst e, map payload (snd e))) d.

(** What one round prints and what it leaves, as list functions. *)
Definition heads (d : list (string * list B)) : list B :=
  flat_map (fun e => match snd e with [] => [] | x :: _ => [x] end) d.

Definition tails (d : list (string * list B)) : list (string * list B) :=
  map (fun e => (fst e, tl (snd e))) d.

Definition items (d : list (string * list B)) : list B := List.concat (map snd d).

(** The record number [r] of every queue that has one, in the order of the
    dict. *)
Definition nth_round (d : list (string * list B)) (r : nat) : list B :=
  flat_map (fun e => match nth_error (snd e) r with Some x => [x] | None => [] end) d.

(** Every queue holds records of its own key, and no key has two queues. *)
Definition well_keyed (d : list (string * list A)) : Prop :=
  NoDup (map fst d) /\
  forall e, In e d -> forall x, In x (snd e) -> key x = fst e.

Definition nonempty (e : string * list A) : bool :=
  match snd e with [] => false | _ :: _ => true end.

Definition long (e : string * list A) : bool :=
  match snd e with _ :: _ :: _ => true | _ => false end.

(** The keys whose queue is not empty, in the order of the dict. *)
Definition waiting (d : list (string * list A)) : list string :=
  map fst (filter nonempty d).
End StratifySpec.

(** What the loop of lines 201-211 keeps for every score map. *)
Definition top2_range (seen : predictions) (t : top2) : Prop :=
  (0 <= second_confidence t)%Q /\
  (second_confidence t <= top_confidence t)%Q /\
  (forall x, In x seen -> (snd x <= top_confidence t)%Q) /\
  ((0 < top_confidence t)%Q /\ In (top_entry t) seen \/ t = top2_init) /\
  ((0 < second_confidence t)%Q /\ In (second_entry t) seen
   \/ second_entry t = ("", 0%Q)).

(** What every record of a run satisfies. *)
Definition sound_record (run_graph : string -> predictions) (i : image_info) : Prop :=
  (endswith (info_image i) ".jpg" || endswith (info_image i) ".jpeg") = true /\
  In (info_top_prediction i, info_top_confidence i) (run_graph (info_image i)) /\
  (0 < info_top_confidence i)%Q /\
  (0 <= info_second_confidence i <= info_top_confidence i)%Q /\
  ((0 < info_second_confidence i)%Q ->
   In (info_second_prediction i, info_second_confidence i) (run_graph (info_image i)) /\
   info_ratio i = round_float32 (info_top_confidence i / info_second_confidence i)) /\
  (~ (0 < info_second_confidence i)%Q ->
   info_second_prediction i = "" /\ info_second_confidence i = 0%Q /\
   info_ratio i = Infinity) /\
  match info_ratio i with
  | Finite q =>
      (0 < info_second_confidence i)%Q /\ (1 <= q)%Q /\
      (Qabs (q - info_top_confidence i / info_second_confidence i)
       <= info_top_confidence i / info_second_confidence i / 2 ^ 24)%Q
  | Infinity =>
      info_second_confidence i = 0%Q \/
      (2 ^ 128 - 2 ^ 103 <= info_top_confidence i / info_second_confidence i)%Q
  end.

(** The queue of the key [k] in a dict. *)
Definition queue_of {B : Type} (k : string) (d : list (string * list B)) : list B :=
  flat_map (fun e => if String.eqb (fst e) k then snd e else []) d.

(** The record has the key [k]. *)
Definition with_key {A : Type} (key : A -> string) (k : string) (x : A) : bool :=
  String.eqb (key x) k.

(** The entry of a node, and the orders of nodes and of entries by score. *)
Definition entry_of (labels : list string) (scores : list Q) (i : nat) : string * Q :=
  (nth i labels "", nth i scores 0%Q).

Definition score_le (scores : list Q) (i j : nat) : Prop :=
  (nth i scores 0 <= nth j scores 0)%Q.

Definition descending (d : predictions) : Prop :=
  StronglySorted (fun a b => (snd b <= snd a)%Q) d.

(** The form of a directory label: letters, digits and single spaces. *)
Definition label_or_space (c : ascii) : Prop := is_label_char c = true \/ c = " "%char.

(** No two spaces in a row. *)
Fixpoint single_spaced (l : list ascii) : Prop :=
  match l with
  | a :: (b :: _) as rest => ~ (a = " "%char /\ b = " "%char) /\ single_spaced rest
  | _ => True
  end.

Definition normal_label (l : list ascii) : Prop :=
  Forall label_or_space l /\ single_spaced l.

(** ** Example inputs *)

Definition tie_scores : predictions := [("a", 3 # 10); ("b", 3 # 10); ("c", 1 # 2)]%Q.
Definition three_scores : predictions :=
  [("cat", 7 # 10); ("dog", 2 # 10); ("bird", 1 # 10)]%Q.
Definition zero_score : predictions := [("a", 1 # 2); ("b", 3 # 10); ("c", 0)]%Q.

(** Every image is scored. *)
Definition always : nat -> float := fun _ => 0.01%float.
(** Only the first image read is scored; only the first is skipped. *)
Definition first_only : nat -> float :=
  fun k => if (k =? 0)%nat then 0.01%float else 0.5%float.
Definition second_only : nat -> float :=
  fun k => if (k =? 0)%nat then 0.5%float else 0.01%float.
(** Every image but the second one read is scored. *)
Definition skip_second : nat -> float :=
  fun k => if (k =? 1)%nat then 0.5%float else 0.01%float.

Definition cat_or_dog (image : string) : predictions :=
  if endswith image "cat.jpg" then [("cat", 9 # 10); ("dog", 1 # 10)]%Q
  else [("dog", 6 # 10); ("cat", 3 # 10)]%Q.
Definition predicts_dog (image : string) : predictions :=
  [("dog", 6 # 10); ("cat", 3 # 10)]%Q.
Definition always_a (image : string) : predictions :=
  [("cat", 9 # 10); ("dog", 1 # 10)]%Q.
Definition always_a_on_jpg (image : string) : predictions :=
  if endswith image ".jpg" then [("cat", 9 # 10); ("dog", 1 # 10)]%Q else [].
Definition no_labels (image : string) : predictions := [].
Definition one_label (image : string) : predictions := [("cat", 7 # 10)]%Q.
(** The scores 1 and 2^-149, the smallest positive float32. *)
Definition tiny_second (image : string) : predictions :=
  [("a", 1); ("b", 1 # 713623846352979940529142984724747568191373312)]%Q.

Definition five_images : list string :=
  ["d/cat/1cat.jpg"; "d/cat/2.jpg"; "d/cat/3.jpg"; "d/cat/4.jpg"; "d/cat/5.jpg"].
Definition cat_then_dog : list (string * list string) :=
  [("cat", ["a.jpg"]); ("dog", [])].
Definition four_cats : list (string * list string) :=
  [("cat", ["1cat.jpg"; "2cat.jpg"; "3.jpg"; "4cat.jpg"])].
Definition two_images : list (string * list string) := [("cat", ["a.jpg"; "b.jpg"])].
Definition three_images : list (string * list string) :=
  [("cat", ["a.jpg"; "b.jpg"; "c.jpg"])].
Definition cats_and_dog : list (string * list string) :=
  [("cat", ["1cat.jpg"; "2cat.jpg"; "3.jpg"; "4cat.jpg"]); ("dog", ["5.jpg"])].
Definition six_records : list image_info :=
  map (fun p => mk_info (fst p) (snd p) (1 # 2) "" 0 Infinity)
      [("1", "A"); ("2", "A"); ("3", "B"); ("4", "A"); ("5", "B"); ("6", "C")].

(** No image is scored. *)
Definition never : nat -> float := fun _ => 0.5%float.

(** * Proofs *)

(** ** Comparison of scores *)

Lemma Qgtb_true (x y : Q) : Qgtb x y = true <-> (y < x)%Q.
Proof.
  unfold Qgtb. rewrite negb_true_iff. split; intro H.
  - apply Qnot_le_lt. intro L. apply Qle_bool_iff in L. congruence.
  - destruct (Qle_bool x y) eqn:E; [|reflexivity].
    apply Qle_bool_iff in E. exfalso. revert E. apply Qlt_not_le, H.
Qed.

Lemma Qgtb_false (x y : Q) : Qgtb x y = false <-> (x <= y)%Q.
Proof.
  unfold Qgtb. rewrite negb_false_iff. apply Qle_bool_iff.
Qed.

Ltac case_gt :=
  match goal with
  | |- context [Qgtb ?x ?y] =>
      let E := fresh "E" in
      destruct (Qgtb x y) eqn:E;
      [apply Qgtb_true in E | apply Qgtb_false in E]
  end.

(** ** Top-2 extraction *)

Lemma top2_step_ordered (t : top2) (p : string * Q) :
  (second_confidence t <= top_confidence t)%Q ->
  (second_confidence (top2_step t p) <= top_confidence (top2_step t p))%Q.
Proof.
  intro H. unfold top2_step. repeat case_gt; simpl; lra.
Qed.

Lemma fold_top2_ordered (ps : predictions) : forall t,
  (second_confidence t <= top_confidence t)%Q ->
  (second_confidence (fold_left top2_step ps t)
   <= top_confidence (fold_left top2_step ps t))%Q.
Proof.
  induction ps as [|p ps IH]; intros t H; simpl; [exact H|].
  apply IH, top2_step_ordered, H.
Qed.

(** C9.  The record of every score map has a top confidence that is at least
    its second confidence. *)
Theorem top_two_ordered (ps : predictions) :
  (second_confidence (top_two ps) <= top_confidence (top_two ps))%Q.
Proof.
  apply fold_top2_ordered. simpl. lra.
Qed.

Lemma NoDup_fst_split (pre post : predictions) (e x : string * Q) :
  NoDup (map fst (pre ++ e :: post)) -> In x (pre ++ post) -> fst x <> fst e.
Proof.
  intros N Hx Heq. rewrite map_app in N. simpl in N.
  apply NoDup_remove_2 in N. apply N. rewrite <- map_app, <- Heq.
  apply in_map, Hx.
Qed.

(** Entries at or below the second confidence change nothing. *)
Lemma top2_fold_low (rest : predictions) : forall t,
  (second_confidence t <= top_confidence t)%Q ->
  (forall x, In x rest -> (snd x <= second_confidence t)%Q) ->
  fold_left top2_step rest t = t.
Proof.
  induction rest as [|p rest IH]; intros t H L; [reflexivity|].
  cbn [fold_left].
  assert (E : top2_step t p = t).
  { unfold top2_step. specialize (L p (or_introl eq_refl)).
    destruct (Qgtb (snd p) (top_confidence t)) eqn:G1;
      [apply Qgtb_true in G1; lra|].
    destruct (Qgtb (snd p) (second_confidence t)) eqn:G2;
      [apply Qgtb_true in G2; lra|reflexivity]. }
  rewrite E. apply IH; [exact H|]. intros x Hx. apply L. right. exact Hx.
Qed.

Lemma in_snoc (X : Type) (l : list X) (p x : X) :
  In x (l ++ [p]) <-> In x l \/ x = p.
Proof.
  rewrite in_app_iff. cbn. intuition.
Qed.

Lemma top2_state_step (seen : predictions) (t : top2) (p : string * Q) :
  top2_state seen t -> top2_state (seen ++ [p]) (top2_step t p).
Proof.
  intros [[-> Low]|(pre & post & E & Ptop & St)].
  - (* nothing held *)
    unfold top2_step. cbn [top_confidence second_confidence top2_init
                           top_prediction second_prediction].
    destruct (Qgtb (snd p) 0) eqn:G; [apply Qgtb_true in G|apply Qgtb_false in G].
    + right. exists seen, []. replace (Qgtb 0 0) with false by reflexivity.
      cbn [second_prediction second_confidence top2_init].
      unfold top_entry, second_entry. cbn [top_prediction top_confidence
        second_prediction second_confidence].
      rewrite <- surjective_pairing. split; [reflexivity|]. split; [exact G|].
      left. split; [reflexivity|]. rewrite app_nil_r. exact Low.
    + left. split; [reflexivity|]. intros x Hx. apply in_snoc in Hx.
      destruct Hx as [Hx| ->]; [apply Low, Hx|exact G].
  - destruct St as [[S0 Low]|(Psec & Hpre & Hpost & Hin & Hmax & Hfs)].
    + (* one positive entry *)
      assert (S1 : second_prediction t = "" /\ second_confidence t = 0%Q).
      { unfold second_entry in S0. injection S0 as -> ->. split; reflexivity. }
      destruct S1 as [Sp Sc].
      unfold top2_step. rewrite Sc.
      destruct (Qgtb (snd p) (top_confidence t)) eqn:G1;
        [apply Qgtb_true in G1|apply Qgtb_false in G1].
      * assert (G2 : Qgtb (top_confidence t) 0 = true) by (apply Qgtb_true; exact Ptop).
        rewrite G2. right. exists seen, [].
        unfold top_entry, second_entry. cbn [top_prediction top_confidence
          second_prediction second_confidence].
        rewrite <- surjective_pairing. split; [reflexivity|].
        split; [lra|]. right. split; [exact Ptop|].
        assert (All : forall x, In x seen -> (snd x <= top_confidence t)%Q).
        { intros x Hx. rewrite E in Hx. apply in_app_iff in Hx.
          destruct Hx as [Hx|[<-|Hx]].
          - assert (snd x <= 0)%Q by (apply Low, in_or_app; left; exact Hx). lra.
          - cbn. lra.
          - assert (snd x <= 0)%Q by (apply Low, in_or_app; right; exact Hx). lra. }
        split; [intros x Hx; specialize (All x Hx); lra|].
        split; [intros x []|]. rewrite app_nil_r.
        split; [rewrite E; apply in_or_app; right; left; reflexivity|].
        split; [exact All|]. left.
        exists pre, post. split; [exact E|]. cbn [snd]. split.
        -- intros x Hx.
           assert (snd x <= 0)%Q by (apply Low, in_or_app; left; exact Hx). lra.
        -- intros x Hx.
           assert (snd x <= 0)%Q by (apply Low, in_or_app; right; exact Hx). lra.
      * destruct (Qgtb (snd p) 0) eqn:G2;
          [apply Qgtb_true in G2|apply Qgtb_false in G2].
        -- right. exists pre, (post ++ [p]).
           unfold top_entry, second_entry. cbn [top_prediction top_confidence
             second_prediction second_confidence].
           rewrite <- surjective_pairing.
           split; [rewrite E, <- app_assoc; reflexivity|]. split; [exact Ptop|].
           right. split; [exact G2|].
           split.
           { intros x Hx.
             assert (snd x <= 0)%Q by (apply Low, in_or_app; left; exact Hx). lra. }
           split.
           { intros x Hx. apply in_snoc in Hx. destruct Hx as [Hx| ->]; [|exact G1].
             assert (snd x <= 0)%Q by (apply Low, in_or_app; right; exact Hx). lra. }
           rewrite app_assoc.
           split; [apply in_snoc; right; reflexivity|].
           split.
           { intros x Hx. apply in_snoc in Hx. destruct Hx as [Hx| ->]; [|lra].
             specialize (Low x Hx). lra. }
           left. exists (pre ++ post), []. split; [reflexivity|]. split.
           ++ intros x Hx. specialize (Low x Hx). lra.
           ++ intros x [].
        -- right. exists pre, (post ++ [p]).
           split; [rewrite E, <- app_assoc; reflexivity|]. split; [exact Ptop|].
           left. split; [exact S0|]. rewrite app_assoc. intros x Hx.
           apply in_snoc in Hx. destruct Hx as [Hx| ->]; [apply Low, Hx|exact G2].
    + (* two positive entries *)
      assert (Ord : (second_confidence t <= top_confidence t)%Q).
      { apply in_app_iff in Hin. destruct Hin as [Hin|Hin].
        - specialize (Hpre _ Hin). cbn in Hpre. lra.
        - specialize (Hpost _ Hin). exact Hpost. }
      assert (All : forall x, In x seen -> (snd x <= top_confidence t)%Q).
      { intros x Hx. rewrite E in Hx. apply in_app_iff in Hx.
        destruct Hx as [Hx|[<-|Hx]].
        - specialize (Hpre x Hx). lra.
        - cbn. lra.
        - apply Hpost, Hx. }
      unfold top2_step.
      destruct (Qgtb (snd p) (top_confidence t)) eqn:G1;
        [apply Qgtb_true in G1|apply Qgtb_false in G1].
      * right. exists seen, [].
        destruct (Qgtb (top_confidence t) (second_confidence t)) eqn:G2;
          [apply Qgtb_true in G2|apply Qgtb_false in G2];
          unfold top_entry, second_entry; cbn [top_prediction top_confidence
            second_prediction second_confidence];
          rewrite <- surjective_pairing;
          (split; [reflexivity|]); (split; [lra|]); right.
        -- split; [exact Ptop|].
           split; [intros x Hx; specialize (All x Hx); lra|].
           split; [intros x []|]. rewrite app_nil_r.
           split; [rewrite E; apply in_or_app; right; left; reflexivity|].
           split; [exact All|]. left.
           exists pre, post. split; [exact E|]. split; assumption.
        -- split; [exact Psec|].
           split; [intros x Hx; specialize (All x Hx); lra|].
           split; [intros x []|]. rewrite app_nil_r.
           assert (Hpost' : In (second_entry t) post).
           { apply in_app_iff in Hin. destruct Hin as [Hin|Hin]; [|exact Hin].
             specialize (Hpre _ Hin). cbn in Hpre. lra. }
           split.
           { rewrite E. apply in_or_app. right. right. exact Hpost'. }
           split; [intros x Hx; specialize (All x Hx); lra|]. right.
           split; [cbn [second_confidence top_confidence]; lra|].
           destruct (in_split _ _ Hpost') as (b1 & b2 & Eb).
           exists pre, (top_entry t), b1, b2.
           unfold second_entry. cbn [second_prediction second_confidence].
           split; [rewrite E, Eb; reflexivity|]. cbn. lra.
      * destruct (Qgtb (snd p) (second_confidence t)) eqn:G2;
          [apply Qgtb_true in G2|apply Qgtb_false in G2].
        -- right. exists pre, (post ++ [p]).
           unfold top_entry, second_entry. cbn [top_prediction top_confidence
             second_prediction second_confidence].
           rewrite <- surjective_pairing.
           split; [rewrite E, <- app_assoc; reflexivity|]. split; [exact Ptop|].
           right. split; [lra|]. split; [exact Hpre|].
           split.
           { intros x Hx. apply in_snoc in Hx.
             destruct Hx as [Hx| ->]; [apply Hpost, Hx|exact G1]. }
           rewrite app_assoc.
           split; [apply in_snoc; right; reflexivity|].
           split.
           { intros x Hx. apply in_snoc in Hx. destruct Hx as [Hx| ->]; [|lra].
             specialize (Hmax x Hx). lra. }
           left. exists (pre ++ post), []. split; [reflexivity|]. split.
           ++ intros x Hx. specialize (Hmax x Hx). lra.
           ++ intros x [].
        -- right. exists pre, (post ++ [p]).
           split; [rewrite E, <- app_assoc; reflexivity|]. split; [exact Ptop|].
           right. split; [exact Psec|]. split; [exact Hpre|].
           split.
           { intros x Hx. apply in_snoc in Hx.
             destruct Hx as [Hx| ->]; [apply Hpost, Hx|lra]. }
           rewrite app_assoc.
           split; [apply in_snoc; left; exact Hin|].
           split.
           { intros x Hx. apply in_snoc in Hx.
             destruct Hx as [Hx| ->]; [apply Hmax, Hx|exact G2]. }
           destruct Hfs as [(a & b & Eab & Ha & Hb)|Late].
           ++ left. exists a, (b ++ [p]).
              split; [rewrite Eab, <- app_assoc; reflexivity|]. split; [exact Ha|].
              intros x Hx. apply in_snoc in Hx.
              destruct Hx as [Hx| ->]; [apply Hb, Hx|exact G2].
           ++ right. exact Late.
Qed.

Lemma top2_state_fold (rest : predictions) : forall seen t,
  top2_state seen t -> top2_state (seen ++ rest) (fold_left top2_step rest t).
Proof.
  induction rest as [|p rest IH]; intros seen t H.
  - rewrite app_nil_r. exact H.
  - cbn [fold_left]. replace (seen ++ p :: rest) with ((seen ++ [p]) ++ rest)
      by (rewrite <- app_assoc; reflexivity).
    apply IH, top2_state_step, H.
Qed.

Lemma top_two_state (ps : predictions) : top2_state ps (top_two ps).
Proof.
  apply (top2_state_fold ps [] top2_init). left. split; [reflexivity|intros x []].
Qed.

Lemma filter_nonpositive (l : predictions) :
  (forall x, In x l -> (snd x <= 0)%Q) -> filter positive l = [].
Proof.
  induction l as [|a l IH]; intro H; [reflexivity|]. cbn [filter].
  assert (P : positive a = false)
    by (apply Qgtb_false, H; left; reflexivity).
  rewrite P. apply IH. intros x Hx. apply H. right. exact Hx.
Qed.

(** With two positive scores both places are taken. *)
Lemma top_two_both (ps : predictions) :
  (2 <= List.length (filter positive ps))%nat ->
  exists pre post,
    ps = pre ++ top_entry (top_two ps) :: post /\
    (0 < second_confidence (top_two ps))%Q /\
    (forall x, In x pre -> (snd x < top_confidence (top_two ps))%Q) /\
    (forall x, In x post -> (snd x <= top_confidence (top_two ps))%Q) /\
    In (second_entry (top_two ps)) (pre ++ post) /\
    (forall x, In x (pre ++ post) -> (snd x <= second_confidence (top_two ps))%Q) /\
    (first_seen_max (second_entry (top_two ps)) (pre ++ post)
     \/ second_late pre (top_two ps)).
Proof.
  intro Two. destruct (top_two_state ps) as [[_ Low]|(pre & post & E & _ & St)].
  - rewrite (filter_nonpositive ps Low) in Two. cbn in Two. lia.
  - destruct St as [[_ Low]|St].
    + exfalso. rewrite E, filter_app in Two. cbn [filter] in Two.
      rewrite (filter_nonpositive pre), (filter_nonpositive post) in Two.
      * cbn [app] in Two. destruct (positive _); cbn in Two; lia.
      * intros x Hx. apply Low, in_or_app. right. exact Hx.
      * intros x Hx. apply Low, in_or_app. left. exact Hx.
    + exists pre, post. split; [exact E|exact St].
Qed.

(** An entry of a map with distinct labels stands at one place. *)
Lemma split_unique (e : string * Q) (a : predictions) : forall l b a' b',
  NoDup (map fst l) -> l = a ++ e :: b -> l = a' ++ e :: b' -> a = a' /\ b = b'.
Proof.
  induction a as [|x a IH]; intros l b a' b' N E E'.
  - destruct a' as [|x' a'].
    + rewrite E in E'. injection E' as <-. split; reflexivity.
    + exfalso. rewrite E in E'. cbn in E'. injection E' as <- Eb.
      rewrite E in N. cbn in N. inversion N as [|? ? Hn _]; subst.
      apply Hn. apply in_map. apply in_or_app. right. left. reflexivity.
  - destruct a' as [|x' a'].
    + exfalso. rewrite E' in E. cbn in E. injection E as <- Eb.
      rewrite E' in N. cbn in N. inversion N as [|? ? Hn _]; subst.
      apply Hn. apply in_map. apply in_or_app. right. left. reflexivity.
    + rewrite E in E'. cbn in E'. injection E' as <- Eb.
      rewrite E in N. cbn in N. inversion N as [|? ? _ N']; subst.
      destruct (IH (a ++ e :: b) b a' b' N' eq_refl Eb) as [-> ->].
      split; reflexivity.
Qed.

Lemma NoDup_fst_remove (pre post : predictions) (e : string * Q) :
  NoDup (map fst (pre ++ e :: post)) -> NoDup (map fst (pre ++ post)).
Proof.
  intro N. rewrite map_app in *. simpl in N. apply NoDup_remove_1 in N. exact N.
Qed.

Lemma second_late_tied (ps pre post : predictions) (t : top2) :
  ps = pre ++ top_entry t :: post ->
  (0 < second_confidence t)%Q ->
  (forall x, In x (pre ++ post) -> (snd x <= second_confidence t)%Q) ->
  second_late pre t -> tied_before_top ps.
Proof.
  intros E P Hmax [Lt (l1 & x & l2 & l3 & Ep & Ex)].
  exists l1, x, l2, (second_entry t), l3, (top_entry t), post.
  split; [rewrite E, Ep, <- !app_assoc; cbn; rewrite <- !app_assoc; reflexivity|].
  cbn [snd second_entry top_entry]. split; [lra|]. split; [exact Ex|].
  split; [lra|]. intros z Hz.
  assert (In z (pre ++ post)).
  { rewrite Ep. rewrite !in_app_iff in *. cbn. rewrite !in_app_iff. cbn. tauto. }
  specialize (Hmax z H). lra.
Qed.

Lemma second_late_not_first_seen (ps pre post : predictions) (t : top2) :
  NoDup (map fst ps) ->
  ps = pre ++ top_entry t :: post ->
  second_late pre t ->
  ~ two_highest_first_seen (top_entry t) (second_entry t) ps.
Proof.
  intros N E [Lt (l1 & x & l2 & l3 & Ep & Ex)]
         (pre' & post' & E' & _ & _ & (a & b & Eab & Ha & _)).
  destruct (split_unique _ _ _ _ _ _ N E E') as [<- <-].
  assert (N' : NoDup (map fst (pre ++ post))).
  { rewrite E in N. apply NoDup_fst_remove in N. exact N. }
  assert (Eab' : pre ++ post = (l1 ++ x :: l2) ++ second_entry t :: (l3 ++ post)).
  { rewrite Ep, <- !app_assoc. cbn. rewrite <- !app_assoc. reflexivity. }
  destruct (split_unique _ _ _ _ _ _ N' Eab Eab') as [-> _].
  assert (Hx : In x (l1 ++ x :: l2)) by (apply in_or_app; right; left; reflexivity).
  specialize (Ha x Hx). cbn in Ha. lra.
Qed.

(** Two entries tied before the only higher one: the second place keeps the
    later one. *)
Lemma tied_second_late (ps : predictions) :
  NoDup (map fst ps) -> tied_before_top ps ->
  exists pre post,
    ps = pre ++ top_entry (top_two ps) :: post /\ second_late pre (top_two ps).
Proof.
  intros N (l1 & x & l2 & y & l3 & c & l4 & E & Px & Exy & Lt & Low).
  set (seen := l1 ++ x :: l2 ++ y :: l3).
  assert (Eps : ps = seen ++ c :: l4).
  { unfold seen. rewrite E, <- !app_assoc. cbn. rewrite <- !app_assoc. reflexivity. }
  assert (Nxy : x <> y).
  { intro Heq. rewrite E in N.
    apply (NoDup_fst_split l1 (l2 ++ y :: l3 ++ c :: l4) x y N).
    - apply in_or_app. right. apply in_or_app. right. left. reflexivity.
    - rewrite Heq. reflexivity. }
  assert (Hx : In x seen) by (unfold seen; apply in_or_app; right; left; reflexivity).
  assert (Hy : In y seen).
  { unfold seen. apply in_or_app. right. right. apply in_or_app. right. left.
    reflexivity. }
  assert (Below : forall z, In z seen -> (snd z <= snd x)%Q).
  { intros z Hz. unfold seen in Hz. rewrite in_app_iff in Hz. cbn in Hz.
    rewrite in_app_iff in Hz. cbn in Hz.
    destruct Hz as [Hz|[<-|[Hz|[<-|Hz]]]]; try lra;
      apply Low; rewrite !in_app_iff; tauto. }
  set (t0 := top_two seen).
  assert (Et : top_two ps = fold_left top2_step l4 (top2_step t0 c)).
  { unfold top_two, t0. rewrite Eps, fold_left_app. reflexivity. }
  destruct (top_two_state seen) as [[_ Low0]|(pre & post & E0 & Ptop & St)].
  { specialize (Low0 x Hx). lra. }
  fold t0 in E0, Ptop, St.
  assert (Cases : forall z, In z seen -> z = top_entry t0 \/ In z (pre ++ post)).
  { intros z Hz. rewrite E0 in Hz. rewrite in_app_iff in *. cbn in Hz. 
    destruct Hz as [Hz|[Hz|Hz]]; auto. }
  destruct St as [[_ Low0]|(Psec & Hpre & Hpost & Hin & Hmax & _)].
  { exfalso. apply Nxy.
    destruct (Cases x Hx) as [Ex|Ix]; [|specialize (Low0 x Ix); lra].
    destruct (Cases y Hy) as [Ey|Iy]; [|specialize (Low0 y Iy); lra].
    rewrite Ex, Ey. reflexivity. }
  assert (Top : (top_confidence t0 == snd x)%Q).
  { assert (In (top_entry t0) seen)
      by (rewrite E0; apply in_or_app; right; left; reflexivity).
    specialize (Below _ H). cbn in Below.
    destruct (Cases x Hx) as [Ex|Ix].
    - rewrite Ex. reflexivity.
    - apply in_app_iff in Ix. destruct Ix as [Ix|Ix].
      + specialize (Hpre x Ix). lra.
      + specialize (Hpost x Ix). lra. }
  assert (Sec : (second_confidence t0 == snd x)%Q).
  { assert (In (second_entry t0) seen).
    { rewrite E0. apply in_app_iff in Hin. rewrite in_app_iff. cbn. tauto. }
    specialize (Below _ H). cbn in Below.
    destruct (Cases x Hx) as [Ex|Ix].
    - destruct (Cases y Hy) as [Ey|Iy].
      + exfalso. apply Nxy. rewrite Ex, Ey. reflexivity.
      + specialize (Hmax y Iy). lra.
    - specialize (Hmax x Ix). lra. }
  assert (Step : top2_step t0 c
                 = mk_top2 (fst c) (snd c) (second_prediction t0) (second_confidence t0)).
  { unfold top2_step.
    assert (G1 : Qgtb (snd c) (top_confidence t0) = true) by (apply Qgtb_true; lra).
    assert (G2 : Qgtb (top_confidence t0) (second_confidence t0) = false)
      by (apply Qgtb_false; lra).
    rewrite G1, G2. reflexivity. }
  assert (Keep : top_two ps
                 = mk_top2 (fst c) (snd c) (second_prediction t0) (second_confidence t0)).
  { rewrite Et, Step. apply top2_fold_low; cbn [second_confidence top_confidence].
    - lra.
    - intros z Hz. assert (snd z <= snd x)%Q; [|lra].
      apply Low. rewrite !in_app_iff. tauto. }
  rewrite Keep. exists seen, l4.
  unfold top_entry, second_late, second_entry.
  cbn [top_prediction top_confidence second_prediction second_confidence].
  rewrite <- surjective_pairing. split; [exact Eps|]. split; [lra|].
  assert (Hpost' : In (second_entry t0) post).
  { apply in_app_iff in Hin. destruct Hin as [Hin|Hin]; [|exact Hin].
    specialize (Hpre _ Hin). cbn in Hpre. lra. }
  destruct (in_split _ _ Hpost') as (b1 & b2 & Eb).
  exists pre, (top_entry t0), b1, b2. split.
  - rewrite E0, Eb. reflexivity.
  - cbn. lra.
Qed.

(** C1, as the code has it.  For a score map with pairwise distinct labels
    and at least two positive scores, the top entry is the first-seen entry of
    the highest score, the second entry is another entry of the map that no
    entry but the top one outscores, and the two labels differ.  The two are
    the two highest-scoring entries with ties resolved by first-seen order
    exactly when the map does not have two entries of one score before the
    only entry that outscores them; in particular when no two entries have
    the same score.  In a map that has them, the second entry is one of
    these tied entries that comes after another. *)
Theorem top_two_highest (ps : predictions) :
  NoDup (map fst ps) -> (2 <= List.length (filter positive ps))%nat ->
  let t := top_two ps in
  two_highest (top_entry t) (second_entry t) ps /\
  top_prediction t <> second_prediction t /\
  (two_highest_first_seen (top_entry t) (second_entry t) ps <-> ~ tied_before_top ps) /\
  (distinct_scores ps -> two_highest_first_seen (top_entry t) (second_entry t) ps) /\
  (tied_before_top ps ->
   exists l1 x l2 l3 post,
     ps = l1 ++ x :: l2 ++ second_entry t :: l3 ++ top_entry t :: post /\
     (snd x == second_confidence t)%Q /\
     (second_confidence t < top_confidence t)%Q).
Proof.
  intros N Two t.
  destruct (top_two_both ps Two)
    as (pre & post & E & Psec & Hpre & Hpost & Hin & Hmax & Hfs).
  fold t in E, Psec, Hpre, Hpost, Hin, Hmax, Hfs.
  assert (Iff : two_highest_first_seen (top_entry t) (second_entry t) ps
                <-> ~ tied_before_top ps).
  { split.
    - intros F T. destruct (tied_second_late ps N T) as (pre' & post' & E' & L).
      exact (second_late_not_first_seen ps pre' post' _ N E' L F).
    - intro NT. destruct Hfs as [F|L].
      + exists pre, post. repeat split; assumption.
      + exfalso. apply NT. exact (second_late_tied ps pre post t E Psec Hmax L). }
  split; [|split; [|split; [|split]]].
  - exists pre, post. repeat split; assumption.
  - intro Heq. rewrite E in N.
    apply (NoDup_fst_split pre post _ _ N Hin). simpl. symmetry. exact Heq.
  - exact Iff.
  - intro D. apply Iff.
    intros (l1 & x & l2 & y & l3 & c & l4 & E' & _ & Exy & _).
    assert (Heq : x = y).
    { apply D; [| |exact Exy]; rewrite E'; rewrite !in_app_iff; cbn;
        rewrite ?in_app_iff; cbn; tauto. }
    rewrite E' in N.
    apply (NoDup_fst_split l1 (l2 ++ y :: l3 ++ c :: l4) x y N).
    + apply in_or_app. right. apply in_or_app. right. left. reflexivity.
    + rewrite Heq. reflexivity.
  - intro T. destruct (tied_second_late ps N T)
      as (pre' & post' & E' & Lt & l1 & x & l2 & l3 & Ep & Ex).
    fold t in E', Lt, Ep, Ex. exists l1, x, l2, l3, post'.
    split; [|split; assumption].
    rewrite E', Ep, <- !app_assoc. cbn. rewrite <- !app_assoc. reflexivity.
Qed.

(** C1 on a map with a score of zero. *)
Lemma top_two_highest_witness :
  two_highest ("a", 1 # 2)%Q ("b", 3 # 10)%Q zero_score /\
  "a" <> "b" /\
  (two_highest_first_seen ("a", 1 # 2)%Q ("b", 3 # 10)%Q zero_score
   <-> ~ tied_before_top zero_score) /\
  (distinct_scores zero_score ->
   two_highest_first_seen ("a", 1 # 2)%Q ("b", 3 # 10)%Q zero_score) /\
  (tied_before_top zero_score ->
   exists l1 x l2 l3 post,
     zero_score = l1 ++ x :: l2 ++ ("b", 3 # 10)%Q :: l3 ++ ("a", 1 # 2)%Q :: post /\
     (snd x == 3 # 10)%Q /\ (3 # 10 < 1 # 2)%Q).
Proof.
  apply (top_two_highest zero_score).
  - simpl. repeat constructor; simpl; intuition discriminate.
  - cbn. lia.
Defined.

(** Scores that are not positive never enter the record. *)
Lemma top_two_ignores_zero_scores :
  top_two [("a", 0); ("b", 0)]%Q = top2_init.
Proof. reflexivity. Qed.

(** C1 fails as stated: in [a: 0.3, b: 0.3, c: 0.5] the second place goes to
    [b], although [a] has the same score and was seen first (the guard of
    line 204 keeps [b] when [c] arrives). *)
Lemma top_two_tie_not_first_seen :
  NoDup (map fst tie_scores) /\ (2 <= List.length tie_scores)%nat /\
  positive_scores tie_scores /\
  second_prediction (top_two tie_scores) = "b" /\
  ~ two_highest_first_seen (top_entry (top_two tie_scores))
                           (second_entry (top_two tie_scores)) tie_scores.
Proof.
  split; [|split; [|split; [|split]]].
  - simpl. repeat constructor; simpl; intuition discriminate.
  - simpl. lia.
  - intros x Hx. simpl in Hx.
    destruct Hx as [<-|[<-|[<-|[]]]]; simpl; lra.
  - reflexivity.
  - intros (pre & post & E & _ & _ & pre2 & post2 & E2 & H2 & _).
    vm_compute in E.
    destruct pre as [|x1 pre]; simpl in E; [discriminate E|].
    destruct pre as [|x2 pre]; simpl in E; [discriminate E|].
    destruct pre as [|x3 pre]; simpl in E.
    2:{ destruct pre; simpl in E; discriminate E. }
    injection E as <- <- <-. simpl in E2.
    vm_compute in E2.
    destruct pre2 as [|y1 pre2]; simpl in E2; [discriminate E2|].
    destruct pre2 as [|y2 pre2]; simpl in E2.
    2:{ destruct pre2; simpl in E2; discriminate E2. }
    injection E2 as <- <-.
    specialize (H2 _ (or_introl eq_refl)). vm_compute in H2. discriminate H2.
Qed.

(** ** The sort is a stable sort *)

Section SortFacts.
Context {A : Type}.
Variable key : A -> Q.

Lemma insert_by_perm (x : A) (l : list A) : Permutation (x :: l) (insert_by key x l).
Proof.
  induction l as [|y l IH]; simpl; [reflexivity|].
  destruct (Qgtb (key x) (key y)); [|reflexivity].
  rewrite perm_swap. apply perm_skip, IH.
Qed.

Lemma sort_by_perm (l : list A) : Permutation l (sort_by key l).
Proof.
  induction l as [|x l IH]; simpl; [constructor|].
  rewrite <- insert_by_perm. apply perm_skip, IH.
Qed.

Lemma insert_by_sorted (x : A) (l : list A) :
  StronglySorted (key_le key) l -> StronglySorted (key_le key) (insert_by key x l).
Proof.
  induction 1 as [|y l Hs IH Hall]; simpl.
  - constructor; constructor.
  - destruct (Qgtb (key x) (key y)) eqn:E;
      [apply Qgtb_true in E | apply Qgtb_false in E].
    + constructor; [exact IH|].
      apply (Permutation_Forall (insert_by_perm x l)).
      constructor; [unfold key_le; lra|exact Hall].
    + constructor; [constructor; assumption|].
      constructor; [exact E|].
      revert Hall. apply Forall_impl. unfold key_le. intros a Ha. lra.
Qed.

Lemma sort_by_sorted (l : list A) : StronglySorted (key_le key) (sort_by key l).
Proof.
  induction l as [|x l IH]; simpl; [constructor|].
  apply insert_by_sorted, IH.
Qed.

Lemma insert_by_filter (q : Q) (x : A) (l : list A) :
  filter (has_key key q) (insert_by key x l) = filter (has_key key q) (x :: l).
Proof.
  induction l as [|y l IH]; [reflexivity|].
  cbn [insert_by].
  destruct (Qgtb (key x) (key y)) eqn:E; [apply Qgtb_true in E|reflexivity].
  cbn [filter] in *. rewrite IH.
  destruct (has_key key q x) eqn:Hx; [|reflexivity].
  destruct (has_key key q y) eqn:Hy; [exfalso|reflexivity].
  unfold has_key in *. apply Qeq_bool_iff in Hx, Hy. lra.
Qed.

Lemma sort_by_stable (q : Q) (l : list A) :
  filter (has_key key q) (sort_by key l) = filter (has_key key q) l.
Proof.
  induction l as [|x l IH]; [reflexivity|].
  cbn [sort_by fold_right]. rewrite insert_by_filter.
  cbn [filter]. fold (sort_by key l). rewrite IH. reflexivity.
Qed.
End SortFacts.

(** ** The loops of a run *)

Lemma update_metrics_fold (label : string) (infos : list image_info) : forall c,
  fold_left (fun c i => update_metrics label (info_top_prediction i) c) infos c
  = add_counters c (tally label infos).
Proof.
  induction infos as [|i infos IH]; intro c.
  - destruct c. unfold add_counters, tally. simpl. f_equal; lia.
  - cbn [fold_left]. rewrite IH. unfold add_counters, tally, update_metrics, is_hit.
    cbn [filter List.length]. 
    destruct (String.eqb (info_top_prediction i) label); cbn; f_equal; lia.
Qed.

Lemma scored_nil (g : globals) : scored g [] 0 = g.
Proof.
  destruct g. unfold scored. cbn. rewrite !Nat.add_0_r, !app_nil_r. reflexivity.
Qed.

Lemma scored_scored (g : globals) (l1 l2 : list image_info) (n1 n2 : nat) :
  scored (scored g l1 n1) l2 n2 = scored g (l1 ++ l2) (n1 + n2).
Proof.
  unfold scored. cbn. rewrite length_app, map_app, !app_assoc, !Nat.add_assoc.
  reflexivity.
Qed.

Section RunFacts.
Variable directory : string.
Variable random : nat -> float.
Variable run_graph : string -> predictions.


Lemma process_image_skip (label : string) (g : globals) (c : counters) (image : string) :
  selected random (random_calls g) = false ->
  process_image random run_graph label (g, c) image = Ok (scored g [] 1, c).
Proof.
  unfold selected, process_image. intro H. apply negb_false_iff in H.
  rewrite H. destruct g. unfold scored, incr_random_calls. cbn.
  rewrite !app_nil_r, Nat.add_0_r, Nat.add_1_r. reflexivity.
Qed.

Lemma process_image_score (label : string) (g : globals) (c : counters) (image : string) :
  selected random (random_calls g) = true ->
  process_image random run_graph label (g, c) image =
  (info <- image_record run_graph (rstrip image) ;;
   Ok (scored g [info] 1, update_metrics label (info_top_prediction info) c)).
Proof.
  unfold selected, process_image. intro H. apply negb_true_iff in H.
  rewrite H. destruct (image_record run_graph (rstrip image)) as [info|e]; [|reflexivity].
  cbn [bind]. destruct g. unfold scored, incr_random_calls, incr_total_images,
    append_prediction, print. cbn. rewrite !Nat.add_1_r. reflexivity.
Qed.

Lemma process_images_spec (label : string) (images : list string) :
  forall g c g' c',
  for_each (process_image random run_graph label) images (g, c) = Ok (g', c') ->
  exists infos,
    g' = scored g infos (List.length images) /\
    c' = add_counters c (tally label infos) /\
    Forall (fun i => exists x, In x images /\ image_record run_graph (rstrip x) = Ok i) infos.
Proof.
  induction images as [|x images IH]; intros g c g' c' H.
  - cbn in H. injection H as <- <-. exists []. split; [|split].
    + symmetry. apply scored_nil.
    + destruct c. unfold add_counters, tally. cbn. f_equal; lia.
    + constructor.
  - cbn [for_each] in H.
    destruct (selected random (random_calls g)) eqn:S.
    + rewrite (process_image_score _ _ _ _ S) in H.
      destruct (image_record run_graph (rstrip x)) as [info|e] eqn:R; [|discriminate H].
      cbn [bind] in H. apply IH in H. destruct H as (infos & -> & -> & F).
      exists (info :: infos). split; [|split].
      * rewrite scored_scored. reflexivity.
      * rewrite <- !update_metrics_fold. reflexivity.
      * constructor.
        -- exists x. split; [left; reflexivity|exact R].
        -- revert F. apply Forall_impl. intros i (y & Hy & Ry).
           exists y. split; [right; exact Hy|exact Ry].
    + rewrite (process_image_skip _ _ _ _ S) in H. cbn [bind] in H.
      apply IH in H. destruct H as (infos & -> & -> & F).
      exists infos. split; [|split].
      * rewrite scored_scored. reflexivity.
      * reflexivity.
      * revert F. apply Forall_impl. intros i (y & Hy & Ry).
        exists y. split; [right; exact Hy|exact Ry].
Qed.

Lemma process_label_spec (g g' : globals) (entry : string * list string) :
  process_label directory random run_graph g entry = Ok g' ->
  exists infos,
    g' = labelled g (label_of directory entry) infos (List.length (snd entry)) /\
    from_entry directory run_graph entry infos.
Proof.
  unfold process_label. intro H.
  fold (dir_of directory entry) in H. fold (label_of directory entry) in H. fold (images_of directory entry) in H.
  destruct (for_each (process_image random run_graph (label_of directory entry)) (images_of directory entry)
              (incr_total_labels g, counters0)) as [[g1 c1]|e] eqn:L; [|discriminate H].
  cbn [bind] in H. injection H as <-.
  apply process_images_spec in L. destruct L as (infos & -> & -> & F).
  exists infos. split; [|exact F].
  unfold labelled, stat_of, images_of. rewrite length_map.
  replace (add_counters counters0 (tally (label_of directory entry) infos))
    with (tally (label_of directory entry) infos) by reflexivity.
  reflexivity.
Qed.
End RunFacts.

Lemma print_all_same (A : Type) (f : A -> printed) (l : list A) : forall g,
  same_variables g (fold_left (fun g i => print (f i) g) l g).
Proof.
  induction l as [|x l IH]; intro g; cbn [fold_left].
  - repeat split.
  - destruct (IH (print (f x) g)) as (H1 & H2 & H3 & H4 & H5 & H6 & H7).
    repeat split; assumption.
Qed.

Section MainFacts.
Variable directory : string.
Variable random : nat -> float.
Variable run_graph : string -> predictions.

Lemma process_labels_spec (corpus : list (string * list string)) : forall g g',
  for_each (process_label directory random run_graph) corpus g = Ok g' ->
  exists ls,
    map fst ls = corpus /\ g' = after_labels directory g ls /\
    Forall (fun s => from_entry directory run_graph (fst s) (snd s)) ls.
Proof.
  induction corpus as [|e corpus IH]; intros g g' H.
  - cbn in H. injection H as <-. exists []. repeat split. constructor.
  - cbn [for_each] in H.
    destruct (process_label directory random run_graph g e) as [g1|x] eqn:L;
      [|discriminate H].
    cbn [bind] in H. apply process_label_spec in L. destruct L as (infos & -> & F).
    apply IH in H. destruct H as (ls & <- & -> & Fs).
    exists ((e, infos) :: ls). repeat split. constructor; assumption.
Qed.

Lemma after_labels_stats (ls : list slice) : forall g,
  label_stats (after_labels directory g ls) = label_stats g ++ map (slice_stat directory) ls.
Proof.
  induction ls as [|s ls IH]; intro g; unfold after_labels; cbn [fold_left map].
  - rewrite app_nil_r. reflexivity.
  - fold (after_labels directory (labelled g (label_of directory (fst s)) (snd s)
                                 (List.length (snd (fst s)))) ls).
    rewrite IH. cbn. rewrite <- app_assoc. reflexivity.
Qed.

Lemma after_labels_predictions (ls : list slice) : forall g,
  all_predictions (after_labels directory g ls) = all_predictions g ++ List.concat (map snd ls).
Proof.
  induction ls as [|s ls IH]; intro g; unfold after_labels; cbn [fold_left map List.concat].
  - rewrite app_nil_r. reflexivity.
  - fold (after_labels directory (labelled g (label_of directory (fst s)) (snd s)
                                 (List.length (snd (fst s)))) ls).
    rewrite IH. cbn. rewrite <- app_assoc. reflexivity.
Qed.

Lemma after_labels_totals (ls : list slice) : forall g,
  total_labels (after_labels directory g ls) = (total_labels g + List.length ls)%nat /\
  total_images (after_labels directory g ls) = (total_images g + total_count (map (slice_stat directory) ls))%nat /\
  microfscores (after_labels directory g ls) = weighted_sum (map (slice_stat directory) ls) (microfscores g) /\
  macrofscores (after_labels directory g ls) = plain_sum (map (slice_stat directory) ls) (macrofscores g).
Proof.
  induction ls as [|s ls IH]; intro g; unfold after_labels; cbn [fold_left map].
  - cbn. repeat split; lia || reflexivity.
  - fold (after_labels directory (labelled g (label_of directory (fst s)) (snd s)
                                 (List.length (snd (fst s)))) ls).
    destruct (IH (labelled g (label_of directory (fst s)) (snd s)
                           (List.length (snd (fst s))))) as (H1 & H2 & H3 & H4).
    rewrite H1, H2, H3, H4.
    unfold labelled, add_fscore, print, scored, incr_total_labels, slice_stat, stat_of.
    cbn [total_labels total_images microfscores macrofscores stat_counters
         stat_fscore count tally List.length total_count fold_right
         weighted_sum plain_sum fold_left map].
    repeat split; try lia.
    symmetry. exact (Nat.add_assoc _ _ _).
Qed.

Lemma main_spec (corpus : list (string * list string)) (o : outcome) :
  main directory random run_graph corpus = Ok o ->
  exists ls,
    map fst ls = corpus /\
    Forall (fun s => from_entry directory run_graph (fst s) (snd s)) ls /\
    let g := after_labels directory globals0 ls in
    divide_by_count (microfscores g) (total_images g) = Ok (microf o) /\
    divide_by_count (macrofscores g) (total_labels g) = Ok (macrof o) /\
    microfscores (final o) = microfscores g /\
    macrofscores (final o) = macrofscores g /\
    total_images (final o) = total_images g /\
    total_labels (final o) = total_labels g /\
    label_stats (final o) = label_stats g /\
    all_predictions (final o) = least_confident_first (all_predictions g).
Proof.
  unfold main. intro H.
  destruct (for_each (process_label directory random run_graph) corpus globals0)
    as [g|e] eqn:L; [|discriminate H].
  cbn [bind] in H.
  destruct (divide_by_count (microfscores g) (total_images g)) as [mi|e] eqn:D1;
    [|discriminate H].
  cbn [bind] in H.
  destruct (divide_by_count (macrofscores g) (total_labels g)) as [ma|e] eqn:D2;
    [|discriminate H].
  cbn [bind] in H. injection H as <-.
  apply process_labels_spec in L. destruct L as (ls & E & -> & F).
  exists ls. split; [exact E|]. split; [exact F|].
  cbn zeta. cbn [microf macrof final].
  split; [exact D1|]. split; [exact D2|].
  match goal with
  | |- context [fold_left ?f ?l ?g0] =>
      destruct (print_all_same image_info (fun i => PText (info_image i)) l g0)
        as (H1 & H2 & H3 & H4 & H5 & H6 & H7)
  end.
  rewrite H1, H2, H3, H4, H5, H7. repeat split.
Qed.
End MainFacts.

(** ** Counters and F-scores *)

Lemma exact_precision_pos (tp fp : nat) :
  (0 < tp)%nat -> (0 < exact_precision tp fp)%Q.
Proof.
  intro H. unfold exact_precision. apply Qlt_shift_div_l.
  - change 0%Q with (inject_Z 0). rewrite <- Zlt_Qlt. lia.
  - rewrite Qmult_0_l. change 0%Q with (inject_Z 0). rewrite <- Zlt_Qlt. lia.
Qed.

Lemma exact_fscore_balanced (tp fp : nat) :
  (0 < tp)%nat ->
  (exact_fscore tp fp fp == exact_precision tp fp)%Q /\
  (exact_recall tp fp == exact_precision tp fp)%Q.
Proof.
  intro H. pose proof (exact_precision_pos tp fp H) as P.
  split; [|reflexivity].
  unfold exact_fscore. destruct (Nat.eqb_spec tp 0) as [E|_]; [lia|].
  change (exact_recall tp fp) with (exact_precision tp fp).
  field. lra.
Qed.

Lemma tally_balanced (label : string) (infos : list image_info) :
  fn (tally label infos) = fp (tally label infos).
Proof. reflexivity. Qed.

Lemma process_images_balanced (random : nat -> float) (run_graph : string -> predictions)
  (label : string) (images : list string) (g g' : globals) (c c' : counters) :
  for_each (process_image random run_graph label) images (g, c) = Ok (g', c') ->
  fn c = fp c -> fn c' = fp c'.
Proof.
  intros H E. apply process_images_spec in H. destruct H as (infos & _ & -> & _).
  unfold add_counters. cbn [fn fp]. rewrite E, tally_balanced. reflexivity.
Qed.

(** C10, as the code has it.  At every point of a label's loop the
    false-negative and false-positive counters are equal; the computed
    precision and recall are therefore equal, and in exact arithmetic the
    F-score equals them when there is a true positive. *)
Theorem counters_balanced (random : nat -> float) (run_graph : string -> predictions)
  (label : string) (images : list string) (g g' : globals) (c' : counters) :
  for_each (process_image random run_graph label) images (g, counters0) = Ok (g', c') ->
  fn c' = fp c' /\
  precision_of (tp c') (fp c') = recall_of (tp c') (fn c') /\
  ((0 < tp c')%nat ->
   (exact_recall (tp c') (fn c') == exact_precision (tp c') (fp c'))%Q /\
   (exact_fscore (tp c') (fp c') (fn c') == exact_precision (tp c') (fp c'))%Q).
Proof.
  intro H. apply process_images_balanced in H; [|reflexivity].
  split; [exact H|]. rewrite H. split; [reflexivity|].
  intro P. destruct (exact_fscore_balanced (tp c') (fp c') P) as [F R].
  split; assumption.
Qed.

(** C10 on five images of which one is predicted right. *)
Lemma counters_balanced_witness :
  fn (mk_counters 5 1 4 4) = fp (mk_counters 5 1 4 4) /\
  precision_of 1 4 = recall_of 1 4 /\
  ((0 < 1)%nat ->
   (exact_recall 1 4 == exact_precision 1 4)%Q /\
   (exact_fscore 1 4 4 == exact_precision 1 4)%Q).
Proof.
  refine (counters_balanced always cat_or_dog "cat" five_images globals0 _ _ _).
  vm_compute. reflexivity.
Defined.

(** C10 fails as stated: with one true positive in five images the computed
    F-score, 0.20000000000000004, is not the computed precision, 0.2. *)
Lemma fscore_not_precision :
  exists g c,
    for_each (process_image always cat_or_dog "cat") five_images (globals0, counters0)
    = Ok (g, c) /\
    (0 < tp c)%nat /\
    fscore_of (tp c) (fp c) (fn c) <> precision_of (tp c) (fp c).
Proof.
  eexists. eexists. split; [vm_compute; reflexivity|].
  split; [cbn; lia|].
  cbn [tp fp fn]. intro H.
  assert (E : PrimFloat.eqb (fscore_of 1 4 4) (precision_of 1 4) = false)
    by (vm_compute; reflexivity).
  rewrite H in E. vm_compute in E. discriminate E.
Qed.

Lemma update_metrics_hit (label : string) (c : counters) :
  update_metrics label label c = mk_counters (S (count c)) (S (tp c)) (fn c) (fp c).
Proof. unfold update_metrics. rewrite String.eqb_refl. reflexivity. Qed.

Lemma update_metrics_miss (label top : string) (c : counters) :
  top <> label ->
  update_metrics label top c = mk_counters (S (count c)) (tp c) (S (fn c)) (S (fp c)).
Proof.
  intro H. unfold update_metrics. apply String.eqb_neq in H. rewrite H. reflexivity.
Qed.

(** C2, as the code has it.  An image whose top prediction is its label adds
    a true positive to the label's counters; any other image adds a false
    negative and a false positive, both to the counters of the image's own
    label.  A run keeps counters for the label directories only, each label's
    counters tallying the scored images of its own directory. *)
Theorem metrics_charged_to_ground_truth (directory : string) (random : nat -> float)
  (run_graph : string -> predictions) (corpus : list (string * list string))
  (o : outcome) :
  main directory random run_graph corpus = Ok o ->
  (forall label top c,
     (top = label ->
      update_metrics label top c = mk_counters (S (count c)) (S (tp c)) (fn c) (fp c)) /\
     (top <> label ->
      update_metrics label top c
      = mk_counters (S (count c)) (tp c) (S (fn c)) (S (fp c)))) /\
  exists ls : list (slice),
    map fst ls = corpus /\
    Forall (fun s => from_entry directory run_graph (fst s) (snd s)) ls /\
    Permutation (List.concat (map snd ls)) (all_predictions (final o)) /\
    label_stats (final o)
    = map (fun s => let label := label_of directory (fst s) in
                    let c := tally label (snd s) in
                    mk_stat label c (fscore_of (tp c) (fp c) (fn c))) ls.
Proof.
  intro H. split.
  - intros label top c. split.
    + intros ->. apply update_metrics_hit.
    + apply update_metrics_miss.
  - apply main_spec in H. destruct H as (ls & E & F & H).
    cbn zeta in H. destruct H as (_ & _ & _ & _ & _ & _ & Hs & Hp).
    exists ls. split; [exact E|]. split; [exact F|]. split.
    + rewrite Hp, after_labels_predictions. cbn [all_predictions globals0 app].
      apply sort_by_perm.
    + rewrite Hs, after_labels_stats. reflexivity.
Qed.

(** C2 on an image of [cat] predicted [dog]. *)
Lemma metrics_charged_to_ground_truth_witness :
  (forall label top c,
     (top = label ->
      update_metrics label top c = mk_counters (S (count c)) (S (tp c)) (fn c) (fp c)) /\
     (top <> label ->
      update_metrics label top c
      = mk_counters (S (count c)) (tp c) (S (fn c)) (S (fp c)))) /\
  exists ls : list (slice),
    map fst ls = cat_then_dog /\
    Forall (fun s => from_entry "d" predicts_dog (fst s) (snd s)) ls /\
    Permutation (List.concat (map snd ls))
      [mk_info "d/cat/a.jpg" "dog" (6 # 10) "cat" (3 # 10) (Finite 2)] /\
    map (fun s => (stat_label s, stat_counters s))
      (map (fun s => let label := label_of "d" (fst s) in
                    let c := tally label (snd s) in
                    mk_stat label c (fscore_of (tp c) (fp c) (fn c))) ls)
    = [("cat", mk_counters 1 0 1 1); ("dog", mk_counters 0 0 0 0)].
Proof.
  destruct (main "d" always predicts_dog cat_then_dog) as [o|e] eqn:M;
    [|vm_compute in M; discriminate M].
  pose proof (metrics_charged_to_ground_truth "d" always predicts_dog cat_then_dog o M)
    as [U (ls & E & F & P & S)].
  split; [exact U|]. exists ls.
  assert (O : Ok o = main "d" always predicts_dog cat_then_dog) by (symmetry; exact M).
  vm_compute in O. injection O as ->.
  split; [exact E|]. split; [exact F|]. split; [exact P|].
  rewrite <- S. reflexivity.
Defined.

(** C2 fails as stated: an image of [cat] is predicted [dog]; the false
    positive is counted for [cat] and [dog] ends with none. *)
Lemma false_positive_not_charged_to_prediction :
  exists o,
    main "d" always predicts_dog cat_then_dog = Ok o /\
    map info_top_prediction (all_predictions (final o)) = ["dog"] /\
    map (fun s => (stat_label s, fn (stat_counters s), fp (stat_counters s)))
        (label_stats (final o))
    = [("cat", 1, 1); ("dog", 0, 0)]%nat.
Proof.
  eexists. split; [vm_compute; reflexivity|]. split; reflexivity.
Qed.

(** ** What a run prints *)

Lemma print_all_stdout (A : Type) (f : A -> printed) (l : list A) : forall g,
  stdout (fold_left (fun g i => print (f i) g) l g) = stdout g ++ map f l.
Proof.
  induction l as [|x l IH]; intro g; cbn [fold_left map].
  - rewrite app_nil_r. reflexivity.
  - rewrite IH. cbn. rewrite <- app_assoc. reflexivity.
Qed.

Section OutputFacts.
Variable directory : string.
Variable random : nat -> float.
Variable run_graph : string -> predictions.

Lemma after_labels_stdout (ls : list slice) : forall g,
  stdout (after_labels directory g ls) = stdout g ++ flat_map (label_output directory) ls.
Proof.
  induction ls as [|s ls IH]; intro g; unfold after_labels; cbn [fold_left flat_map].
  - rewrite app_nil_r. reflexivity.
  - fold (after_labels directory
            (labelled g (label_of directory (fst s)) (snd s)
                      (List.length (snd (fst s)))) ls).
    rewrite IH. unfold label_output, slice_stat. cbn.
    rewrite <- !app_assoc. reflexivity.
Qed.

Lemma main_stdout (corpus : list (string * list string)) (o : outcome) :
  main directory random run_graph corpus = Ok o ->
  exists ls,
    map fst ls = corpus /\
    label_stats (final o) = map (slice_stat directory) ls /\
    all_predictions (final o) = least_confident_first (List.concat (map snd ls)) /\
    stdout (final o)
    = flat_map (label_output directory) ls
      ++ [PText "Micro-f: "; PFloat (microf o); PText "Macro-f: "; PFloat (macrof o)]
      ++ map (fun i => PText (info_image i))
             (least_confident_first (List.concat (map snd ls))).
Proof.
  unfold main. intro H.
  destruct (for_each (process_label directory random run_graph) corpus globals0)
    as [g|e] eqn:L; [|discriminate H].
  cbn [bind] in H.
  destruct (divide_by_count (microfscores g) (total_images g)) as [mi|e] eqn:D1;
    [|discriminate H].
  cbn [bind] in H.
  destruct (divide_by_count (macrofscores g) (total_labels g)) as [ma|e] eqn:D2;
    [|discriminate H].
  cbn [bind] in H. injection H as <-.
  apply process_labels_spec in L. destruct L as (ls & E & -> & F).
  exists ls. split; [exact E|]. cbn [final microf macrof].
  match goal with
  | |- context [fold_left ?f ?l ?g0] =>
      destruct (print_all_same image_info (fun i => PText (info_image i)) l g0)
        as (_ & _ & _ & _ & H5 & _ & H7)
  end.
  split; [|split].
  - rewrite H7. cbn. rewrite after_labels_stats. reflexivity.
  - rewrite H5. cbn. rewrite after_labels_predictions. reflexivity.
  - rewrite print_all_stdout. cbn.
    rewrite after_labels_stdout, after_labels_predictions. cbn.
    rewrite <- !app_assoc. reflexivity.
Qed.
End OutputFacts.

(** ** The images a run scores *)

(** A quotient beyond the float32 range: the ratio is [inf] and the second
    place is taken. *)
Lemma ratio_overflows :
  image_record tiny_second "x.jpg"
  = Ok (mk_info "x.jpg" "a" 1 "b" (1 # 713623846352979940529142984724747568191373312)
                Infinity).
Proof. vm_compute. reflexivity. Qed.

(** The float32 of 1/3 and of 16777217, which lies halfway between two
    float32 numbers. *)
Lemma round_float32_examples :
  round_float32 (1 # 3) = Finite (11184811 # 33554432) /\
  round_float32 16777217 = Finite 16777216 /\
  round_float32 16777219 = Finite 16777220.
Proof. repeat split; vm_compute; reflexivity. Qed.

Lemma total_count_slices (directory : string) (ls : list slice) :
  total_count (map (slice_stat directory) ls) = List.length (List.concat (map snd ls)).
Proof.
  induction ls as [|s ls IH]; [reflexivity|].
  cbn [map total_count fold_right List.concat]. rewrite length_app.
  fold (total_count (map (slice_stat directory) ls)). rewrite IH. reflexivity.
Qed.

Section SampleFacts.
Variable directory : string.
Variable random : nat -> float.
Variable run_graph : string -> predictions.

Lemma process_images_exact (label : string) (images : list string) :
  forall g c g' c',
  for_each (process_image random run_graph label) images (g, c) = Ok (g', c') ->
  exists infos,
    g' = scored g infos (List.length images) /\
    c' = add_counters c (tally label infos) /\
    map (image_record run_graph) (sampled random (random_calls g) images)
    = map (@Ok image_info) infos.
Proof.
  induction images as [|x images IH]; intros g c g' c' H.
  - cbn in H. injection H as <- <-. exists []. split; [|split].
    + symmetry. apply scored_nil.
    + destruct c. unfold add_counters, tally. cbn. f_equal; lia.
    + reflexivity.
  - cbn [for_each] in H. cbn [sampled].
    destruct (selected random (random_calls g)) eqn:S.
    + rewrite process_image_score in H by exact S.
      destruct (image_record run_graph (rstrip x)) as [info|e] eqn:R; [|discriminate H].
      cbn [bind] in H. apply IH in H. destruct H as (infos & -> & -> & F).
      exists (info :: infos). split; [|split].
      * rewrite scored_scored. reflexivity.
      * rewrite <- !update_metrics_fold. reflexivity.
      * cbn [map]. rewrite R. f_equal.
        cbn [random_calls scored] in F. rewrite Nat.add_1_r in F. exact F.
    + rewrite process_image_skip in H by exact S. cbn [bind] in H.
      apply IH in H. destruct H as (infos & -> & -> & F).
      exists infos. split; [|split].
      * rewrite scored_scored. reflexivity.
      * reflexivity.
      * cbn [random_calls scored] in F. rewrite Nat.add_1_r in F. exact F.
Qed.

Lemma process_label_exact (g g' : globals) (entry : string * list string) :
  process_label directory random run_graph g entry = Ok g' ->
  exists infos,
    g' = labelled g (label_of directory entry) infos (List.length (snd entry)) /\
    from_entry directory run_graph entry infos /\
    map (image_record run_graph)
        (sampled random (random_calls g) (images_of directory entry))
    = map (@Ok image_info) infos.
Proof.
  intro H. pose proof H as H'. apply process_label_spec in H'.
  destruct H' as (infos & E & F).
  unfold process_label in H.
  fold (dir_of directory entry) in H. fold (label_of directory entry) in H.
  fold (images_of directory entry) in H.
  destruct (for_each (process_image random run_graph (label_of directory entry))
              (images_of directory entry) (incr_total_labels g, counters0))
    as [[g1 c1]|e] eqn:L; [|discriminate H].
  cbn [bind] in H. injection H as <-.
  apply process_images_exact in L. destruct L as (infos' & -> & -> & X).
  exists infos'. split; [|split].
  - unfold labelled, stat_of, images_of. rewrite length_map.
    replace (add_counters counters0 (tally (label_of directory entry) infos'))
      with (tally (label_of directory entry) infos') by reflexivity.
    reflexivity.
  - assert (Ei : infos' = infos).
    { apply (f_equal all_predictions) in E. revert E.
      unfold labelled, stat_of, images_of. rewrite length_map.
      cbn [all_predictions add_fscore print scored incr_total_labels].
      apply app_inv_head. }
    rewrite Ei. exact F.
  - exact X.
Qed.

Lemma process_labels_exact (corpus : list (string * list string)) : forall g g',
  for_each (process_label directory random run_graph) corpus g = Ok g' ->
  exists ls,
    map fst ls = corpus /\ g' = after_labels directory g ls /\
    Forall (fun s => from_entry directory run_graph (fst s) (snd s)) ls /\
    map (fun s => map (@Ok image_info) (snd s)) ls
    = map (map (image_record run_graph))
          (sample_corpus directory random (random_calls g) corpus).
Proof.
  induction corpus as [|e corpus IH]; intros g g' H.
  - cbn in H. injection H as <-. exists []. repeat split. constructor.
  - cbn [for_each] in H.
    destruct (process_label directory random run_graph g e) as [g1|x] eqn:L;
      [|discriminate H].
    cbn [bind] in H. apply process_label_exact in L. destruct L as (infos & -> & F & X).
    apply IH in H. destruct H as (ls & <- & -> & Fs & Xs).
    exists ((e, infos) :: ls). split; [reflexivity|]. split; [reflexivity|].
    split; [constructor; assumption|].
    cbn [map sample_corpus fst snd]. rewrite X. f_equal.
    cbn [random_calls labelled add_fscore print scored incr_total_labels] in Xs.
    exact Xs.
Qed.

(** A run that ends, in terms of the images it scores. *)
Lemma main_exact (corpus : list (string * list string)) (o : outcome) :
  main directory random run_graph corpus = Ok o ->
  exists ls,
    map fst ls = corpus /\
    records_of_run directory random run_graph ls /\
    Forall (fun s => from_entry directory run_graph (fst s) (snd s)) ls /\
    label_stats (final o) = map (slice_stat directory) ls /\
    all_predictions (final o) = least_confident_first (List.concat (map snd ls)) /\
    stdout (final o)
    = flat_map (label_output directory) ls
      ++ [PText "Micro-f: "; PFloat (microf o); PText "Macro-f: "; PFloat (macrof o)]
      ++ map (fun i => PText (info_image i))
             (least_confident_first (List.concat (map snd ls))) /\
    total_images (final o) = total_count (map (slice_stat directory) ls) /\
    total_labels (final o) = List.length ls /\
    divide_by_count (weighted_sum (map (slice_stat directory) ls) 0)
                    (total_count (map (slice_stat directory) ls)) = Ok (microf o) /\
    divide_by_count (plain_sum (map (slice_stat directory) ls) 0) (List.length ls)
    = Ok (macrof o).
Proof.
  unfold main. intro H.
  destruct (for_each (process_label directory random run_graph) corpus globals0)
    as [g|e] eqn:L; [|discriminate H].
  cbn [bind] in H.
  destruct (divide_by_count (microfscores g) (total_images g)) as [mi|e] eqn:D1;
    [|discriminate H].
  cbn [bind] in H.
  destruct (divide_by_count (macrofscores g) (total_labels g)) as [ma|e] eqn:D2;
    [|discriminate H].
  cbn [bind] in H. injection H as <-.
  apply process_labels_exact in L. destruct L as (ls & E & -> & F & X).
  exists ls. split; [exact E|]. cbn [final microf macrof].
  match goal with
  | |- context [fold_left ?f ?l ?g0] =>
      destruct (print_all_same image_info (fun i => PText (info_image i)) l g0)
        as (_ & _ & H3 & H4 & H5 & _ & H7)
  end.
  destruct (after_labels_totals directory ls globals0) as (T1 & T2 & T3 & T4).
  cbn [total_images total_labels microfscores macrofscores globals0 Nat.add] in T1, T2, T3, T4.
  split; [|split; [exact F|split; [|split; [|split; [|split; [|split; [|split]]]]]]].
  - unfold records_of_run. rewrite E. exact X.
  - rewrite H7. cbn. rewrite after_labels_stats. reflexivity.
  - rewrite H5. cbn. rewrite after_labels_predictions. reflexivity.
  - rewrite print_all_stdout. cbn.
    rewrite after_labels_stdout, after_labels_predictions. cbn.
    rewrite <- !app_assoc. reflexivity.
  - rewrite H3. cbn. exact T2.
  - rewrite H4. cbn. exact T1.
  - rewrite T3, T2 in D1. exact D1.
  - rewrite T4, T1 in D2. exact D2.
Qed.

(** The records of a run are those of the images it scores, in the order
    read. *)
Lemma records_processed (ls : list slice) :
  records_of_run directory random run_graph ls ->
  map (image_record run_graph) (processed directory random (map fst ls))
  = map (@Ok image_info) (List.concat (map snd ls)).
Proof.
  unfold records_of_run, processed. intro H.
  rewrite !concat_map, <- H, map_map. reflexivity.
Qed.

Lemma image_record_name (image : string) (i : image_info) :
  image_record run_graph image = Ok i -> info_image i = image.
Proof.
  unfold image_record.
  destruct (confidence_ratio (top_two (get_image_prediction run_graph image)));
    [|discriminate].
  cbn [bind]. intro H. injection H as <-. reflexivity.
Qed.

Lemma records_names (names : list string) : forall records,
  map (image_record run_graph) names = map (@Ok image_info) records ->
  map info_image records = names.
Proof.
  induction names as [|x names IH]; intros [|i records] H; try discriminate H.
  - reflexivity.
  - cbn [map] in H. injection H as H1 H2. cbn [map].
    rewrite (image_record_name _ _ H1), (IH _ H2). reflexivity.
Qed.
End SampleFacts.

(** C5.  The F-score printed for a label is 2 p r / (p + r), with p = tp / (tp + fp)
    and r = tp / (tp + fn), when the label has a true positive, and 0.0
    when it has none, whatever fp and fn are; tp = 3, fp = 1, fn = 1 give
    0.75. *)
Theorem fscore_reported (directory : string) (random : nat -> float)
  (run_graph : string -> predictions) (corpus : list (string * list string))
  (o : outcome) :
  main directory random run_graph corpus = Ok o ->
  Forall (fun s =>
            let c := stat_counters s in
            In (PFloat (stat_fscore s)) (stdout (final o)) /\
            ((0 < tp c)%nat ->
             stat_fscore s
             = ((2 * precision_of (tp c) (fp c) * recall_of (tp c) (fn c))
                / (precision_of (tp c) (fp c) + recall_of (tp c) (fn c)))%float) /\
            (tp c = 0%nat -> stat_fscore s = 0%float))
         (label_stats (final o)) /\
  (forall fp fn, fscore_of 0 fp fn = 0%float) /\
  fscore_of 3 1 1 = 0.75%float /\
  precision_of 3 1 = 0.75%float /\ recall_of 3 1 = 0.75%float.
Proof.
  intro H. split; [|repeat split].
  apply main_stdout in H. destruct H as (ls & _ & Hs & _ & Ho).
  rewrite Hs, Ho. apply Forall_forall. intros s Hin.
  apply in_map_iff in Hin. destruct Hin as (sl & <- & Hin).
  cbn zeta. split; [|split].
  - apply in_or_app. left. apply in_flat_map. exists sl. split; [exact Hin|].
    unfold label_output. apply in_or_app. right. right. left. reflexivity.
  - intro P. unfold slice_stat, stat_of in *. cbn [stat_fscore stat_counters] in *.
    unfold fscore_of. destruct (Nat.eqb_spec (tp (tally (label_of directory (fst sl)) (snd sl))) 0) as [E|_].
    + rewrite E in P. inversion P.
    + reflexivity.
  - intro Z. unfold slice_stat, stat_of in *. cbn [stat_fscore stat_counters] in *.
    unfold fscore_of. rewrite Z. reflexivity.
Qed.

(** C5 on four images of which three are predicted right. *)
Lemma fscore_reported_witness :
  exists o,
    main "d" always cat_or_dog four_cats = Ok o /\
    map stat_counters (label_stats (final o)) = [mk_counters 4 3 1 1] /\
    map stat_fscore (label_stats (final o)) = [0.75%float] /\
    Forall (fun s =>
            let c := stat_counters s in
            In (PFloat (stat_fscore s)) (stdout (final o)) /\
            ((0 < tp c)%nat ->
             stat_fscore s
             = ((2 * precision_of (tp c) (fp c) * recall_of (tp c) (fn c))
                / (precision_of (tp c) (fp c) + recall_of (tp c) (fn c)))%float) /\
            (tp c = 0%nat -> stat_fscore s = 0%float))
         (label_stats (final o)).
Proof.
  eexists. split; [vm_compute; reflexivity|].
  split; [reflexivity|]. split; [reflexivity|].
  refine (proj1 (fscore_reported "d" always cat_or_dog four_cats _ _)).
  vm_compute. reflexivity.
Defined.

(** C4.  The run keeps, for each label directory in turn, the label, the
    number of its scored images and its F-score.  Micro-f is the sum of
    F-score times count over the labels, added up in that order from 0.0,
    divided by the number of scored images, which is the sum of the counts;
    macro-f is the sum of the F-scores divided by the number of label
    directories.  Accumulating F-scores 0.8 over 8 images and 0.5 over 2
    images gives 0.74 and 0.65. *)
Theorem micro_macro_f (directory : string) (random : nat -> float)
  (run_graph : string -> predictions) (corpus : list (string * list string))
  (o : outcome) :
  main directory random run_graph corpus = Ok o ->
  (exists ls : list slice,
     map fst ls = corpus /\
     records_of_run directory random run_graph ls /\
     let stats :=
       map (fun s => let label := label_of directory (fst s) in
                     let c := tally label (snd s) in
                     mk_stat label c (fscore_of (tp c) (fp c) (fn c))) ls in
     label_stats (final o) = stats /\
     map (fun s => count (stat_counters s)) stats
     = map (@List.length string) (sample_corpus directory random 0 corpus) /\
     total_count stats = List.length (processed directory random corpus) /\
     total_images (final o) = total_count stats /\
     total_labels (final o) = List.length corpus /\
     microf o = (weighted_sum stats 0 / float_of_nat (total_count stats))%float /\
     macrof o = (plain_sum stats 0 / float_of_nat (List.length corpus))%float) /\
  (let g := add_fscore "b" (mk_counters 2 1 1 1) 0.5
              (add_fscore "a" (mk_counters 8 7 1 1) 0.8 globals0) in
   divide_by_count (microfscores g) (8 + 2) = Ok 0.74%float /\
   divide_by_count (macrofscores g) 2 = Ok 0.65%float).
Proof.
  intro H. split; [|split; reflexivity].
  apply main_exact in H.
  destruct H as (ls & E & X & _ & Hs & _ & _ & Hi & Hl & D1 & D2).
  exists ls. split; [exact E|]. split; [exact X|]. cbn zeta.
  change (map (fun s => let label := label_of directory (fst s) in
                        let c := tally label (snd s) in
                        mk_stat label c (fscore_of (tp c) (fp c) (fn c))) ls)
    with (map (slice_stat directory) ls).
  assert (Len : map (fun s : slice => List.length (snd s)) ls
                = map (@List.length string) (sample_corpus directory random 0 corpus)).
  { unfold records_of_run in X. rewrite E in X.
    apply (f_equal (map (@List.length (result image_info)))) in X.
    rewrite !map_map in X.
    etransitivity; [|etransitivity; [exact X|]]; apply map_ext; intro x;
      rewrite length_map; reflexivity. }
  assert (Tot : total_count (map (slice_stat directory) ls)
                = List.length (processed directory random corpus)).
  { rewrite total_count_slices. unfold processed.
    rewrite !length_concat, map_map. f_equal. exact Len. }
  assert (LenC : List.length ls = List.length corpus)
    by (rewrite <- E; symmetry; apply length_map).
  split; [exact Hs|]. split; [rewrite map_map; exact Len|]. split; [exact Tot|].
  split; [exact Hi|]. split; [rewrite Hl; exact LenC|].
  unfold divide_by_count in D1, D2. rewrite LenC in D2. revert D1 D2.
  match goal with
  | |- (if ?b then _ else _) = _ -> _ =>
      destruct b; [intro D1; discriminate D1|intro D1]
  end.
  match goal with
  | |- (if ?b then _ else _) = _ -> _ =>
      destruct b; [intro D2; discriminate D2|intro D2]
  end.
  injection D1 as <-. injection D2 as <-. split; reflexivity.
Qed.

(** C4 on a run of four images of [cat], three of them predicted right, and
    one image of [dog], predicted right: the F-scores are 0.75 and 1.0,
    micro-f is (0.75 * 4 + 1.0 * 1) / 5 = 0.8 and macro-f is
    (0.75 + 1.0) / 2 = 0.875. *)
Lemma micro_macro_f_witness :
  exists o,
    main "d" always cat_or_dog cats_and_dog = Ok o /\
    map (fun s => (stat_label s, count (stat_counters s), stat_fscore s))
        (label_stats (final o))
    = [("cat", 4%nat, 0.75%float); ("dog", 1%nat, 1%float)] /\
    microf o = 0.8%float /\ macrof o = 0.875%float /\
    (exists ls : list slice,
       map fst ls = cats_and_dog /\
       records_of_run "d" always cat_or_dog ls /\
       let stats :=
         map (fun s => let label := label_of "d" (fst s) in
                       let c := tally label (snd s) in
                       mk_stat label c (fscore_of (tp c) (fp c) (fn c))) ls in
       label_stats (final o) = stats /\
       map (fun s => count (stat_counters s)) stats
       = map (@List.length string) (sample_corpus "d" always 0 cats_and_dog) /\
       total_count stats = List.length (processed "d" always cats_and_dog) /\
       total_images (final o) = total_count stats /\
       total_labels (final o) = List.length cats_and_dog /\
       microf o = (weighted_sum stats 0 / float_of_nat (total_count stats))%float /\
       macrof o = (plain_sum stats 0 / float_of_nat (List.length cats_and_dog))%float) /\
    (let g := add_fscore "b" (mk_counters 2 1 1 1) 0.5
                (add_fscore "a" (mk_counters 8 7 1 1) 0.8 globals0) in
     divide_by_count (microfscores g) (8 + 2) = Ok 0.74%float /\
     divide_by_count (macrofscores g) 2 = Ok 0.65%float).
Proof.
  eexists. split; [vm_compute; reflexivity|].
  split; [reflexivity|]. split; [reflexivity|]. split; [reflexivity|].
  refine (micro_macro_f "d" always cat_or_dog cats_and_dog _ _).
  vm_compute. reflexivity.
Defined.

(** ** Images without two predictions *)

Lemma for_each_app (A S : Type) (body : S -> A -> result S) (l1 l2 : list A) :
  forall s, for_each body (l1 ++ l2) s = (s' <- for_each body l1 s ;; for_each body l2 s').
Proof.
  induction l1 as [|a l1 IH]; intro s; [reflexivity|].
  cbn [for_each app]. destruct (body s a) as [s1|e]; [|reflexivity].
  cbn [bind]. apply IH.
Qed.

Lemma image_record_empty (run_graph : string -> predictions) (image : string) :
  get_image_prediction run_graph image = [] ->
  image_record run_graph image = Raise ZeroDivisionError.
Proof. unfold image_record. intros ->. reflexivity. Qed.

Lemma not_jpeg_no_prediction (run_graph : string -> predictions) (image : string) :
  endswith image ".jpg" = false -> endswith image ".jpeg" = false ->
  get_image_prediction run_graph image = [].
Proof. unfold get_image_prediction. intros -> ->. reflexivity. Qed.

(** C7, what the code does.  A scored file whose name ends neither in [.jpg]
    nor in [.jpeg] gets the empty prediction of line 126, the ratio of line
    214 is 0.0 / 0.0, and the loop over the images raises
    [ZeroDivisionError]: the item is not skipped, the run ends. *)
Theorem non_jpeg_image_raises (random : nat -> float) (run_graph : string -> predictions)
  (label : string) (pre post : list string) (image : string) (g : globals) (c : counters) :
  selected random (random_calls g + List.length pre) = true ->
  endswith (rstrip image) ".jpg" = false ->
  endswith (rstrip image) ".jpeg" = false ->
  for_each (process_image random run_graph label) (pre ++ image :: post) (g, c)
  = Raise ZeroDivisionError.
Proof.
  intros S J1 J2. rewrite for_each_app.
  destruct (for_each (process_image random run_graph label) pre (g, c))
    as [[g1 c1]|e] eqn:P; [|destruct e; reflexivity].
  cbn [bind for_each]. apply process_images_spec in P.
  destruct P as (infos & -> & _ & _).
  rewrite process_image_score by exact S.
  rewrite image_record_empty by (apply not_jpeg_no_prediction; assumption).
  reflexivity.
Qed.

(** C7 on a directory with a text file between two images. *)
Lemma non_jpeg_image_raises_witness :
  for_each (process_image always cat_or_dog "cat")
           (["d/cat/1cat.jpg"] ++ "d/cat/notes.txt" :: ["d/cat/2cat.jpg"])
           (globals0, counters0)
  = Raise ZeroDivisionError.
Proof.
  apply (non_jpeg_image_raises always cat_or_dog "cat" ["d/cat/1cat.jpg"]
           ["d/cat/2cat.jpg"] "d/cat/notes.txt" globals0 counters0);
    vm_compute; reflexivity.
Defined.

(** The run over a directory with a text file raises; without the file it
    ends. *)
Lemma main_aborts_on_text_file :
  main "d" always cat_or_dog [("cat", ["1cat.jpg"; "notes.txt"; "2cat.jpg"])]
  = Raise ZeroDivisionError /\
  exists o, main "d" always cat_or_dog [("cat", ["1cat.jpg"; "2cat.jpg"])] = Ok o.
Proof.
  split; [vm_compute; reflexivity|]. eexists. vm_compute. reflexivity.
Qed.

Lemma top_two_short (ps : predictions) :
  (List.length ps < 2)%nat ->
  second_prediction (top_two ps) = "" /\ second_confidence (top_two ps) = 0%Q.
Proof.
  intro H. destruct ps as [|p ps]; [split; reflexivity|].
  destruct ps as [|p' ps]; [|cbn in H; lia].
  unfold top_two. cbn [fold_left]. unfold top2_step.
  cbn [top_confidence second_confidence top2_init].
  destruct (Qgtb (snd p) 0); split; reflexivity.
Qed.

Lemma ratio_not_finite (t : top2) (q : Q) :
  second_confidence t = 0%Q -> confidence_ratio t <> Ok (Finite q).
Proof.
  unfold confidence_ratio. intros ->. cbn.
  destruct (Qeq_bool (top_confidence t) 0); discriminate.
Qed.

(** C6, as the code has it.  A scored image with one predicted label of
    positive score gets its record: that label and score on top, the second
    place empty and zero, the ratio infinite.  With fewer than two labels the
    second place is always empty and zero and the ratio is never a finite
    number. *)
Theorem single_label_record (random : nat -> float) (run_graph : string -> predictions)
  (label image l : string) (q : Q) (g : globals) (c : counters) :
  selected random (random_calls g) = true ->
  get_image_prediction run_graph (rstrip image) = [(l, q)] ->
  (0 < q)%Q ->
  process_image random run_graph label (g, c) image
  = Ok (scored g [mk_info (rstrip image) l q "" 0 Infinity] 1,
        update_metrics label l c) /\
  (forall ps : predictions,
     (List.length ps < 2)%nat ->
     second_prediction (top_two ps) = "" /\
     second_confidence (top_two ps) = 0%Q /\
     forall r, confidence_ratio (top_two ps) <> Ok (Finite r)).
Proof.
  intros S P Q. split.
  - rewrite process_image_score by exact S.
    unfold image_record. rewrite P.
    unfold top_two. cbn [fold_left]. unfold top2_step.
    cbn [fst snd top_confidence second_confidence top2_init top_prediction
         second_prediction].
    assert (G : Qgtb q 0 = true) by (apply Qgtb_true; exact Q).
    rewrite G. cbn [second_prediction second_confidence].
    replace (Qgtb 0 0) with false by reflexivity.
    unfold confidence_ratio. cbn [second_confidence top_confidence].
    replace (Qeq_bool 0 0) with true by reflexivity.
    destruct (Qeq_bool q 0) eqn:Z.
    + apply Qeq_bool_iff in Z. lra.
    + reflexivity.
  - intros ps L. destruct (top_two_short ps L) as [H1 H2].
    split; [exact H1|]. split; [exact H2|].
    intro r. apply ratio_not_finite, H2.
Qed.

(** C6 on an image with the one label [cat]. *)
Lemma single_label_record_witness :
  process_image always one_label "cat" (globals0, counters0) "d/cat/x.jpg"
  = Ok (scored globals0 [mk_info (rstrip "d/cat/x.jpg") "cat" (7 # 10) "" 0 Infinity] 1,
        update_metrics "cat" "cat" counters0) /\
  (forall ps : predictions,
     (List.length ps < 2)%nat ->
     second_prediction (top_two ps) = "" /\
     second_confidence (top_two ps) = 0%Q /\
     forall r, confidence_ratio (top_two ps) <> Ok (Finite r)).
Proof.
  apply (single_label_record always one_label "cat" "d/cat/x.jpg" "cat" (7 # 10)
           globals0 counters0).
  - vm_compute. reflexivity.
  - vm_compute. reflexivity.
  - reflexivity.
Defined.

(** C6 fails as stated: with no predicted label the image step raises
    [ZeroDivisionError] and the run ends with it, no record made; with one
    label the step returns, the ratio divided out, and prints the record
    only. *)
Lemma no_record_without_predictions :
  (List.length (no_labels "d/cat/x.jpg") < 2)%nat /\
  process_image always no_labels "cat" (globals0, counters0) "d/cat/x.jpg"
  = Raise ZeroDivisionError /\
  main "d" always no_labels [("cat", ["x.jpg"])] = Raise ZeroDivisionError /\
  exists g c,
    process_image always one_label "cat" (globals0, counters0) "d/cat/x.jpg" = Ok (g, c) /\
    map info_ratio (all_predictions g) = [Infinity] /\
    List.length (stdout g) = 1%nat.
Proof.
  split; [cbn; lia|]. split; [vm_compute; reflexivity|].
  split; [vm_compute; reflexivity|].
  eexists. eexists. split; [vm_compute; reflexivity|]. split; reflexivity.
Qed.

(** ** Runs on equal inputs *)

Section Reproducible.
Variable directory : string.
Variables random random' : nat -> float.
Variables run_graph run_graph' : string -> predictions.

Lemma image_record_ext (image : string) :
  run_graph image = run_graph' image ->
  image_record run_graph image = image_record run_graph' image.
Proof.
  intro H. unfold image_record, get_image_prediction. rewrite H. reflexivity.
Qed.

Lemma process_image_ext (label image : string) (g : globals) (c : counters) :
  random (random_calls g) = random' (random_calls g) ->
  run_graph (rstrip image) = run_graph' (rstrip image) ->
  process_image random run_graph label (g, c) image
  = process_image random' run_graph' label (g, c) image.
Proof.
  intros R G. unfold process_image. rewrite R, (image_record_ext _ G). reflexivity.
Qed.

Lemma process_image_calls (label image : string) (g g1 : globals) (c c1 : counters) :
  process_image random run_graph label (g, c) image = Ok (g1, c1) ->
  random_calls g1 = S (random_calls g).
Proof.
  destruct (selected random (random_calls g)) eqn:S; intro H.
  - rewrite process_image_score in H by exact S.
    destruct (image_record run_graph (rstrip image)); [|discriminate H].
    cbn [bind] in H. injection H as <- _. cbn. lia.
  - rewrite process_image_skip in H by exact S. injection H as <- _. cbn. lia.
Qed.

Lemma process_images_ext (label : string) (images : list string) : forall g c,
  (forall k, (k < List.length images)%nat ->
             random (random_calls g + k)%nat = random' (random_calls g + k)%nat) ->
  (forall x, In x images -> run_graph (rstrip x) = run_graph' (rstrip x)) ->
  for_each (process_image random run_graph label) images (g, c)
  = for_each (process_image random' run_graph' label) images (g, c).
Proof.
  induction images as [|x images IH]; intros g c R G; [reflexivity|].
  cbn [for_each].
  rewrite <- (process_image_ext label x g c).
  - destruct (process_image random run_graph label (g, c) x) as [[g1 c1]|e] eqn:P;
      [|reflexivity].
    cbn [bind]. apply process_image_calls in P. apply IH.
    + intros k Hk. rewrite P. 
      replace (S (random_calls g) + k)%nat with (random_calls g + S k)%nat by lia.
      apply R. cbn. lia.
    + intros y Hy. apply G. right. exact Hy.
  - specialize (R 0%nat). rewrite Nat.add_0_r in R. apply R. cbn. lia.
  - apply G. left. reflexivity.
Qed.

Lemma process_label_ext (g : globals) (entry : string * list string) :
  (forall k, (k < List.length (snd entry))%nat ->
             random (random_calls g + k)%nat = random' (random_calls g + k)%nat) ->
  (forall x, In x (images_of directory entry) ->
             run_graph (rstrip x) = run_graph' (rstrip x)) ->
  process_label directory random run_graph g entry
  = process_label directory random' run_graph' g entry.
Proof.
  intros R G. unfold process_label.
  fold (dir_of directory entry). fold (label_of directory entry).
  fold (images_of directory entry).
  rewrite (process_images_ext (label_of directory entry) (images_of directory entry)).
  - reflexivity.
  - unfold images_of. rewrite length_map. exact R.
  - exact G.
Qed.

Lemma process_labels_ext (corpus : list (string * list string)) : forall g,
  (forall k, (k < files_count corpus)%nat ->
             random (random_calls g + k)%nat = random' (random_calls g + k)%nat) ->
  (forall e x, In e corpus -> In x (images_of directory e) ->
               run_graph (rstrip x) = run_graph' (rstrip x)) ->
  for_each (process_label directory random run_graph) corpus g
  = for_each (process_label directory random' run_graph') corpus g.
Proof.
  induction corpus as [|e corpus IH]; intros g R G; [reflexivity|].
  cbn [for_each]. cbn [files_count fold_right] in R. fold (files_count corpus) in R.
  rewrite <- (process_label_ext g e).
  - destruct (process_label directory random run_graph g e) as [g1|x] eqn:P;
      [|reflexivity].
    cbn [bind]. apply process_label_spec in P. destruct P as (infos & -> & _).
    apply IH.
    + intros k Hk. cbn [random_calls labelled add_fscore print scored incr_total_labels].
      rewrite <- Nat.add_assoc. apply R. lia.
    + intros e' x' He Hx. apply (G e' x'); [right; exact He|exact Hx].
  - intros k Hk. apply R. lia.
  - intros x Hx. apply (G e x); [left; reflexivity|exact Hx].
Qed.
End Reproducible.

(** C3, as the code has it.  Two runs over the same directories whose random
    draws and classifier answers agree on the files read give the same
    result.  The records of a run are those of the images it scores, in the
    order read; the run prints the images in the order of [all_predictions],
    which is these records sorted by top confidence, the records of equal
    confidence in the order read. *)
Theorem run_reproducible (directory : string) (random random' : nat -> float)
  (run_graph run_graph' : string -> predictions) (corpus : list (string * list string)) :
  (forall k, (k < files_count corpus)%nat -> random k = random' k) ->
  (forall e x, In e corpus -> In x (images_of directory e) ->
               run_graph (rstrip x) = run_graph' (rstrip x)) ->
  main directory random run_graph corpus = main directory random' run_graph' corpus /\
  forall o,
    main directory random run_graph corpus = Ok o ->
    exists (records : list image_info) (before : list printed),
      map (image_record run_graph) (processed directory random corpus)
      = map (@Ok image_info) records /\
      map info_image records = processed directory random corpus /\
      all_predictions (final o) = least_confident_first records /\
      stdout (final o)
      = before ++ map (fun i => PText (info_image i)) (all_predictions (final o)) /\
      Permutation records (all_predictions (final o)) /\
      StronglySorted (key_le info_top_confidence) (all_predictions (final o)) /\
      forall q, filter (has_key info_top_confidence q) (all_predictions (final o))
                = filter (has_key info_top_confidence q) records.
Proof.
  intros R G. split.
  - unfold main.
    rewrite (process_labels_ext directory random random' run_graph run_graph'
               corpus globals0); [reflexivity| |exact G].
    intros k Hk. cbn. apply R, Hk.
  - intros o H. apply main_exact in H.
    destruct H as (ls & E & X & _ & _ & Hp & Ho & _).
    apply records_processed in X. rewrite E in X.
    exists (List.concat (map snd ls)). eexists.
    split; [exact X|]. split; [apply (records_names run_graph), X|].
    split; [exact Hp|]. split.
    { rewrite Ho, app_assoc, Hp. reflexivity. }
    rewrite Hp. unfold least_confident_first. split; [apply sort_by_perm|].
    split; [apply sort_by_sorted|]. intro q. apply sort_by_stable.
Qed.

(** C3 on three images with the same scores, of which the first and the last
    are scored, with draws that differ after the three that are used: the
    two images come out in the order read. *)
Lemma run_reproducible_witness :
  main "d" skip_second always_a three_images
  = main "d" (fun k => if (k <? 3)%nat then skip_second k else 0.01%float)
         always_a_on_jpg three_images /\
  forall o,
    main "d" skip_second always_a three_images = Ok o ->
    exists (records : list image_info) (before : list printed),
      map (image_record always_a) ["d/cat/a.jpg"; "d/cat/c.jpg"]
      = map (@Ok image_info) records /\
      map info_image records = ["d/cat/a.jpg"; "d/cat/c.jpg"] /\
      all_predictions (final o) = least_confident_first records /\
      stdout (final o)
      = before ++ map (fun i => PText (info_image i)) (all_predictions (final o)) /\
      Permutation records (all_predictions (final o)) /\
      StronglySorted (key_le info_top_confidence) (all_predictions (final o)) /\
      forall q, filter (has_key info_top_confidence q) (all_predictions (final o))
                = filter (has_key info_top_confidence q) records.
Proof.
  apply (run_reproducible "d" skip_second
           (fun k => if (k <? 3)%nat then skip_second k else 0.01%float)
           always_a always_a_on_jpg three_images).
  - intros k Hk. cbn in Hk.
    destruct k as [|[|[|k]]]; [reflexivity|reflexivity|reflexivity|lia].
  - intros e x [<-|[]] Hx. cbn in Hx.
    destruct Hx as [<-|[<-|[<-|[]]]]; vm_compute; reflexivity.
Defined.

(** C3 fails as stated: the same images and classifier answers with two
    outcomes of [random.random] give two outputs. *)
Lemma sampling_changes_output :
  exists o1 o2,
    main "d" first_only always_a two_images = Ok o1 /\
    main "d" second_only always_a two_images = Ok o2 /\
    map info_image (all_predictions (final o1)) = ["d/cat/a.jpg"] /\
    map info_image (all_predictions (final o2)) = ["d/cat/b.jpg"] /\
    stdout (final o1) <> stdout (final o2).
Proof.
  eexists. eexists. split; [vm_compute; reflexivity|].
  split; [vm_compute; reflexivity|]. split; [reflexivity|]. split; [reflexivity|].
  cbn. intro H. discriminate H.
Qed.

(** ** Stratification by label *)

Lemma first_seen_In (keys : list string) (k : string) :
  In k (first_seen keys) <-> In k keys.
Proof.
  induction keys as [|a keys IH]; [reflexivity|]. cbn [first_seen In].
  rewrite filter_In, IH. destruct (String.eqb_spec k a) as [->|N]; cbn.
  - split; [intros [H|[H _]]|]; auto.
  - split; [intros [H|[H _]]|intros [H|H]]; auto.
Qed.

Lemma first_seen_NoDup (keys : list string) : NoDup (first_seen keys).
Proof.
  induction keys as [|a keys IH]; cbn [first_seen]; constructor.
  - rewrite filter_In. intros [_ H]. rewrite String.eqb_refl in H. discriminate H.
  - apply NoDup_filter, IH.
Qed.

Lemma filter_all (A : Type) (f : A -> bool) (l : list A) :
  (forall x, In x l -> f x = true) -> filter f l = l.
Proof.
  induction l as [|a l IH]; intro H; [reflexivity|]. cbn [filter].
  rewrite (H a (or_introl eq_refl)). f_equal. apply IH. intros x Hx. apply H. right. exact Hx.
Qed.

Lemma first_seen_snoc (keys : list string) (k : string) :
  first_seen (keys ++ [k])
  = first_seen keys ++ (if existsb (String.eqb k) (first_seen keys) then [] else [k]).
Proof.
  induction keys as [|a keys IH]; [reflexivity|].
  cbn [app first_seen existsb]. rewrite IH, filter_app.
  destruct (String.eqb_spec k a) as [->|N]; cbn [orb].
  - rewrite app_nil_r. f_equal.
    destruct (existsb (String.eqb a) (first_seen keys)); [apply app_nil_r|].
    cbn. rewrite String.eqb_refl. cbn. apply app_nil_r.
  - f_equal.
    assert (E : existsb (String.eqb k)
                  (filter (fun k' => negb (String.eqb k' a)) (first_seen keys))
                = existsb (String.eqb k) (first_seen keys)).
    { destruct (existsb (String.eqb k) (first_seen keys)) eqn:X.
      - apply existsb_exists in X. destruct X as (y & Hy & Ey).
        apply String.eqb_eq in Ey. subst y. apply existsb_exists. exists k.
        split; [|apply String.eqb_refl]. apply filter_In. split; [exact Hy|].
        apply negb_true_iff, String.eqb_neq, N.
      - destruct (existsb (String.eqb k) (filter _ (first_seen keys))) eqn:Y;
          [|reflexivity].
        apply existsb_exists in Y. destruct Y as (y & Hy & Ey).
        apply filter_In in Hy. 
        assert (existsb (String.eqb k) (first_seen keys) = true)
          by (apply existsb_exists; exists y; tauto).
        congruence. }
    rewrite E. destruct (existsb (String.eqb k) (first_seen keys)); [reflexivity|].
    cbn. apply String.eqb_neq in N. rewrite N. reflexivity.
Qed.

Section StratifyFacts.
Context {A B : Type}.
Variable key : A -> string.
Variable payload : A -> B.

Lemma enqueue_map (f : string -> list B) (k : string) (v : B) (ks : list string) :
  NoDup ks ->
  enqueue k v (map (fun k' => (k', f k')) ks)
  = map (fun k' => (k', f k' ++ (if String.eqb k' k then [v] else []))) ks
    ++ (if existsb (String.eqb k) ks then [] else [(k, [v])]).
Proof.
  induction ks as [|a ks IH]; intro N; [reflexivity|].
  inversion N as [|? ? Ha N']; subst. cbn [map enqueue existsb].
  rewrite (String.eqb_sym k a).
  destruct (String.eqb_spec a k) as [->|Nk]; cbn [orb].
  - rewrite app_nil_r. f_equal. apply map_ext_in. intros k' Hk'.
    destruct (String.eqb_spec k' k) as [->|_]; [contradiction|].
    rewrite app_nil_r. reflexivity.
  - rewrite app_nil_r. cbn [app]. f_equal. apply IH, N'.
Qed.

Lemma bucket_snoc (l : list A) (x : A) (k : string) :
  bucket key payload (l ++ [x]) k
  = bucket key payload l k ++ (if String.eqb k (key x) then [payload x] else []).
Proof.
  unfold bucket. rewrite filter_app, map_app. cbn [filter].
  rewrite (String.eqb_sym k). destruct (String.eqb (key x) k); reflexivity.
Qed.

Lemma bucket_absent (l : list A) (k : string) :
  ~ In k (map key l) -> bucket key payload l k = [].
Proof.
  intro H. unfold bucket. induction l as [|a l IH]; [reflexivity|].
  cbn [filter]. destruct (String.eqb_spec (key a) k) as [E|_].
  - exfalso. apply H. left. exact E.
  - apply IH. intro I. apply H. right. exact I.
Qed.

Lemma build_queues_partition (l : list A) :
  build_queues key payload l = partition_by_key key payload l.
Proof.
  induction l as [|x l IH] using rev_ind; [reflexivity|].
  unfold build_queues in *. rewrite fold_left_app. cbn [fold_left]. rewrite IH.
  unfold partition_by_key. rewrite enqueue_map by apply first_seen_NoDup.
  rewrite map_app. cbn [map]. rewrite first_seen_snoc, map_app. f_equal.
  - apply map_ext. intro k. rewrite bucket_snoc. reflexivity.
  - destruct (existsb (String.eqb (key x)) (first_seen (map key l))) eqn:E;
      [reflexivity|].
    cbn [map]. rewrite bucket_snoc, String.eqb_refl, bucket_absent; [reflexivity|].
    intro I. apply first_seen_In in I.
    assert (existsb (String.eqb (key x)) (first_seen (map key l)) = true).
    { apply existsb_exists. exists (key x). split; [exact I|apply String.eqb_refl]. }
    congruence.
Qed.
End StratifyFacts.

Section RoundFacts.
Context {B : Type}.

Lemma take_round_spec (d : list (string * list B)) : take_round d = (heads d, tails d).
Proof.
  induction d as [|[k q] d IH]; [reflexivity|].
  cbn [take_round]. rewrite IH. destruct q; reflexivity.
Qed.

Lemma items_round (d : list (string * list B)) :
  Permutation (items d) (heads d ++ items (tails d)).
Proof.
  induction d as [|[k q] d IH]; [constructor|].
  unfold items, heads, tails in *. cbn [map List.concat flat_map fst snd].
  destruct q as [|x q]; cbn [tl app].
  - exact IH.
  - constructor. rewrite IH. rewrite !app_assoc.
    apply Permutation_app_tail. apply Permutation_app_comm.
Qed.

Lemma heads_nil (d : list (string * list B)) : heads d = [] -> items d = [].
Proof.
  induction d as [|[k q] d IH]; [reflexivity|].
  unfold heads, items in *. cbn [flat_map map List.concat fst snd].
  destruct q as [|x q]; cbn [app]; [exact IH|discriminate].
Qed.

Lemma enqueue_items (k : string) (v : B) (d : list (string * list B)) :
  Permutation (items (enqueue k v d)) (items d ++ [v]).
Proof.
  induction d as [|[k' q] d IH]; [reflexivity|].
  cbn [enqueue]. destruct (String.eqb k' k); unfold items in *;
    cbn [map List.concat snd].
  - rewrite <- !app_assoc. apply Permutation_app_head. apply Permutation_app_comm.
  - rewrite <- app_assoc. apply Permutation_app_head, IH.
Qed.

Lemma heads_round (d : list (string * list B)) : heads d = nth_round d 0.
Proof.
  unfold heads, nth_round. apply flat_map_ext. intros [k [|x q]]; reflexivity.
Qed.

Lemma tails_round (d : list (string * list B)) (r : nat) :
  nth_round (tails d) r = nth_round d (S r).
Proof.
  unfold tails, nth_round. induction d as [|[k q] d IH]; [reflexivity|].
  cbn [map flat_map fst snd]. rewrite IH. f_equal.
  destruct q as [|x q]; [destruct r|]; reflexivity.
Qed.

Lemma nth_round_nil (d : list (string * list B)) (r : nat) :
  items d = [] -> nth_round d r = [].
Proof.
  unfold items, nth_round. induction d as [|[k q] d IH]; [reflexivity|].
  cbn [map List.concat flat_map snd]. intro H. apply app_eq_nil in H.
  destruct H as [-> H]. rewrite (IH H). destruct r; reflexivity.
Qed.

(** The loop prints round 0, round 1 and so on. *)
Lemma interleave_rounds (fuel : nat) : forall (d : list (string * list B)) out n,
  interleave fuel d = Some out ->
  (forall e, In e d -> (List.length (snd e) <= n)%nat) ->
  out = flat_map (nth_round d) (seq 0 n).
Proof.
  induction fuel as [|fuel IH]; intros d out n H Hn; [discriminate H|].
  cbn [interleave] in H. rewrite take_round_spec in H.
  destruct (heads d) as [|h o] eqn:E.
  - injection H as <-. pose proof (heads_nil d E) as Z. symmetry.
    clear - Z. induction (seq 0 n) as [|r l IH]; [reflexivity|].
    cbn [flat_map]. rewrite (nth_round_nil d r Z), IH. reflexivity.
  - destruct (interleave fuel (tails d)) as [out'|] eqn:I; [|discriminate H].
    cbn [option_map] in H. injection H as <-.
    destruct n as [|n].
    + exfalso. assert (Z : items d = []).
      { unfold items. clear - Hn. induction d as [|e d IH]; [reflexivity|].
        cbn [map List.concat]. rewrite IH by (intros e' He'; apply Hn; right; exact He').
        specialize (Hn e (or_introl eq_refl)).
        destruct (snd e); [reflexivity|cbn in Hn; lia]. }
      pose proof (nth_round_nil d 0 Z) as R. rewrite <- heads_round, E in R.
      discriminate R.
    + assert (T : out' = flat_map (nth_round d) (seq 1 n)).
      { rewrite (IH (tails d) out' n I).
        - rewrite <- seq_shift. generalize (seq 0 n). intro l.
          induction l as [|r l IHl]; [reflexivity|].
          cbn [map flat_map]. rewrite tails_round, IHl. reflexivity.
        - intros e He. unfold tails in He. apply in_map_iff in He.
          destruct He as (e' & <- & He'). cbn [snd]. specialize (Hn e' He').
          destruct (snd e'); cbn in *; lia. }
      cbn [seq flat_map]. rewrite <- heads_round, E, T. reflexivity.
Qed.

Lemma interleave_items (fuel : nat) : forall d : list (string * list B),
  (List.length (items d) < fuel)%nat ->
  exists out, interleave fuel d = Some out /\ Permutation out (items d).
Proof.
  induction fuel as [|fuel IH]; intros d H; [lia|].
  cbn [interleave]. rewrite take_round_spec.
  pose proof (items_round d) as P.
  destruct (heads d) as [|x o] eqn:E.
  - exists []. split; [reflexivity|]. rewrite (heads_nil d E). constructor.
  - destruct (IH (tails d)) as (out & -> & Po).
    + apply Permutation_length in P. rewrite length_app in P. cbn in P. lia.
    + exists ((x :: o) ++ out). split; [reflexivity|].
      rewrite P. apply Permutation_app_head, Po.
Qed.
End RoundFacts.

Section PayloadFacts.
Context {A B : Type}.
Variable key : A -> string.
Variable payload : A -> B.

Lemma partition_payload (l : list A) :
  partition_by_key key payload l = map_queues payload (partition_by_key key (fun x => x) l).
Proof.
  unfold partition_by_key, map_queues, bucket. rewrite map_map.
  apply map_ext. intro k. cbn. rewrite map_id. reflexivity.
Qed.

Lemma heads_payload (d : list (string * list A)) :
  heads (map_queues payload d) = map payload (heads d).
Proof.
  induction d as [|[k q] d IH]; [reflexivity|].
  unfold heads, map_queues in *. cbn [map flat_map fst snd].
  rewrite map_app, IH. destruct q; reflexivity.
Qed.

Lemma tails_payload (d : list (string * list A)) :
  tails (map_queues payload d) = map_queues payload (tails d).
Proof.
  unfold tails, map_queues. rewrite !map_map. apply map_ext.
  intros [k q]. cbn. destruct q; reflexivity.
Qed.

Lemma interleave_payload (fuel : nat) : forall d,
  interleave fuel (map_queues payload d) = option_map (map payload) (interleave fuel d).
Proof.
  induction fuel as [|fuel IH]; intro d; [reflexivity|].
  cbn [interleave]. rewrite !take_round_spec, heads_payload, tails_payload, IH.
  destruct (heads d) as [|x o]; [reflexivity|]. cbn [map].
  destruct (interleave fuel (tails d)) as [out|]; [|reflexivity].
  cbn [option_map]. rewrite map_app. reflexivity.
Qed.

Lemma stratify_payload (l : list A) :
  stratify key payload l = option_map (map payload) (stratify key (fun x => x) l).
Proof.
  unfold stratify. rewrite !build_queues_partition, partition_payload.
  apply interleave_payload.
Qed.
End PayloadFacts.

Lemma alternating_app (r rest : list string) :
  NoDup r -> alternating rest ->
  (forall r' a b rest', r = r' ++ [a] -> rest = b :: rest' -> a = b ->
                        forall z, In z rest -> z = a) ->
  alternating (r ++ rest).
Proof.
  induction r as [|a r IH]; intros N R H; [exact R|].
  inversion N as [|? ? Ha N']; subst.
  destruct r as [|a' r].
  - cbn [app]. destruct rest as [|b rest]; [exact I|].
    split; [|exact R]. intro E. exact (H [] a b rest eq_refl eq_refl E).
  - cbn [app alternating]. split.
    + intros ->. exfalso. apply Ha. left. reflexivity.
    + apply IH; [exact N'|exact R|].
      intros r' x b rest' E1 E2. apply (H (a :: r') x b rest'); [|exact E2].
      cbn [app]. rewrite <- E1. reflexivity.
Qed.

Lemma alternating_split (A : Type) (key : A -> string) (out : list A) :
  alternating (map key out) ->
  forall pre x y post, out = pre ++ x :: y :: post -> key x = key y ->
                       forall z, In z post -> key z = key x.
Proof.
  intros H pre. revert out H. induction pre as [|p pre IH]; intros out H x y post E K z Hz.
  - subst out. cbn [app map alternating] in H. destruct H as [H _].
    apply (H K). right. apply in_map, Hz.
  - subst out. cbn [app map] in H.
    refine (IH (pre ++ x :: y :: post) _ x y post eq_refl K z Hz).
    destruct (map key (pre ++ x :: y :: post)) eqn:M.
    + destruct pre; discriminate M.
    + cbn [alternating] in H. apply H.
Qed.

Section AlternationFacts.
Context {A : Type}.
Variable key : A -> string.

Lemma heads_keys (d : list (string * list A)) :
  well_keyed key d -> map key (heads d) = waiting d.
Proof.
  intros [_ W]. unfold waiting. induction d as [|[k q] d IH]; [reflexivity|].
  unfold heads in *. cbn [flat_map filter nonempty fst snd].
  rewrite map_app, IH by (intros e He; apply W; right; exact He).
  destruct q as [|x q]; [reflexivity|].
  change (nonempty (k, x :: q)) with true. cbn [map app fst].
  f_equal. apply (W (k, x :: q)); left; reflexivity.
Qed.

Lemma waiting_tails (d : list (string * list A)) :
  waiting (tails d) = map fst (filter long d).
Proof.
  unfold waiting, tails. induction d as [|[k q] d IH]; [reflexivity|].
  cbn [map filter]. unfold nonempty at 1, long at 1. cbn [fst snd].
  destruct q as [|x [|y q]]; cbn [tl map fst]; rewrite IH; reflexivity.
Qed.

Lemma well_keyed_tails (d : list (string * list A)) :
  well_keyed key d -> well_keyed key (tails d).
Proof.
  intros [N W]. split.
  - unfold tails. rewrite map_map. cbn [fst]. exact N.
  - intros e He x Hx. unfold tails in He. apply in_map_iff in He.
    destruct He as ([k q] & <- & He). cbn [fst snd] in *.
    apply (W (k, q) He). destruct q; [destruct Hx|right; exact Hx].
Qed.

Lemma long_nonempty (e : string * list A) : long e = true -> nonempty e = true.
Proof. unfold long, nonempty. destruct (snd e) as [|x [|y q]]; auto. Qed.

Lemma waiting_NoDup (d : list (string * list A)) :
  NoDup (map fst d) -> NoDup (waiting d).
Proof.
  unfold waiting. induction d as [|e d IH]; intro N; [constructor|].
  inversion N as [|? ? Ha N']; subst. cbn [filter].
  destruct (nonempty e); [|apply IH, N']. cbn [map]. constructor; [|apply IH, N'].
  intro H. apply Ha. apply in_map_iff in H. destruct H as (e' & <- & He').
  apply in_map. apply filter_In in He'. tauto.
Qed.

Lemma snoc_cons (X : Type) (x a : X) (l r : list X) :
  x :: l = r ++ [a] -> l <> [] -> exists r', r = x :: r' /\ l = r' ++ [a].
Proof.
  intros E N. destruct r as [|y r].
  - cbn in E. injection E as _ E. contradiction.
  - cbn in E. injection E as -> E. exists r. split; [reflexivity|exact E].
Qed.

(** When the last waiting key of a round is the first of the next round, it is
    the only key of the next round. *)
Lemma last_is_next_first (d : list (string * list A)) :
  NoDup (map fst d) ->
  forall r a s, waiting d = r ++ [a] -> map fst (filter long d) = a :: s -> s = [].
Proof.
  unfold waiting. induction d as [|e d IH]; intros N r a s E1 E2; [discriminate E2|].
  inversion N as [|? ? Ha N']; subst.
  assert (Sub : filter long d <> [] -> filter nonempty d <> []).
  { intros H1 H2. apply H1. clear - H2. induction d as [|e' d IH]; [reflexivity|].
    cbn [filter] in *. destruct (long e') eqn:L.
    - rewrite (long_nonempty e' L) in H2. discriminate H2.
    - apply IH. destruct (nonempty e'); [discriminate H2|exact H2]. }
  cbn [filter] in E1, E2. destruct (long e) eqn:L.
  - rewrite (long_nonempty e L) in E1. cbn [map] in E1, E2.
    injection E2 as <- <-.
    destruct (filter nonempty d) as [|e1 l1] eqn:F.
    + destruct (filter long d) as [|e2 l2] eqn:F2; [reflexivity|].
      exfalso. apply Sub; [discriminate|reflexivity].
    + exfalso. apply Ha.
      destruct (snoc_cons _ _ _ _ _ E1) as (r' & _ & E); [discriminate|].
      assert (I : In (fst e) (map fst (e1 :: l1)))
        by (rewrite E; apply in_or_app; right; left; reflexivity).
      apply in_map_iff in I. destruct I as (e' & <- & He').
      apply in_map. rewrite <- F in He'. apply filter_In in He'. tauto.
  - assert (NE : filter nonempty d <> []).
    { apply Sub. intro Z. rewrite Z in E2. discriminate E2. }
    destruct (nonempty e).
    + cbn [map] in E1. apply snoc_cons in E1.
      * destruct E1 as (r' & _ & E1). apply (IH N' r' a s E1 E2).
      * intro Z. apply NE. destruct (filter nonempty d); [reflexivity|discriminate Z].
    + apply (IH N' r a s E1 E2).
Qed.

Lemma waiting_tails_incl (d : list (string * list A)) (k : string) :
  In k (waiting (tails d)) -> In k (waiting d).
Proof.
  rewrite waiting_tails. unfold waiting. intro H. apply in_map_iff in H.
  destruct H as (e & <- & He). apply in_map. apply filter_In in He.
  apply filter_In. split; [tauto|]. apply long_nonempty. tauto.
Qed.

Lemma interleave_keys (fuel : nat) : forall d out,
  well_keyed key d -> interleave fuel d = Some out ->
  forall x, In x out -> In (key x) (waiting d).
Proof.
  induction fuel as [|fuel IH]; intros d out W H x Hx; [discriminate H|].
  cbn [interleave] in H. rewrite take_round_spec in H.
  destruct (heads d) as [|h o] eqn:E.
  - injection H as <-. destruct Hx.
  - destruct (interleave fuel (tails d)) as [out'|] eqn:I; [|discriminate H].
    cbn [option_map] in H. injection H as <-.
    change (In x ((h :: o) ++ out')) in Hx.
    apply in_app_or in Hx. destruct Hx as [Hx|Hx].
    + rewrite <- (heads_keys d W), E. apply in_map, Hx.
    + apply waiting_tails_incl.
      apply (IH (tails d) out' (well_keyed_tails d W) I x Hx).
Qed.

Lemma interleave_alternating (fuel : nat) : forall d out,
  well_keyed key d -> interleave fuel d = Some out -> alternating (map key out).
Proof.
  induction fuel as [|fuel IH]; intros d out W H; [discriminate H|].
  cbn [interleave] in H. rewrite take_round_spec in H.
  destruct (heads d) as [|h o] eqn:E.
  - injection H as <-. exact I.
  - destruct (interleave fuel (tails d)) as [out'|] eqn:I; [|discriminate H].
    cbn [option_map] in H. injection H as <-.
    change (alternating (map key ((h :: o) ++ out'))).
    rewrite map_app, <- E, (heads_keys d W).
    pose proof (well_keyed_tails d W) as W'.
    apply alternating_app.
    + apply waiting_NoDup, W.
    + apply (IH (tails d) out' W' I).
    + intros r a b rest' E1 E2 <- z Hz.
      (* the next round starts with [a] *)
      assert (Hd : exists s, waiting (tails d) = a :: s).
      { destruct fuel as [|fuel']; [discriminate I|].
        cbn [interleave] in I. rewrite take_round_spec in I.
        destruct (heads (tails d)) as [|h' o'] eqn:E'.
        - injection I as <-. discriminate E2.
        - destruct (interleave fuel' (tails (tails d))); [|discriminate I].
          cbn [option_map] in I. injection I as <-.
          rewrite <- (heads_keys (tails d) W'), E'.
          cbn [map app] in E2. injection E2 as K _.
          exists (map key o'). cbn [map]. rewrite K. reflexivity. }
      destruct Hd as (s & Hs).
      assert (s = []).
      { rewrite waiting_tails in Hs.
        apply (last_is_next_first d (proj1 W) r a s E1 Hs). }
      subst s. apply in_map_iff in Hz. destruct Hz as (x & <- & Hx).
      pose proof (interleave_keys fuel (tails d) out' W' I x Hx) as K.
      rewrite Hs in K. destruct K as [K|[]]. symmetry. exact K.
Qed.

Lemma partition_well_keyed (l : list A) :
  well_keyed key (partition_by_key key (fun x => x) l).
Proof.
  unfold partition_by_key. split.
  - rewrite map_map. cbn [fst]. rewrite map_id. apply first_seen_NoDup.
  - intros e He x Hx. apply in_map_iff in He. destruct He as (k & <- & _).
    cbn [fst snd] in *. unfold bucket in Hx. rewrite map_id in Hx.
    apply filter_In in Hx. apply String.eqb_eq. tauto.
Qed.

Lemma build_queues_items (l : list A) :
  Permutation (items (build_queues key (fun x => x) l)) l.
Proof.
  induction l as [|x l IH] using rev_ind; [constructor|].
  unfold build_queues in *. rewrite fold_left_app. cbn [fold_left].
  rewrite enqueue_items. apply Permutation_app_tail, IH.
Qed.

(** The loop ends within one round more than there are records, and prints
    every record once. *)
Lemma interleave_terminates (l : list A) :
  exists out,
    stratify key (fun x => x) l = Some out /\ Permutation out l /\
    alternating (map key out).
Proof.
  unfold stratify.
  destruct (interleave_items (S (List.length l)) (build_queues key (fun x => x) l))
    as (out & H & P).
  - rewrite (Permutation_length (build_queues_items l)). lia.
  - exists out. split; [exact H|]. split.
    + rewrite P. apply build_queues_items.
    + apply (interleave_alternating (S (List.length l))
               (build_queues key (fun x => x) l) out); [|exact H].
      rewrite build_queues_partition. apply partition_well_keyed.
Qed.
End AlternationFacts.

Section RoundRobinFacts.
Context {A B : Type}.
Variable key : A -> string.
Variable payload : A -> B.

(** The output of the loop: round after round, each round with the record of
    that number of every key that has one, the keys in first-seen order. *)
Lemma stratify_rounds (l : list A) :
  stratify key payload l
  = Some (flat_map
            (fun r =>
               flat_map (fun k => match nth_error (bucket key payload l k) r with
                                  | Some x => [x]
                                  | None => []
                                  end)
                        (first_seen (map key l)))
            (seq 0 (List.length l))).
Proof.
  destruct (interleave_terminates key l) as (out & H & _ & _).
  pose proof (stratify_payload key payload l) as E. rewrite H in E.
  cbn [option_map] in E. rewrite E. unfold stratify in E.
  apply (interleave_rounds _ _ _ (List.length l)) in E.
  - rewrite E. f_equal. apply flat_map_ext. intro r.
    rewrite build_queues_partition. unfold nth_round, partition_by_key.
    generalize (first_seen (map key l)). intro ks.
    induction ks as [|k ks IH]; [reflexivity|].
    cbn [map flat_map snd]. rewrite IH. reflexivity.
  - intros e He. rewrite build_queues_partition in He. unfold partition_by_key in He.
    apply in_map_iff in He. destruct He as (k & <- & _). cbn [snd].
    unfold bucket. rewrite length_map. apply filter_length_le.
Qed.
End RoundRobinFacts.

(** C8.  The dict of strategy 3 holds, for each top prediction in first-seen
    order, the images of its records in their order.  The loop ends and
    prints round after round, a round being the next image of every label
    that has one left, the labels in first-seen order; so it prints every
    image once, and never prints two images of one label in a row while an
    image of another label is still to come.  For the labels A, A, B, A, B, C
    the output has the labels A, B, C, A, B, A. *)
Theorem stratify_round_robin (l : list image_info) :
  build_queues info_top_prediction info_image l
  = map (fun k => (k, map info_image
                          (filter (fun i => String.eqb (info_top_prediction i) k) l)))
        (first_seen (map info_top_prediction l)) /\
  stratify_by_label l
  = Some (flat_map
            (fun r =>
               flat_map
                 (fun k =>
                    match nth_error
                            (map info_image
                                 (filter (fun i => String.eqb (info_top_prediction i) k) l))
                            r with
                    | Some image => [image]
                    | None => []
                    end)
                 (first_seen (map info_top_prediction l)))
            (seq 0 (List.length l))) /\
  (exists out,
     stratify_by_label l = Some (map info_image out) /\
     Permutation out l /\
     forall pre x y post,
       out = pre ++ x :: y :: post ->
       info_top_prediction x = info_top_prediction y ->
       forall z, In z post -> info_top_prediction z = info_top_prediction x) /\
  map info_top_prediction six_records = ["A"; "A"; "B"; "A"; "B"; "C"] /\
  stratify_by_label six_records = Some ["1"; "3"; "6"; "2"; "5"; "4"] /\
  option_map (map info_top_prediction)
             (stratify info_top_prediction (fun i => i) six_records)
  = Some ["A"; "B"; "C"; "A"; "B"; "A"].
Proof.
  split; [apply build_queues_partition|].
  split; [apply (stratify_rounds info_top_prediction info_image l)|].
  split; [|repeat split].
  destruct (interleave_terminates info_top_prediction l) as (out & H & P & Alt).
  exists out. split; [|split; [exact P|]].
  - unfold stratify_by_label. rewrite stratify_payload, H. reflexivity.
  - apply alternating_split, Alt.
Qed.

(** ** More of the program *)

Lemma top2_range_step (seen : predictions) (t : top2) (p : string * Q) :
  top2_range seen t -> top2_range (seen ++ [p]) (top2_step t p).
Proof.
  intros (H0 & H1 & Hall & Htop & Hsec).
  assert (All' : forall q, (top_confidence t <= q)%Q -> (snd p <= q)%Q ->
                           forall x, In x (seen ++ [p]) -> (snd x <= q)%Q).
  { intros q Hq Hp x Hx. apply in_app_or in Hx. destruct Hx as [Hx|[<-|[]]].
    - specialize (Hall x Hx). lra.
    - exact Hp. }
  assert (Last : In p (seen ++ [p])) by (apply in_or_app; right; left; reflexivity).
  assert (Keep : forall e, In e seen -> In e (seen ++ [p]))
    by (intros e He; apply in_or_app; left; exact He).
  unfold top2_step.
  destruct (Qgtb (snd p) (top_confidence t)) eqn:G1;
    [apply Qgtb_true in G1 | apply Qgtb_false in G1].
  - destruct (Qgtb (top_confidence t) (second_confidence t)) eqn:G2;
      [apply Qgtb_true in G2 | apply Qgtb_false in G2];
      unfold top2_range, top_entry, second_entry;
      cbn [top_prediction top_confidence second_prediction second_confidence].
    + split; [lra|]. split; [lra|]. split; [apply All'; lra|]. split.
      * left. split; [lra|]. rewrite <- surjective_pairing. exact Last.
      * left. split; [lra|]. destruct Htop as [[_ Hin]| ->].
        -- apply Keep, Hin.
        -- cbn in G2. lra.
    + split; [exact H0|]. split; [lra|]. split; [apply All'; lra|]. split.
      * left. split; [lra|]. rewrite <- surjective_pairing. exact Last.
      * destruct Hsec as [[Hp Hin]|Hs]; [left; split; [exact Hp|apply Keep, Hin]|].
        right. exact Hs.
  - destruct (Qgtb (snd p) (second_confidence t)) eqn:G2;
      [apply Qgtb_true in G2 | apply Qgtb_false in G2];
      unfold top2_range, top_entry, second_entry;
      cbn [top_prediction top_confidence second_prediction second_confidence].
    + split; [lra|]. split; [exact G1|]. split; [apply All'; lra|]. split.
      * destruct Htop as [[Hp Hin]| ->]; [left; split; [exact Hp|apply Keep, Hin]|].
        cbn in G1, G2. lra.
      * left. split; [lra|]. rewrite <- surjective_pairing. exact Last.
    + split; [exact H0|]. split; [exact H1|]. split; [apply All'; lra|]. split.
      * destruct Htop as [[Hp Hin]| ->]; [left; split; [exact Hp|apply Keep, Hin]|].
        right. reflexivity.
      * destruct Hsec as [[Hp Hin]|Hs]; [left; split; [exact Hp|apply Keep, Hin]|].
        right. exact Hs.
Qed.

Lemma top2_range_fold (rest : predictions) : forall seen t,
  top2_range seen t -> top2_range (seen ++ rest) (fold_left top2_step rest t).
Proof.
  induction rest as [|p rest IH]; intros seen t H.
  - rewrite app_nil_r. exact H.
  - cbn [fold_left]. replace (seen ++ p :: rest) with ((seen ++ [p]) ++ rest)
      by (rewrite <- app_assoc; reflexivity).
    apply IH, top2_range_step, H.
Qed.

Lemma top_two_range (ps : predictions) : top2_range ps (top_two ps).
Proof.
  apply (top2_range_fold ps [] top2_init).
  unfold top2_range. cbn. repeat split; try lra.
  - intros x [].
  - right. reflexivity.
  - right. reflexivity.
Qed.

(** The two places of the loop, by the sign of their confidences. *)
Lemma top_two_places (ps : predictions) :
  ((0 < top_confidence (top_two ps))%Q -> In (top_entry (top_two ps)) ps) /\
  (~ (0 < top_confidence (top_two ps))%Q -> top_two ps = top2_init) /\
  ((0 < second_confidence (top_two ps))%Q -> In (second_entry (top_two ps)) ps) /\
  (~ (0 < second_confidence (top_two ps))%Q -> second_entry (top_two ps) = ("", 0%Q)).
Proof.
  destruct (top_two_range ps) as (H0 & H1 & Hall & Htop & Hsec).
  split; [|split; [|split]].
  - intro P. destruct Htop as [[_ Hin]|E]; [exact Hin|]. rewrite E in P. cbn in P. lra.
  - intro N. destruct Htop as [[P _]|E]; [contradiction|exact E].
  - intro P. destruct Hsec as [[_ Hin]|E]; [exact Hin|].
    unfold second_entry in E. injection E as _ E. rewrite E in P. lra.
  - intro N. destruct Hsec as [[P _]|E]; [contradiction|exact E].
Qed.

(** X1.  For every score map: the confidences are 0 <= second <= top, no score
    is above the top confidence, a positive top (second) confidence belongs
    to an entry of the map, and a top (second) place that is not positive is
    the initial, empty one. *)
Theorem top_two_entries (ps : predictions) :
  let t := top_two ps in
  (0 <= second_confidence t <= top_confidence t)%Q /\
  (forall x, In x ps -> (snd x <= top_confidence t)%Q) /\
  ((0 < top_confidence t)%Q -> In (top_entry t) ps) /\
  (~ (0 < top_confidence t)%Q -> t = top2_init) /\
  ((0 < second_confidence t)%Q -> In (second_entry t) ps) /\
  (~ (0 < second_confidence t)%Q -> second_entry t = ("", 0%Q)).
Proof.
  intro t. subst t. destruct (top_two_range ps) as (H0 & H1 & Hall & _).
  split; [split; assumption|]. split; [exact Hall|]. apply top_two_places.
Qed.

(** The loop on two entries in order. *)
Lemma top2_first_two (p1 p2 : string * Q) :
  (0 < snd p2)%Q -> (snd p2 <= snd p1)%Q ->
  top2_step (top2_step top2_init p1) p2
  = mk_top2 (fst p1) (snd p1) (fst p2) (snd p2).
Proof.
  intros P L.
  assert (E1 : top2_step top2_init p1 = mk_top2 (fst p1) (snd p1) "" 0).
  { unfold top2_step. cbn [top_confidence second_confidence top2_init].
    assert (G : Qgtb (snd p1) 0 = true) by (apply Qgtb_true; lra).
    rewrite G. reflexivity. }
  rewrite E1.
  unfold top2_step. cbn [top_confidence second_confidence top_prediction].
  assert (G1 : Qgtb (snd p2) (snd p1) = false) by (apply Qgtb_false; exact L).
  assert (G2 : Qgtb (snd p2) 0 = true) by (apply Qgtb_true; exact P).
  rewrite G1, G2. reflexivity.
Qed.

(** X2.  On a score map in non-increasing order whose second score is positive
    the loop returns the first two entries. *)
Theorem top_two_of_descending (p1 p2 : string * Q) (rest : predictions) :
  (0 < snd p2)%Q -> (snd p2 <= snd p1)%Q ->
  (forall x, In x rest -> (snd x <= snd p2)%Q) ->
  top_two (p1 :: p2 :: rest) = mk_top2 (fst p1) (snd p1) (fst p2) (snd p2).
Proof.
  intros P L R. unfold top_two. cbn [fold_left].
  rewrite (top2_first_two p1 p2 P L).
  apply top2_fold_low; cbn [second_confidence top_confidence]; assumption.
Qed.

(** X2 on three scores. *)
Lemma top_two_of_descending_witness :
  top_two three_scores = mk_top2 "cat" (7 # 10) "dog" (2 # 10).
Proof.
  apply (top_two_of_descending ("cat", 7 # 10)%Q ("dog", 2 # 10)%Q [("bird", 1 # 10)%Q]).
  - reflexivity.
  - cbn. discriminate.
  - intros x [<-|[]]. cbn. discriminate.
Defined.

(** ** The float32 quotient *)

Lemma pow2_pos (e : Z) : (0 < 2 ^ e)%Q.
Proof. apply Qpower_0_lt. reflexivity. Qed.

Lemma pow2_inject (e : Z) : (0 <= e)%Z -> (inject_Z (2 ^ e) == 2 ^ e)%Q.
Proof. intro H. rewrite Zpower_Qpower by exact H. reflexivity. Qed.

Lemma pow2_minus (a b : Z) : (0 <= a)%Z -> (0 <= b)%Z ->
  (2 ^ (a - b) == inject_Z (2 ^ a) / inject_Z (2 ^ b))%Q.
Proof.
  intros Ha Hb. rewrite Qpower_minus by discriminate.
  rewrite !pow2_inject by assumption. reflexivity.
Qed.

Lemma floor_log2_spec (x : Q) :
  (0 < x)%Q -> (2 ^ floor_log2 x <= x)%Q /\ (x < 2 ^ (floor_log2 x + 1))%Q.
Proof.
  intro P. destruct x as [n d]. 
  assert (Pn : (0 < n)%Z) by (unfold Qlt in P; cbn in P; lia).
  pose proof (Z.log2_spec n Pn) as [A1 A2].
  pose proof (Z.log2_spec (Zpos d) eq_refl) as [B1 B2].
  pose proof (Z.log2_nonneg n) as An. pose proof (Z.log2_nonneg (Zpos d)) as Bn.
  set (a := Z.log2 n) in *. set (b := Z.log2 (Zpos d)) in *.
  assert (Pa : (0 < 2 ^ a)%Z) by (apply Z.pow_pos_nonneg; lia).
  assert (Pb : (0 < 2 ^ b)%Z) by (apply Z.pow_pos_nonneg; lia).
  assert (Sa : (2 ^ Z.succ a = 2 * 2 ^ a)%Z) by (apply Z.pow_succ_r; lia).
  assert (Sb : (2 ^ Z.succ b = 2 * 2 ^ b)%Z) by (apply Z.pow_succ_r; lia).
  assert (Up : (n # d < 2 ^ (a - b + 1))%Q).
  { replace (a - b + 1)%Z with (Z.succ a - b)%Z by lia.
    rewrite pow2_minus by lia. apply Qlt_shift_div_l.
    - change 0%Q with (inject_Z 0). rewrite <- Zlt_Qlt. exact Pb.
    - unfold Qlt, Qmult, inject_Z. cbn [Qnum Qden]. nia. }
  assert (Lo : (2 ^ (a - b - 1) <= n # d)%Q).
  { replace (a - b - 1)%Z with (a - Z.succ b)%Z by lia.
    rewrite pow2_minus by lia. apply Qle_shift_div_r.
    - change 0%Q with (inject_Z 0). rewrite <- Zlt_Qlt. lia.
    - unfold Qle, Qmult, inject_Z. cbn [Qnum Qden]. nia. }
  unfold floor_log2. cbn [Qnum Qden]. fold a b.
  destruct (Qle_bool (2 ^ (a - b)) (n # d)) eqn:E.
  - apply Qle_bool_iff in E. split; assumption.
  - split; [exact Lo|]. replace (a - b - 1 + 1)%Z with (a - b)%Z by lia.
    apply Qnot_le_lt. intro L. apply Qle_bool_iff in L. congruence.
Qed.

Lemma floor_log2_nonneg (x : Q) : (1 <= x)%Q -> (0 <= floor_log2 x)%Z.
Proof.
  intro H. destruct (floor_log2_spec x) as [_ U]; [lra|].
  destruct (Z.lt_ge_cases (floor_log2 x) 0) as [N|N]; [exfalso|exact N].
  assert (L : (2 ^ (floor_log2 x + 1) <= 2 ^ 0)%Q)
    by (apply Qpower_le_compat_l; [lia|discriminate]).
  change (2 ^ 0)%Q with 1%Q in L. lra.
Qed.

Lemma round_half_even_near (y : Q) :
  (inject_Z (round_half_even y) - y <= 1 # 2)%Q /\
  (y - inject_Z (round_half_even y) <= 1 # 2)%Q.
Proof.
  pose proof (Qfloor_le y) as L. pose proof (Qlt_floor y) as U.
  rewrite inject_Z_plus in U. change (inject_Z 1) with 1%Q in U.
  unfold round_half_even.
  destruct (y - inject_Z (Qfloor y) ?= 1 # 2)%Q eqn:C.
  - apply Qeq_alt in C. destruct (Z.even (Qfloor y)).
    + split; lra.
    + rewrite inject_Z_plus. change (inject_Z 1) with 1%Q. split; lra.
  - apply Qlt_alt in C. split; lra.
  - apply Qgt_alt in C. rewrite inject_Z_plus. change (inject_Z 1) with 1%Q.
    split; lra.
Qed.

Lemma round_half_even_ge (k : Z) (y : Q) :
  (inject_Z k <= y)%Q -> (k <= round_half_even y)%Z.
Proof.
  intro H. apply Qfloor_resp_le in H. rewrite Qfloor_Z in H.
  unfold round_half_even.
  destruct (y - inject_Z (Qfloor y) ?= 1 # 2)%Q; [destruct (Z.even _)| |]; lia.
Qed.

(** The float32 quotient of a number that is at least 1: at least 1, within
    relative error 2^-24 of it, and infinite only from 2^127 on. *)
Lemma round_float32_ge_1 (x : Q) :
  (1 <= x)%Q ->
  match round_float32 x with
  | Finite v => (1 <= v)%Q /\ (Qabs (v - x) <= x / 2 ^ 24)%Q
  | Infinity => (2 ^ 127 <= x)%Q
  end.
Proof.
  intro H. pose proof (floor_log2_nonneg x H) as E0.
  destruct (floor_log2_spec x) as [L U]; [lra|].
  unfold round_float32. set (e := floor_log2 x) in *.
  replace (Z.max (e - 23) (-149)) with (e - 23)%Z by lia.
  set (q := (e - 23)%Z). set (y := (x / 2 ^ q)%Q).
  set (m := round_half_even y).
  pose proof (pow2_pos q) as Pq.
  assert (Ey : (x == y * 2 ^ q)%Q) by (unfold y; field; lra).
  assert (E23 : (2 ^ e == 2 ^ 23 * 2 ^ q)%Q).
  { unfold q. rewrite <- Qpower_plus by discriminate. 
    replace (23 + (e - 23))%Z with e by lia. reflexivity. }
  assert (Ly : (inject_Z (2 ^ 23) <= y)%Q).
  { unfold y. apply Qle_shift_div_l; [exact Pq|].
    rewrite pow2_inject by lia. rewrite <- E23. exact L. }
  pose proof (round_half_even_ge _ _ Ly) as Lm. fold m in Lm.
  destruct (round_half_even_near y) as [N1 N2]. fold m in N1, N2.
  assert (V : (Qred (inject_Z m * 2 ^ q) == inject_Z m * 2 ^ q)%Q) by apply Qred_correct.
  assert (M23 : (2 ^ 23 <= inject_Z m)%Q).
  { rewrite <- pow2_inject by lia. rewrite <- Zle_Qle. exact Lm. }
  assert (Half : (2 ^ q * (1 # 2) <= x / 2 ^ 24)%Q).
  { apply Qle_shift_div_l; [apply pow2_pos|].
    assert (E24 : (2 ^ 24 == 2 * 2 ^ 23)%Q) by reflexivity.
    rewrite E24. 
    assert (2 ^ q * (1 # 2) * (2 * 2 ^ 23) == 2 ^ e)%Q by (rewrite E23; field).
    lra. }
  assert (Near : (Qabs (inject_Z m * 2 ^ q - x) <= 2 ^ q * (1 # 2))%Q).
  { apply Qabs_Qle_condition. rewrite Ey. split.
    - assert ((y - inject_Z m) * 2 ^ q <= (1 # 2) * 2 ^ q)%Q
        by (apply Qmult_le_compat_r; lra). lra.
    - assert ((inject_Z m - y) * 2 ^ q <= (1 # 2) * 2 ^ q)%Q
        by (apply Qmult_le_compat_r; lra). lra. }
  destruct (Qle_bool (2 ^ 128) (Qred (inject_Z m * 2 ^ q))) eqn:O.
  - apply Qle_bool_iff in O. rewrite V in O.
    apply Qabs_Qle_condition in Near. destruct Near as [N3 N4].
    assert (x / 2 ^ 24 <= x * (1 # 2))%Q.
    { apply Qle_shift_div_r; [apply pow2_pos|].
      assert (E24 : (2 ^ 24 == 16777216)%Q) by reflexivity. rewrite E24. lra. }
    assert (E128 : (2 ^ 128 == 2 * 2 ^ 127)%Q) by reflexivity.
    rewrite E128 in O. lra.
  - split.
    + rewrite V. 
      assert (2 ^ 23 * 2 ^ q <= inject_Z m * 2 ^ q)%Q
        by (apply Qmult_le_compat_r; lra).
      assert (1 <= 2 ^ e)%Q by (apply Qpower_1_le; [discriminate|exact E0]).
      lra.
    + rewrite V. lra.
Qed.

Lemma inject_Z_pred (k : Z) : (inject_Z (k - 1) == inject_Z k - 1)%Q.
Proof.
  unfold Z.sub. rewrite inject_Z_plus, inject_Z_opp. reflexivity.
Qed.

Lemma round_half_even_lt (k : Z) (y : Q) :
  (y < inject_Z k - (1 # 2))%Q -> (round_half_even y <= k - 1)%Z.
Proof.
  intro H. pose proof (Qfloor_le y) as L. pose proof (Qlt_floor y) as U.
  assert (F : (Qfloor y <= k - 1)%Z).
  { destruct (Z.lt_ge_cases (Qfloor y) k) as [N|N]; [lia|exfalso].
    rewrite Zle_Qle in N. lra. }
  unfold round_half_even.
  destruct (y - inject_Z (Qfloor y) ?= 1 # 2)%Q eqn:C.
  - apply Qeq_alt in C.
    destruct (Z.eq_dec (Qfloor y) (k - 1)) as [E|E].
    + exfalso. rewrite E in C. rewrite inject_Z_pred in C. lra.
    + destruct (Z.even _); lia.
  - exact F.
  - apply Qgt_alt in C.
    destruct (Z.eq_dec (Qfloor y) (k - 1)) as [E|E]; [exfalso|lia].
    rewrite E in C. rewrite inject_Z_pred in C. lra.
Qed.

Lemma round_half_even_up (k : Z) (y : Q) :
  Z.even k = true -> (inject_Z k - (1 # 2) <= y)%Q -> (k <= round_half_even y)%Z.
Proof.
  intros Ev H. pose proof (Qfloor_le y) as L. pose proof (Qlt_floor y) as U.
  rewrite inject_Z_plus in U. change (inject_Z 1) with 1%Q in U.
  assert (F : (k - 1 <= Qfloor y)%Z).
  { destruct (Z.lt_ge_cases (Qfloor y) (k - 1)) as [N|N]; [exfalso|lia].
    assert (N' : (Qfloor y + 1 <= k - 1)%Z) by lia.
    rewrite Zle_Qle, inject_Z_plus, inject_Z_pred in N'.
    change (inject_Z 1) with 1%Q in N'. lra. }
  unfold round_half_even.
  destruct (Z.eq_dec (Qfloor y) (k - 1)) as [E|E].
  - assert (Od : Z.even (Qfloor y) = false).
    { rewrite E. replace (k - 1)%Z with (Z.pred k) by lia. rewrite Z.even_pred.
      rewrite <- Z.negb_even, Ev. reflexivity. }
    destruct (y - inject_Z (Qfloor y) ?= 1 # 2)%Q eqn:C.
    + rewrite Od. lia.
    + exfalso. apply Qlt_alt in C. rewrite E, inject_Z_pred in C. lra.
    + lia.
  - destruct (y - inject_Z (Qfloor y) ?= 1 # 2)%Q;
      [destruct (Z.even (Qfloor y))| |]; lia.
Qed.

(** The quotients that are too large for float32. *)
Lemma round_float32_overflow (x : Q) :
  (1 <= x)%Q ->
  (round_float32 x = Infinity <-> (2 ^ 128 - 2 ^ 103 <= x)%Q).
Proof.
  intro H. pose proof (floor_log2_nonneg x H) as E0.
  destruct (floor_log2_spec x) as [L U]; [lra|].
  unfold round_float32. set (e := floor_log2 x) in *.
  replace (Z.max (e - 23) (-149)) with (e - 23)%Z by lia.
  set (q := (e - 23)%Z). set (y := (x / 2 ^ q)%Q).
  set (m := round_half_even y).
  pose proof (pow2_pos q) as Pq.
  assert (Ey : (x == y * 2 ^ q)%Q) by (unfold y; field; lra).
  assert (E23 : (2 ^ e == 2 ^ 23 * 2 ^ q)%Q).
  { unfold q. rewrite <- Qpower_plus by discriminate.
    replace (23 + (e - 23))%Z with e by lia. reflexivity. }
  assert (V : (Qred (inject_Z m * 2 ^ q) == inject_Z m * 2 ^ q)%Q) by apply Qred_correct.
  assert (T : (2 ^ 128 - 2 ^ 103 == 2 ^ 127 + (2 ^ 127 - 2 ^ 103))%Q) by reflexivity.
  assert (P127 : (2 ^ 103 < 2 ^ 127)%Q) by reflexivity.
  destruct (Z.lt_ge_cases e 128) as [Lt128|Ge128].
  - (* the quotient is below 2^128 *)
    assert (Split : (2 ^ 128 == inject_Z (2 ^ (128 - q)) * 2 ^ q)%Q).
    { rewrite pow2_inject by lia. rewrite <- Qpower_plus by discriminate.
      replace (128 - q + q)%Z with 128%Z by lia. reflexivity. }
    assert (Split' : (2 ^ 103 == 2 ^ (103 - q) * 2 ^ q)%Q).
    { rewrite <- Qpower_plus by discriminate.
      replace (103 - q + q)%Z with 103%Z by lia. reflexivity. }
    assert (HalfLe : ((1 # 2) <= 2 ^ (103 - q))%Q).
    { change (1 # 2)%Q with (2 ^ (-1))%Q.
      apply Qpower_le_compat_l; [unfold q; lia|discriminate]. }
    destruct (Qle_bool (2 ^ 128) (Qred (inject_Z m * 2 ^ q))) eqn:O.
    + apply Qle_bool_iff in O. rewrite V in O. split; [intros _|reflexivity].
      destruct (Qlt_le_dec x (2 ^ 128 - 2 ^ 103)) as [B|B]; [exfalso|exact B].
      assert (Y : (y < inject_Z (2 ^ (128 - q)) - (1 # 2))%Q).
      { assert (y * 2 ^ q < (inject_Z (2 ^ (128 - q)) - 2 ^ (103 - q)) * 2 ^ q)%Q.
        { rewrite <- Ey. 
          assert ((inject_Z (2 ^ (128 - q)) - 2 ^ (103 - q)) * 2 ^ q
                  == 2 ^ 128 - 2 ^ 103)%Q by (rewrite Split, Split'; ring).
          lra. }
        assert (y < inject_Z (2 ^ (128 - q)) - 2 ^ (103 - q))%Q.
        { apply Qnot_le_lt. intro C.
          assert ((inject_Z (2 ^ (128 - q)) - 2 ^ (103 - q)) * 2 ^ q <= y * 2 ^ q)%Q
            by (apply Qmult_le_compat_r; lra). lra. }
        lra. }
      apply round_half_even_lt in Y. fold m in Y.
      assert (M : (inject_Z m <= inject_Z (2 ^ (128 - q)) - 1)%Q).
      { rewrite Zle_Qle, inject_Z_pred in Y. exact Y. }
      assert (inject_Z m * 2 ^ q <= (inject_Z (2 ^ (128 - q)) - 1) * 2 ^ q)%Q
        by (apply Qmult_le_compat_r; lra).
      assert ((inject_Z (2 ^ (128 - q)) - 1) * 2 ^ q == 2 ^ 128 - 2 ^ q)%Q
        by (rewrite Split; ring).
      lra.
    + split; [discriminate|]. intro B. exfalso.
      assert (O' : ~ (2 ^ 128 <= inject_Z m * 2 ^ q)%Q).
      { intro C. rewrite <- V in C. apply Qle_bool_iff in C. congruence. }
      apply O'. clear O O'.
      (* the exponent is 127 *)
      assert (E127 : e = 127%Z).
      { destruct (Z.lt_ge_cases e 127) as [C|C]; [exfalso|lia].
        assert (2 ^ (e + 1) <= 2 ^ 127)%Q
          by (apply Qpower_le_compat_l; [lia|discriminate]).
        lra. }
      assert (Eq104 : q = 104%Z) by (unfold q; lia).
      assert (Y : (inject_Z (2 ^ 24) - (1 # 2) <= y)%Q).
      { unfold y. apply Qle_shift_div_l; [exact Pq|]. rewrite Eq104.
        assert ((inject_Z (2 ^ 24) - (1 # 2)) * 2 ^ 104 == 2 ^ 128 - 2 ^ 103)%Q
          by reflexivity.
        lra. }
      apply round_half_even_up in Y; [|reflexivity]. fold m in Y.
      rewrite Zle_Qle in Y.
      assert (inject_Z (2 ^ 24) * 2 ^ q <= inject_Z m * 2 ^ q)%Q
        by (apply Qmult_le_compat_r; lra).
      assert (inject_Z (2 ^ 24) * 2 ^ q == 2 ^ 128)%Q by (rewrite Eq104; reflexivity).
      lra.
  - (* the quotient is 2^128 or more *)
    assert (P : (2 ^ 128 <= 2 ^ e)%Q)
      by (apply Qpower_le_compat_l; [lia|discriminate]).
    assert (Ly : (inject_Z (2 ^ 23) <= y)%Q).
    { unfold y. apply Qle_shift_div_l; [exact Pq|].
      rewrite pow2_inject by lia. rewrite <- E23. exact L. }
    pose proof (round_half_even_ge _ _ Ly) as Lm. fold m in Lm.
    assert (M23 : (2 ^ 23 <= inject_Z m)%Q).
    { rewrite <- pow2_inject by lia. rewrite <- Zle_Qle. exact Lm. }
    assert (2 ^ 23 * 2 ^ q <= inject_Z m * 2 ^ q)%Q
      by (apply Qmult_le_compat_r; lra).
    assert (O : Qle_bool (2 ^ 128) (Qred (inject_Z m * 2 ^ q)) = true).
    { apply Qle_bool_iff. rewrite V. lra. }
    rewrite O. split; [intros _|reflexivity].
    assert (0 < 2 ^ 103)%Q by reflexivity. lra.
Qed.

Lemma image_record_sound (run_graph : string -> predictions) (image : string)
  (i : image_info) :
  image_record run_graph image = Ok i ->
  info_image i = image /\ sound_record run_graph i.
Proof.
  unfold image_record. intro H.
  destruct (top_two_range (get_image_prediction run_graph image))
    as (H0 & H1 & _).
  destruct (top_two_places (get_image_prediction run_graph image))
    as (Htop & _ & Hsec & Hsec0).
  set (t := top_two (get_image_prediction run_graph image)) in *.
  assert (Pos : (0 < top_confidence t)%Q).
  { unfold confidence_ratio in H.
    destruct (Qeq_bool (second_confidence t) 0) eqn:Z.
    - destruct (Qeq_bool (top_confidence t) 0) eqn:Z'; [discriminate H|].
      apply Qeq_bool_neq in Z'. apply Qeq_bool_iff in Z. lra.
    - apply Qeq_bool_neq in Z. lra. }
  specialize (Htop Pos).
  assert (J : (endswith image ".jpg" || endswith image ".jpeg") = true
              /\ get_image_prediction run_graph image = run_graph image).
  { unfold get_image_prediction in *.
    destruct (endswith image ".jpg" || endswith image ".jpeg"); [split; reflexivity|].
    destruct Htop. }
  destruct J as [J E].
  unfold confidence_ratio in H.
  destruct (Qeq_bool (second_confidence t) 0) eqn:Z.
  - destruct (Qeq_bool (top_confidence t) 0); [discriminate H|].
    cbn [bind] in H. injection H as <-. cbn. split; [reflexivity|].
    unfold sound_record. cbn.
    apply Qeq_bool_iff in Z.
    assert (S0 : second_entry t = ("", 0%Q)) by (apply Hsec0; lra).
    unfold second_entry in S0. injection S0 as S1 S2.
    rewrite <- E. 
    split; [exact J|]. split; [exact Htop|]. split; [exact Pos|].
    split; [split; assumption|]. split; [intro P; lra|].
    split; [intros _; repeat split; assumption|]. left. exact S2.
  - cbn [bind] in H. injection H as <-. cbn. split; [reflexivity|].
    unfold sound_record. cbn. apply Qeq_bool_neq in Z.
    assert (P2 : (0 < second_confidence t)%Q) by lra.
    assert (Q1 : (1 <= top_confidence t / second_confidence t)%Q)
      by (apply Qle_shift_div_l; [exact P2|]; lra).
    rewrite <- E.
    split; [exact J|]. split; [exact Htop|]. split; [exact Pos|].
    split; [split; assumption|].
    split; [intros _; split; [apply Hsec, P2|reflexivity]|].
    split; [intro N; contradiction|].
    pose proof (round_float32_ge_1 _ Q1) as R.
    pose proof (round_float32_overflow _ Q1) as O.
    destruct (round_float32 (top_confidence t / second_confidence t)) as [q|].
    + destruct R as [R1 R2]. split; [exact P2|]. split; assumption.
    + right. apply O. reflexivity.
Qed.

Lemma after_labels_calls (directory : string) (ls : list slice) : forall g,
  random_calls (after_labels directory g ls)
  = (random_calls g + files_count (map fst ls))%nat.
Proof.
  induction ls as [|s ls IH]; intro g; unfold after_labels; cbn [fold_left map files_count fold_right].
  - lia.
  - fold (after_labels directory
            (labelled g (label_of directory (fst s)) (snd s)
                      (List.length (snd (fst s)))) ls).
    rewrite IH. cbn [random_calls labelled add_fscore print scored incr_total_labels].
    fold (files_count (map fst ls)). lia.
Qed.

(** X3.  Every record of a run that ends is the record of a file of the
    directories, named without trailing whitespace and ending in [.jpg] or
    [.jpeg]; its top entry is an entry of the classifier's answer with a
    positive score.  With a positive second confidence the second entry is an
    entry of the answer too and the ratio is the float32 of top / second: a
    number that is at least 1 and within top / second / 2^24 of top / second,
    or [inf] when top / second is 2^128 - 2^103 or more.  Otherwise the
    second place is empty and the ratio is [inf]. *)
Theorem run_records (directory : string) (random : nat -> float)
  (run_graph : string -> predictions) (corpus : list (string * list string))
  (o : outcome) :
  main directory random run_graph corpus = Ok o ->
  Forall (fun i =>
            sound_record run_graph i /\
            exists e x, In e corpus /\ In x (snd e) /\
                        info_image i = rstrip (dir_of directory e ++ "/" ++ x))
         (all_predictions (final o)).
Proof.
  intro H. apply main_spec in H. destruct H as (ls & E & F & H).
  cbn zeta in H. destruct H as (_ & _ & _ & _ & _ & _ & _ & Hp).
  rewrite Hp, after_labels_predictions. cbn [all_predictions globals0 app].
  apply (Permutation_Forall (sort_by_perm info_top_confidence _)).
  apply Forall_concat. apply Forall_map. subst corpus. clear Hp.
  induction F as [|s ls Fs _ IH]; constructor.
  - revert Fs. unfold from_entry. apply Forall_impl.
    intros i (x & Hx & R). apply image_record_sound in R. destruct R as [Ei S].
    split; [exact S|]. unfold images_of in Hx. apply in_map_iff in Hx.
    destruct Hx as (f & <- & Hf). exists (fst s), f.
    split; [left; reflexivity|]. split; [exact Hf|exact Ei].
  - revert IH. apply Forall_impl. intros infos. apply Forall_impl.
    intros i (S & e & x & He & Hx & Ei). split; [exact S|].
    exists e, x. split; [right; exact He|]. split; assumption.
Qed.

(** X3 on a run of four images. *)
Lemma run_records_witness :
  exists o,
    main "d" always cat_or_dog four_cats = Ok o /\
    Forall (fun i =>
              sound_record cat_or_dog i /\
              exists e x, In e four_cats /\ In x (snd e) /\
                          info_image i = rstrip (dir_of "d" e ++ "/" ++ x))
           (all_predictions (final o)).
Proof.
  eexists. split; [vm_compute; reflexivity|].
  refine (run_records "d" always cat_or_dog four_cats _ _).
  vm_compute. reflexivity.
Defined.

Lemma process_images_bound (random : nat -> float) (run_graph : string -> predictions)
  (label : string) (images : list string) : forall g c g' c',
  for_each (process_image random run_graph label) images (g, c) = Ok (g', c') ->
  (total_images g' + random_calls g <= total_images g + random_calls g')%nat.
Proof.
  induction images as [|x images IH]; intros g c g' c' H.
  - cbn in H. injection H as <- _. lia.
  - cbn [for_each] in H.
    destruct (process_image random run_graph label (g, c) x) as [[g1 c1]|e] eqn:P;
      [|discriminate H].
    cbn [bind] in H. apply IH in H.
    destruct (selected random (random_calls g)) eqn:S.
    + rewrite process_image_score in P by exact S.
      destruct (image_record run_graph (rstrip x)); [|discriminate P].
      cbn [bind] in P. injection P as <- _. cbn in H. lia.
    + rewrite process_image_skip in P by exact S. injection P as <- _.
      cbn in H. lia.
Qed.

Lemma process_labels_bound (directory : string) (random : nat -> float)
  (run_graph : string -> predictions) (corpus : list (string * list string)) :
  forall g g',
  for_each (process_label directory random run_graph) corpus g = Ok g' ->
  (total_images g' + random_calls g <= total_images g + random_calls g')%nat.
Proof.
  induction corpus as [|e corpus IH]; intros g g' H.
  - cbn in H. injection H as <-. lia.
  - cbn [for_each] in H.
    destruct (process_label directory random run_graph g e) as [g1|x] eqn:P;
      [|discriminate H].
    cbn [bind] in H. apply IH in H. unfold process_label in P.
    match type of P with
    | context [for_each ?f ?l ?s] => destruct (for_each f l s) as [[g2 c2]|x] eqn:L
    end; [|discriminate P].
    cbn [bind] in P. injection P as <-. apply process_images_bound in L.
    cbn in H, L. cbn. lia.
Qed.

Lemma main_final (directory : string) (random : nat -> float)
  (run_graph : string -> predictions) (corpus : list (string * list string))
  (o : outcome) :
  main directory random run_graph corpus = Ok o ->
  exists g,
    for_each (process_label directory random run_graph) corpus globals0 = Ok g /\
    total_images g <> 0%nat /\ total_labels g <> 0%nat /\
    total_images (final o) = total_images g /\
    total_labels (final o) = total_labels g /\
    label_stats (final o) = label_stats g /\
    random_calls (final o) = random_calls g /\
    List.length (all_predictions (final o)) = List.length (all_predictions g).
Proof.
  unfold main. intro H.
  destruct (for_each (process_label directory random run_graph) corpus globals0)
    as [g|e] eqn:L; [|discriminate H].
  cbn [bind] in H. unfold divide_by_count in H.
  destruct (Nat.eqb_spec (total_images g) 0) as [|N1]; [discriminate H|].
  cbn [bind] in H.
  destruct (Nat.eqb_spec (total_labels g) 0) as [|N2]; [discriminate H|].
  cbn [bind] in H. injection H as <-. exists g. cbn [final].
  match goal with
  | |- context [fold_left ?f ?l ?g0] =>
      destruct (print_all_same image_info (fun i => PText (info_image i)) l g0)
        as (_ & _ & H3 & H4 & H5 & H6 & H7)
  end.
  rewrite H3, H4, H5, H6, H7. cbn. repeat split; try assumption.
  unfold least_confident_first.
  symmetry. apply Permutation_length, sort_by_perm.
Qed.

(** X4.  A run that ends has drawn one random number per file, counted every
    directory, scored at least one image and at most as many as there are
    files, and kept one record per scored image; the counters of a label
    satisfy count = tp + fn and fp = fn. *)
Theorem run_counts (directory : string) (random : nat -> float)
  (run_graph : string -> predictions) (corpus : list (string * list string))
  (o : outcome) :
  main directory random run_graph corpus = Ok o ->
  random_calls (final o) = files_count corpus /\
  total_labels (final o) = List.length corpus /\
  List.length (label_stats (final o)) = List.length corpus /\
  total_images (final o) = List.length (all_predictions (final o)) /\
  (1 <= total_images (final o) <= files_count corpus)%nat /\
  Forall (fun s => let c := stat_counters s in
                   count c = (tp c + fn c)%nat /\ fp c = fn c)
         (label_stats (final o)).
Proof.
  intro H. destruct (main_final _ _ _ _ _ H) as (g & L & N1 & _ & Hi & Hl & Hs & Hc & Hn).
  pose proof (process_labels_bound _ _ _ _ _ _ L) as B. cbn in B.
  apply process_labels_spec in L. destruct L as (ls & E & -> & _).
  destruct (after_labels_totals directory ls globals0) as (T1 & T2 & _ & _).
  pose proof (after_labels_calls directory ls globals0) as C.
  pose proof (after_labels_stats directory ls globals0) as S.
  pose proof (after_labels_predictions directory ls globals0) as P.
  cbn [total_labels total_images random_calls label_stats all_predictions
       globals0 Nat.add app] in *.
  rewrite E in C.
  assert (Len : List.length ls = List.length corpus)
    by (rewrite <- E; symmetry; apply length_map).
  rewrite Hc, Hl, Hs, Hi, Hn, C, T1, T2, S, P, length_map.
  change (List.length ls) with (@List.length slice ls) in Len. rewrite Len.
  rewrite T2, C in B. rewrite T2 in N1. rewrite total_count_slices in *.
  repeat split; try lia.
  apply Forall_map. apply Forall_forall. intros s _. cbn. split; [|reflexivity].
  clear. induction (snd s) as [|i l IH]; [reflexivity|].
  cbn [filter List.length]. destruct (is_hit (label_of directory (fst s)) i); cbn; lia.
Qed.

(** X4 on a run of four images. *)
Lemma run_counts_witness :
  exists o,
    main "d" always cat_or_dog four_cats = Ok o /\
    random_calls (final o) = files_count four_cats /\
    total_labels (final o) = List.length four_cats /\
    List.length (label_stats (final o)) = List.length four_cats /\
    total_images (final o) = List.length (all_predictions (final o)) /\
    (1 <= total_images (final o) <= files_count four_cats)%nat /\
    Forall (fun s => let c := stat_counters s in
                     count c = (tp c + fn c)%nat /\ fp c = fn c)
           (label_stats (final o)).
Proof.
  eexists. split; [vm_compute; reflexivity|].
  refine (run_counts "d" always cat_or_dog four_cats _ _).
  vm_compute. reflexivity.
Defined.

Lemma skipped_images (random : nat -> float) (run_graph : string -> predictions)
  (label : string) (images : list string) : forall g c,
  (forall k, (k < List.length images)%nat ->
             selected random (random_calls g + k) = false) ->
  for_each (process_image random run_graph label) images (g, c)
  = Ok (scored g [] (List.length images), c).
Proof.
  induction images as [|x images IH]; intros g c H.
  - cbn. rewrite scored_nil. reflexivity.
  - cbn [for_each]. rewrite process_image_skip.
    + cbn [bind]. rewrite IH.
      * rewrite scored_scored. reflexivity.
      * intros k Hk. cbn [random_calls scored].
        replace (random_calls g + 1 + k)%nat with (random_calls g + S k)%nat by lia.
        apply H. cbn. lia.
    + specialize (H 0%nat). rewrite Nat.add_0_r in H. apply H. cbn. lia.
Qed.

Lemma skipped_labels (directory : string) (random : nat -> float)
  (run_graph : string -> predictions) (corpus : list (string * list string)) :
  forall g,
  (forall k, (k < files_count corpus)%nat ->
             selected random (random_calls g + k) = false) ->
  exists g',
    for_each (process_label directory random run_graph) corpus g = Ok g' /\
    total_images g' = total_images g.
Proof.
  induction corpus as [|e corpus IH]; intros g H.
  - exists g. split; reflexivity.
  - cbn [for_each]. cbn [files_count fold_right] in H. fold (files_count corpus) in H.
    unfold process_label. rewrite skipped_images.
    + cbn [bind].
      match goal with
      | |- context [for_each _ corpus ?g1] => destruct (IH g1) as (g' & E & T)
      end.
      * intros k Hk. cbn. rewrite length_map, <- Nat.add_assoc. apply H. lia.
      * exists g'. split; [exact E|]. rewrite T. cbn. lia.
    + intros k Hk. rewrite length_map in Hk. cbn. apply H. lia.
Qed.

(** X5.  A run in which no file passes the sampling, an empty directory list
    included, raises [ZeroDivisionError] at line 246. *)
Theorem unscored_run_raises (directory : string) (random : nat -> float)
  (run_graph : string -> predictions) (corpus : list (string * list string)) :
  (forall k, (k < files_count corpus)%nat -> selected random k = false) ->
  main directory random run_graph corpus = Raise ZeroDivisionError.
Proof.
  intro H. unfold main.
  destruct (skipped_labels directory random run_graph corpus globals0) as (g & -> & T).
  - intros k Hk. cbn. apply H, Hk.
  - cbn [bind]. unfold divide_by_count. rewrite T. reflexivity.
Qed.

(** X5 with draws of 0.5, and with no directory. *)
Lemma unscored_run_raises_witness :
  main "d" never cat_or_dog four_cats = Raise ZeroDivisionError /\
  main "d" always cat_or_dog [] = Raise ZeroDivisionError.
Proof.
  split.
  - apply (unscored_run_raises "d" never cat_or_dog four_cats).
    intros k _. reflexivity.
  - apply (unscored_run_raises "d" always cat_or_dog []).
    intros k Hk. cbn in Hk. lia.
Defined.

Section SortedInput.
Context {A : Type}.
Variable key : A -> Q.

Lemma insert_by_least (x : A) (l : list A) :
  Forall (key_le key x) l -> insert_by key x l = x :: l.
Proof.
  intro H. destruct l as [|y l]; [reflexivity|]. cbn [insert_by].
  inversion H as [|? ? Hy _]; subst. unfold key_le in Hy.
  apply Qgtb_false in Hy. rewrite Hy. reflexivity.
Qed.

Lemma sort_by_sorted_input (l : list A) :
  StronglySorted (key_le key) l -> sort_by key l = l.
Proof.
  induction 1 as [|x l _ IH Hall]; [reflexivity|].
  cbn [sort_by fold_right]. fold (sort_by key l). rewrite IH.
  apply insert_by_least, Hall.
Qed.

Lemma sorted_filter (f : A -> bool) (l : list A) :
  StronglySorted (key_le key) l -> StronglySorted (key_le key) (filter f l).
Proof.
  induction 1 as [|x l _ IH Hall]; [constructor|]. cbn [filter].
  destruct (f x); [|exact IH]. constructor; [exact IH|].
  apply Forall_forall. intros y Hy. apply filter_In in Hy.
  rewrite Forall_forall in Hall. apply Hall. tauto.
Qed.
End SortedInput.

(** X7.  Sorting the records again changes nothing, a list in order is left as
    it is, and the sort keeps the length and the elements. *)
Theorem least_confident_first_idempotent (l : list image_info) :
  least_confident_first (least_confident_first l) = least_confident_first l /\
  (StronglySorted (key_le info_top_confidence) l -> least_confident_first l = l) /\
  List.length (least_confident_first l) = List.length l /\
  forall i, In i (least_confident_first l) <-> In i l.
Proof.
  unfold least_confident_first. split; [|split; [|split]].
  - apply sort_by_sorted_input, sort_by_sorted.
  - apply sort_by_sorted_input.
  - symmetry. apply Permutation_length, sort_by_perm.
  - intro i. split; apply Permutation_in;
      [symmetry|]; apply sort_by_perm.
Qed.

Section OrderKept.
Context {A : Type}.
Variable key : A -> string.

Lemma queue_of_absent (k : string) (d : list (string * list A)) :
  ~ In k (map fst d) -> queue_of k d = [].
Proof.
  induction d as [|e d IH]; intro H; [reflexivity|].
  unfold queue_of in *. cbn [flat_map].
  destruct (String.eqb_spec (fst e) k) as [E|_].
  - exfalso. apply H. left. exact E.
  - apply IH. intro I. apply H. right. exact I.
Qed.

Lemma heads_absent (k : string) (d : list (string * list A)) :
  well_keyed key d -> ~ In k (map fst d) -> filter (with_key key k) (heads d) = [].
Proof.
  intros [_ W] H. induction d as [|e d IH]; [reflexivity|].
  unfold heads in *. cbn [flat_map]. rewrite filter_app, IH.
  - destruct (snd e) as [|x q] eqn:Q; [reflexivity|]. cbn [filter app].
    unfold with_key. rewrite (W e (or_introl eq_refl) x) by (rewrite Q; left; reflexivity).
    destruct (String.eqb_spec (fst e) k) as [E|_]; [|reflexivity].
    exfalso. apply H. left. exact E.
  - intros e' He'. apply W. right. exact He'.
  - intro I. apply H. right. exact I.
Qed.

Lemma queue_round (k : string) (d : list (string * list A)) :
  well_keyed key d ->
  queue_of k d = filter (with_key key k) (heads d) ++ queue_of k (tails d).
Proof.
  intros [N W]. induction d as [|e d IH]; [reflexivity|].
  inversion N as [|? ? Ha N']; subst.
  assert (W' : forall e', In e' d -> forall x, In x (snd e') -> key x = fst e')
    by (intros e' He'; apply W; right; exact He').
  unfold queue_of, heads, tails in *. cbn [flat_map map fst snd].
  rewrite filter_app.
  destruct (String.eqb_spec (fst e) k) as [E|NE].
  - subst k.
    fold (queue_of (fst e) d). fold (heads d). fold (tails d).
    fold (queue_of (fst e) (tails d)).
    rewrite (queue_of_absent (fst e) d Ha).
    rewrite (heads_absent (fst e) d (conj N' W') Ha).
    rewrite queue_of_absent by (unfold tails; rewrite map_map; exact Ha).
    rewrite !app_nil_r. destruct (snd e) as [|x q] eqn:Q; [reflexivity|].
    cbn [filter tl app]. unfold with_key.
    rewrite (W e (or_introl eq_refl) x) by (rewrite Q; left; reflexivity).
    rewrite String.eqb_refl. reflexivity.
  - rewrite (IH N' W'). cbn [app].
    destruct (snd e) as [|x q] eqn:Q; [reflexivity|]. cbn [filter app].
    unfold with_key. rewrite (W e (or_introl eq_refl) x) by (rewrite Q; left; reflexivity).
    apply String.eqb_neq in NE. rewrite NE. reflexivity.
Qed.

Lemma heads_nil_queue (k : string) (d : list (string * list A)) :
  heads d = [] -> queue_of k d = [].
Proof.
  induction d as [|e d IH]; [reflexivity|].
  unfold heads, queue_of in *. cbn [flat_map]. intro H.
  destruct (snd e) as [|x q]; [|discriminate H]. cbn [app] in H.
  rewrite (IH H). destruct (String.eqb (fst e) k); reflexivity.
Qed.

Lemma interleave_queue (fuel : nat) : forall (d : list (string * list A)) out,
  well_keyed key d -> interleave fuel d = Some out ->
  forall k, filter (with_key key k) out = queue_of k d.
Proof.
  induction fuel as [|fuel IH]; intros d out W H k; [discriminate H|].
  cbn [interleave] in H. rewrite take_round_spec in H.
  destruct (heads d) as [|h o] eqn:E.
  - injection H as <-. symmetry. apply heads_nil_queue, E.
  - destruct (interleave fuel (tails d)) as [out'|] eqn:I; [|discriminate H].
    cbn [option_map] in H. injection H as <-.
    change (h :: o ++ out') with ((h :: o) ++ out').
    rewrite filter_app, (IH (tails d) out' (well_keyed_tails key d W) I k).
    rewrite <- E. symmetry. apply queue_round, W.
Qed.

Lemma queue_of_partition (l : list A) (k : string) :
  queue_of k (partition_by_key key (fun x => x) l) = filter (with_key key k) l.
Proof.
  unfold partition_by_key.
  assert (G : forall ks, NoDup ks ->
            queue_of k (map (fun k' => (k', bucket key (fun x => x) l k')) ks)
            = if existsb (String.eqb k) ks then filter (with_key key k) l else []).
  { induction ks as [|a ks IH]; intro N; [reflexivity|].
    inversion N as [|? ? Ha N']; subst.
    unfold queue_of in *. cbn [map flat_map fst snd existsb].
    rewrite (IH N'). rewrite (String.eqb_sym k a).
    destruct (String.eqb_spec a k) as [->|NE]; cbn [orb].
    - destruct (existsb (String.eqb k) ks) eqn:X.
      + apply existsb_exists in X. destruct X as (y & Hy & Ey).
        apply String.eqb_eq in Ey. subst y. contradiction.
      + rewrite app_nil_r. unfold bucket. rewrite map_id. reflexivity.
    - reflexivity. }
  rewrite G by apply first_seen_NoDup.
  destruct (existsb (String.eqb k) (first_seen (map key l))) eqn:X; [reflexivity|].
  symmetry. 
  assert (B : bucket key (fun x => x) l k = []).
  { apply bucket_absent. intro I. apply first_seen_In in I.
    assert (existsb (String.eqb k) (first_seen (map key l)) = true).
    { apply existsb_exists. exists k. split; [exact I|apply String.eqb_refl]. }
    congruence. }
  unfold bucket in B. rewrite map_id in B. exact B.
Qed.

Lemma stratify_filter (l out : list A) :
  stratify key (fun x => x) l = Some out ->
  forall k, filter (with_key key k) out = filter (with_key key k) l.
Proof.
  unfold stratify. rewrite build_queues_partition. intros H k.
  rewrite (interleave_queue _ _ out (partition_well_keyed key l) H k).
  apply queue_of_partition.
Qed.
End OrderKept.

(** X8.  Strategy 3 after strategy 1: every record is printed once, and the
    records of each label come in the order of the sorted list, least
    confident first. *)
Theorem stratify_keeps_confidence_order (l : list image_info) :
  exists out,
    stratify_by_label (least_confident_first l) = Some (map info_image out) /\
    Permutation out l /\
    forall label,
      filter (with_key info_top_prediction label) out
      = filter (with_key info_top_prediction label) (least_confident_first l) /\
      StronglySorted (key_le info_top_confidence)
                     (filter (with_key info_top_prediction label) out).
Proof.
  destruct (interleave_terminates info_top_prediction (least_confident_first l))
    as (out & H & P & _).
  exists out. split; [|split].
  - unfold stratify_by_label. rewrite stratify_payload, H. reflexivity.
  - rewrite P. symmetry. apply sort_by_perm.
  - intro label. pose proof (stratify_filter info_top_prediction _ _ H label) as F.
    split; [exact F|]. rewrite F. apply sorted_filter, sort_by_sorted.
Qed.


Lemma dict_set_keys (k : string) (v : Q) (d : predictions) :
  map fst (dict_set k v d)
  = map fst d ++ (if existsb (String.eqb k) (map fst d) then [] else [k]).
Proof.
  induction d as [|[k' v'] d IH]; [reflexivity|].
  cbn [dict_set map fst existsb]. rewrite (String.eqb_sym k k').
  destruct (String.eqb k' k); cbn [map fst orb app].
  - rewrite app_nil_r. reflexivity.
  - rewrite IH. reflexivity.
Qed.

Lemma dict_set_NoDup (k : string) (v : Q) (d : predictions) :
  NoDup (map fst d) -> NoDup (map fst (dict_set k v d)).
Proof.
  intro N. rewrite dict_set_keys.
  destruct (existsb (String.eqb k) (map fst d)) eqn:X.
  - rewrite app_nil_r. exact N.
  - apply NoDup_app; [exact N|repeat constructor; intros []|].
    intros a Ha [<-|[]].
    assert (existsb (String.eqb k) (map fst d) = true)
      by (apply existsb_exists; exists k; split; [exact Ha|apply String.eqb_refl]).
    congruence.
Qed.

Lemma dict_set_In (k : string) (v : Q) (d : predictions) (e : string * Q) :
  In e (dict_set k v d) -> In e d \/ e = (k, v).
Proof.
  induction d as [|[k' v'] d IH]; cbn [dict_set].
  - intros [<-|[]]. right. reflexivity.
  - destruct (String.eqb_spec k' k) as [->|_].
    + intros [<-|H]; [right; reflexivity|left; right; exact H].
    + intros [<-|H]; [left; left; reflexivity|].
      destruct (IH H) as [H'|H']; [left; right; exact H'|right; exact H'].
Qed.

Lemma dict_set_length (k : string) (v : Q) (d : predictions) :
  (List.length (dict_set k v d) <= S (List.length d))%nat.
Proof.
  induction d as [|[k' v'] d IH]; cbn [dict_set]; [cbn; lia|].
  destruct (String.eqb k' k); cbn [List.length]; lia.
Qed.

Lemma label_predictions_dict (labels : list string) (scores : list Q) (ids : list nat) :
  forall d0 d,
  label_predictions labels scores ids d0 = Some d ->
  NoDup (map fst d0) ->
  NoDup (map fst d) /\
  (List.length d <= List.length d0 + List.length ids)%nat /\
  forall e, In e d ->
            In e d0 \/
            exists i, In i ids /\ nth_error labels i = Some (fst e)
                      /\ nth_error scores i = Some (snd e).
Proof.
  induction ids as [|i ids IH]; intros d0 d H N.
  - cbn in H. injection H as <-. split; [exact N|]. split; [lia|]. auto.
  - cbn [label_predictions] in H.
    destruct (nth_error labels i) as [l|] eqn:L; [|discriminate H].
    destruct (nth_error scores i) as [s|] eqn:S; [|discriminate H].
    destruct (IH _ _ H (dict_set_NoDup l s d0 N)) as (N' & Len & P).
    split; [exact N'|]. split.
    + pose proof (dict_set_length l s d0). cbn [List.length]. lia.
    + intros e He. destruct (P e He) as [H0|(j & Hj & Lj & Sj)].
      * apply dict_set_In in H0. destruct H0 as [H0| ->]; [left; exact H0|].
        right. exists i. split; [left; reflexivity|]. split; assumption.
      * right. exists j. split; [right; exact Hj|]. split; assumption.
Qed.

(** X10.  The dict [run_graph] returns has pairwise distinct labels, at most as
    many entries as nodes were kept, and each entry is the label and score of
    a kept node. *)
Theorem run_graph_dict_keys (labels : list string) (scores : list Q)
  (order : list nat) (k : Z) (d : predictions) :
  run_graph_dict labels scores order k = Some d ->
  NoDup (map fst d) /\
  (List.length d <= List.length (top_k k order))%nat /\
  forall e, In e d ->
            exists i, In i (top_k k order) /\ nth_error labels i = Some (fst e)
                      /\ nth_error scores i = Some (snd e).
Proof.
  unfold run_graph_dict. intro H.
  destruct (label_predictions_dict _ _ _ _ _ H (NoDup_nil _)) as (N & L & P).
  split; [exact N|]. split; [exact L|].
  intros e He. destruct (P e He) as [[]|X]. exact X.
Qed.

(** X10 on three nodes of which two have the label [cat]. *)
Lemma run_graph_dict_keys_witness :
  NoDup (map fst [("cat", 1 # 10); ("dog", 2 # 10)]%Q) /\
  (List.length [("cat", 1 # 10); ("dog", 2 # 10)]%Q
   <= List.length (top_k 3 [2; 0; 1]%nat))%nat /\
  forall e, In e [("cat", 1 # 10); ("dog", 2 # 10)]%Q ->
            exists i, In i (top_k 3 [2; 0; 1]%nat)
                      /\ nth_error ["dog"; "cat"; "cat"] i = Some (fst e)
                      /\ nth_error [2 # 10; 7 # 10; 1 # 10]%Q i = Some (snd e).
Proof.
  apply (run_graph_dict_keys ["dog"; "cat"; "cat"] [2 # 10; 7 # 10; 1 # 10]%Q
           [2; 0; 1]%nat 3).
  reflexivity.
Defined.

Lemma dict_set_new (k : string) (v : Q) (d : predictions) :
  ~ In k (map fst d) -> dict_set k v d = d ++ [(k, v)].
Proof.
  induction d as [|[k' v'] d IH]; intro H; [reflexivity|].
  cbn [dict_set app]. destruct (String.eqb_spec k' k) as [E|_].
  - exfalso. apply H. left. exact E.
  - rewrite IH; [reflexivity|]. intro I. apply H. right. exact I.
Qed.

Lemma nth_error_nth_default (A : Type) (l : list A) (i : nat) (a : A) :
  (i < List.length l)%nat -> nth_error l i = Some (nth i l a).
Proof. intro H. apply nth_error_nth'. exact H. Qed.

Lemma label_predictions_fresh (labels : list string) (scores : list Q) (ids : list nat) :
  NoDup labels ->
  forall d0,
  NoDup ids ->
  (forall i, In i ids -> (i < List.length labels)%nat /\ (i < List.length scores)%nat) ->
  (forall i, In i ids -> ~ In (nth i labels "") (map fst d0)) ->
  label_predictions labels scores ids d0
  = Some (d0 ++ map (entry_of labels scores) ids).
Proof.
  intro NL. induction ids as [|i ids IH]; intros d0 N B F.
  - cbn. rewrite app_nil_r. reflexivity.
  - inversion N as [|? ? Hi N']; subst.
    destruct (B i (or_introl eq_refl)) as [B1 B2].
    cbn [label_predictions].
    rewrite (nth_error_nth_default _ labels i "" B1).
    rewrite (nth_error_nth_default _ scores i 0%Q B2).
    rewrite dict_set_new by (apply F; left; reflexivity).
    rewrite IH.
    + rewrite <- app_assoc. reflexivity.
    + exact N'.
    + intros j Hj. apply B. right. exact Hj.
    + intros j Hj. rewrite map_app. cbn [map fst]. intro I.
      apply in_app_or in I. destruct I as [I|[I|[]]].
      * apply (F j); [right; exact Hj|exact I].
      * destruct (B j (or_intror Hj)) as [Bj _].
        assert (i = j).
        { apply (proj1 (NoDup_nth labels "") NL i j B1 Bj). exact I. }
        subst j. contradiction.
Qed.

Lemma sorted_app_le (A : Type) (R : A -> A -> Prop) (l1 l2 : list A) :
  StronglySorted R (l1 ++ l2) ->
  StronglySorted R l2 /\ forall x y, In x l1 -> In y l2 -> R x y.
Proof.
  induction l1 as [|a l1 IH]; intro H.
  - split; [exact H|]. intros x y [].
  - cbn [app] in H. inversion H as [|? ? Hs Hall]; subst.
    destruct (IH Hs) as [S2 L]. split; [exact S2|].
    intros x y [<-|Hx] Hy.
    + rewrite Forall_forall in Hall. apply Hall. apply in_or_app. right. exact Hy.
    + apply L; assumption.
Qed.

Lemma sorted_rev (A : Type) (R : A -> A -> Prop) (l : list A) :
  StronglySorted R l -> StronglySorted (fun a b => R b a) (rev l).
Proof.
  induction 1 as [|a l _ IH Hall]; [constructor|].
  cbn [rev]. 
  assert (G : forall l', StronglySorted (fun a b => R b a) l' ->
              Forall (fun x => R a x) l' ->
              StronglySorted (fun a b => R b a) (l' ++ [a])).
  { clear. induction 1 as [|x l' Hs IH' Hx]; intro F.
    - constructor; constructor.
    - inversion F as [|? ? Hax F']; subst. cbn [app]. constructor.
      + apply IH', F'.
      + apply Forall_app. split; [exact Hx|]. constructor; [exact Hax|constructor]. }
  apply G; [exact IH|]. apply Forall_forall. intros x Hx.
  rewrite Forall_forall in Hall. apply Hall. apply in_rev. exact Hx.
Qed.

Lemma sorted_map (A B : Type) (R : A -> A -> Prop) (S : B -> B -> Prop)
  (f : A -> B) (l : list A) :
  (forall a b, R a b -> S (f a) (f b)) ->
  StronglySorted R l -> StronglySorted S (map f l).
Proof.
  intros H. induction 1 as [|a l _ IH Hall]; [constructor|].
  cbn [map]. constructor; [exact IH|].
  apply Forall_map. revert Hall. apply Forall_impl. intro b. apply H.
Qed.

(** X13.  With distinct labels, one for every score, and a sorting argsort, the
    dict lists the kept nodes by non-increasing score, no other node scores
    more than a listed one, and the top-2 loop of [main] returns its first
    two entries when the second score is positive. *)
Theorem run_graph_dict_descending (labels : list string) (scores : list Q)
  (order : list nat) (k : Z) :
  NoDup labels ->
  (List.length scores <= List.length labels)%nat ->
  Permutation order (seq 0 (List.length scores)) ->
  StronglySorted (score_le scores) order ->
  let d := map (entry_of labels scores) (top_k k order) in
  run_graph_dict labels scores order k = Some d /\
  descending d /\
  (forall i e, (i < List.length scores)%nat -> ~ In i (top_k k order) -> In e d ->
               (nth i scores 0 <= snd e)%Q) /\
  (forall p1 p2 rest, d = p1 :: p2 :: rest -> (0 < snd p2)%Q ->
                      top_two d = mk_top2 (fst p1) (snd p1) (fst p2) (snd p2)).
Proof.
  intros NL Len P S d.
  assert (NO : NoDup order).
  { apply (Permutation_NoDup (Permutation_sym P)), seq_NoDup. }
  assert (BO : forall i, In i order -> (i < List.length scores)%nat).
  { intros i Hi. apply (Permutation_in _ P) in Hi. apply in_seq in Hi. lia. }
  set (start := Z.to_nat (if (0 <? k)%Z
                          then Z.max 0 (Z.of_nat (List.length order) - k)
                          else Z.min (- k) (Z.of_nat (List.length order)))).
  assert (Ek : top_k k order = rev (skipn start order)) by reflexivity.
  assert (Split : order = firstn start order ++ skipn start order)
    by (symmetry; apply firstn_skipn).
  assert (In_k : forall i, In i (top_k k order) -> In i (skipn start order))
    by (intros i Hi; rewrite Ek in Hi; apply in_rev; exact Hi).
  assert (In_o : forall i, In i (top_k k order) -> In i order).
  { intros i Hi. rewrite Split. apply in_or_app. right. apply In_k, Hi. }
  rewrite Split in S. apply sorted_app_le in S. destruct S as [S2 L].
  assert (D : descending d).
  { unfold descending, d. rewrite Ek.
    apply (sorted_map _ _ (fun a b => score_le scores b a)).
    - intros a b H. exact H.
    - apply sorted_rev, S2. }
  split; [|split; [exact D|split]].
  - unfold run_graph_dict. rewrite label_predictions_fresh; [reflexivity|exact NL| | |].
    + rewrite Ek. apply NoDup_rev. rewrite Split in NO.
      apply NoDup_app_remove_l in NO. exact NO.
    + intros i Hi. pose proof (BO i (In_o i Hi)). lia.
    + intros i _ [].
  - intros i e Hi Ni He. unfold d in He. apply in_map_iff in He.
    destruct He as (j & <- & Hj). cbn [snd entry_of]. apply L; [|apply In_k, Hj].
    assert (Io : In i order).
    { apply (Permutation_in _ (Permutation_sym P)). apply in_seq. lia. }
    rewrite Split in Io. apply in_app_or in Io. destruct Io as [Io|Io]; [exact Io|].
    exfalso. apply Ni. rewrite Ek. apply in_rev. rewrite rev_involutive. exact Io.
  - intros p1 p2 rest E P2. rewrite E in D |- *. unfold descending in D.
    inversion D as [|? ? D1 F1]; subst. inversion D1 as [|? ? D2 F2]; subst.
    inversion F1 as [|? ? H12 _]; subst.
    unfold top_two. cbn [fold_left]. rewrite (top2_first_two _ _ P2 H12).
    apply top2_fold_low; cbn [second_confidence top_confidence]; [exact H12|].
    intros x Hx. rewrite Forall_forall in F2. apply F2, Hx.
Qed.

(** X13 on three labels, keeping two. *)
Lemma run_graph_dict_descending_witness :
  let d := map (entry_of ["dog"; "cat"; "bird"] [2 # 10; 7 # 10; 1 # 10]%Q)
               (top_k 2 [2; 0; 1]%nat) in
  run_graph_dict ["dog"; "cat"; "bird"] [2 # 10; 7 # 10; 1 # 10]%Q [2; 0; 1]%nat 2
  = Some d /\
  descending d /\
  (forall i e, (i < 3)%nat -> ~ In i (top_k 2 [2; 0; 1]%nat) -> In e d ->
               (nth i [2 # 10; 7 # 10; 1 # 10]%Q 0 <= snd e)%Q) /\
  (forall p1 p2 rest, d = p1 :: p2 :: rest -> (0 < snd p2)%Q ->
                      top_two d = mk_top2 (fst p1) (snd p1) (fst p2) (snd p2)).
Proof.
  apply (run_graph_dict_descending ["dog"; "cat"; "bird"]
           [2 # 10; 7 # 10; 1 # 10]%Q [2; 0; 1]%nat 2).
  - repeat constructor; cbn; intuition discriminate.
  - cbn. lia.
  - cbn. apply perm_trans with [0; 2; 1]%nat; [apply perm_swap|].
    apply perm_skip, perm_swap.
  - unfold score_le. repeat constructor; cbn; discriminate.
Defined.

(** X12.  [run_graph] raises [IndexError] exactly when a kept node has no label
    (or no score). *)
Theorem run_graph_dict_index_error (labels : list string) (scores : list Q)
  (order : list nat) (k : Z) :
  run_graph_dict labels scores order k = None <->
  exists i, In i (top_k k order) /\
            ((List.length labels <= i)%nat \/ (List.length scores <= i)%nat).
Proof.
  unfold run_graph_dict. generalize (@nil (string * Q)) as d0.
  induction (top_k k order) as [|i ids IH]; intro d0.
  - cbn. split; [discriminate|]. intros (i & [] & _).
  - cbn [label_predictions].
    destruct (nth_error labels i) as [l|] eqn:L.
    + destruct (nth_error scores i) as [s|] eqn:S.
      * rewrite IH. split.
        -- intros (j & Hj & B). exists j. split; [right; exact Hj|exact B].
        -- intros (j & [<-|Hj] & B).
           ++ exfalso. destruct B as [B|B].
              ** apply nth_error_None in B. congruence.
              ** apply nth_error_None in B. congruence.
           ++ exists j. split; assumption.
      * split; [|reflexivity]. intros _. exists i. split; [left; reflexivity|].
        right. apply nth_error_None, S.
    + split; [|reflexivity]. intros _. exists i. split; [left; reflexivity|].
      left. apply nth_error_None, L.
Qed.

Lemma space_not_label : is_label_char " " = false.
Proof. reflexivity. Qed.

Lemma squash_chars (b : bool) (l : list ascii) :
  Forall label_or_space (squash_forbidden b l).
Proof.
  revert b. induction l as [|c l IH]; intro b; [constructor|].
  cbn [squash_forbidden]. destruct (is_label_char c) eqn:E.
  - constructor; [left; exact E|apply IH].
  - destruct b; [apply IH|]. constructor; [right; reflexivity|apply IH].
Qed.

Lemma squash_spaced (l : list ascii) : forall b,
  single_spaced (squash_forbidden b l) /\
  (b = true -> forall r, squash_forbidden b l <> " "%char :: r).
Proof.
  induction l as [|c l IH]; intro b.
  - split; [exact I|]. intros _ r. discriminate.
  - cbn [squash_forbidden]. destruct (is_label_char c) eqn:E.
    + destruct (IH false) as [S _]. split.
      * destruct (squash_forbidden false l) as [|x r] eqn:Q; [exact I|].
        split; [|exact S]. intros [-> _]. rewrite space_not_label in E. discriminate E.
      * intros _ r H. injection H as -> _. rewrite space_not_label in E. discriminate E.
    + destruct (IH true) as [S N]. destruct b.
      * split; [exact S|]. intros _ r. apply N. reflexivity.
      * split; [|discriminate].
        destruct (squash_forbidden true l) as [|x r] eqn:Q; [exact I|].
        split; [|exact S]. intros [_ ->]. apply (N eq_refl r). reflexivity.
Qed.

Lemma lower_label_char (c : ascii) : label_or_space c -> lower_char c = c.
Proof.
  unfold lower_char, is_label_char. intros [H| ->]; [|reflexivity].
  set (n := nat_of_ascii c) in *.
  assert (R : (97 <= n <= 122 \/ 48 <= n <= 57)%nat).
  { apply orb_true_iff in H.
    destruct H as [H|H]; apply andb_true_iff in H; destruct H as [H1 H2];
      apply Nat.leb_le in H1, H2; lia. }
  assert (U : (n <=? 90)%nat && (65 <=? n)%nat = false).
  { destruct (Nat.leb_spec n 90); destruct (Nat.leb_spec 65 n); try reflexivity; lia. }
  assert (V : (192 <=? n)%nat = false) by (apply Nat.leb_gt; lia).
  rewrite andb_comm, U, V. reflexivity.
Qed.

Lemma squash_normal (l : list ascii) :
  normal_label l -> squash_forbidden false l = l.
Proof.
  intros [F S]. induction l as [|c l IH]; [reflexivity|].
  inversion F as [|? ? Hc F']; subst. cbn [squash_forbidden].
  destruct Hc as [Hc| ->].
  - rewrite Hc. f_equal. apply IH; [exact F'|].
    destruct l; [exact I|]. cbn in S. apply S.
  - rewrite space_not_label. f_equal.
    destruct l as [|d l]; [reflexivity|].
    cbn [single_spaced] in S. destruct S as [N S].
    inversion F' as [|? ? Hd F'']; subst.
    destruct Hd as [Hd| ->]; [|exfalso; apply N; split; reflexivity].
    cbn [squash_forbidden]. rewrite Hd. f_equal.
    specialize (IH F' S). cbn [squash_forbidden] in IH. rewrite Hd in IH.
    injection IH as IH. exact IH.
Qed.

Lemma no_slash_kept (l : list ascii) :
  ~ In "/"%char l -> after_last_slash l = None.
Proof.
  induction l as [|c l IH]; intro H; [reflexivity|]. cbn [after_last_slash].
  destruct (Ascii.eqb c "010"); [reflexivity|].
  rewrite IH by (intro I; apply H; right; exact I).
  destruct (Ascii.eqb_spec c "/") as [->|_]; [|reflexivity].
  exfalso. apply H. left. reflexivity.
Qed.

Lemma after_directory (d x : list ascii) :
  ~ In "010"%char d -> ~ In "/"%char x ->
  after_last_slash (d ++ "/"%char :: x) = Some x.
Proof.
  intros Hd Hx. induction d as [|c d IH].
  - cbn [app after_last_slash]. rewrite (no_slash_kept x Hx). reflexivity.
  - cbn [app after_last_slash].
    destruct (Ascii.eqb_spec c "010") as [->|_].
    + exfalso. apply Hd. left. reflexivity.
    + rewrite IH; [reflexivity|]. intro I. apply Hd. right. exact I.
Qed.

Lemma list_ascii_app (s1 s2 : string) :
  list_ascii_of_string (s1 ++ s2)
  = list_ascii_of_string s1 ++ list_ascii_of_string s2.
Proof.
  induction s1 as [|c s1 IH]; [reflexivity|]. cbn. rewrite IH. reflexivity.
Qed.

Lemma label_chars_no_slash (l : list ascii) :
  Forall label_or_space l -> ~ In "/"%char l.
Proof.
  intros F I. rewrite Forall_forall in F. destruct (F _ I) as [H|H]; discriminate H.
Qed.

(** The characters of a directory label. *)
Lemma label_of_dir_chars (label_dir : string) :
  normal_label (list_ascii_of_string (label_of_dir label_dir)).
Proof.
  unfold label_of_dir. rewrite list_ascii_of_string_of_list_ascii.
  split; [apply squash_chars|apply squash_spaced].
Qed.

(** X14.  A directory label consists of the characters a-z, 0-9 and single
    spaces, and normalising it again gives the same label. *)
Theorem label_of_dir_normal (label_dir : string) :
  normal_label (list_ascii_of_string (label_of_dir label_dir)) /\
  label_of_dir (label_of_dir label_dir) = label_of_dir label_dir.
Proof.
  pose proof (label_of_dir_chars label_dir) as N.
  split; [exact N|].
  unfold label_of_dir at 1.
  set (r := list_ascii_of_string (label_of_dir label_dir)) in *.
  unfold strip_directories.
  rewrite (no_slash_kept r (label_chars_no_slash r (proj1 N))).
  assert (L : map lower_char r = r).
  { destruct N as [F _]. clear -F. induction F as [|c l Hc F IH]; [reflexivity|].
    cbn [map]. rewrite (lower_label_char c Hc), IH. reflexivity. }
  rewrite L, (squash_normal r N). unfold r.
  apply string_of_list_ascii_of_string.
Qed.

(** X15.  The label of [directory/name] is the label of [name], when the name
    has no slash and the directory no line feed. *)
Theorem label_ignores_directory (directory name : string) :
  ~ In "010"%char (list_ascii_of_string directory) ->
  ~ In "/"%char (list_ascii_of_string name) ->
  label_of_dir (directory ++ "/" ++ name) = label_of_dir name.
Proof.
  intros Hd Hn. unfold label_of_dir, strip_directories.
  rewrite list_ascii_app. cbn [append list_ascii_of_string].
  rewrite (after_directory _ _ Hd Hn), (no_slash_kept _ Hn). reflexivity.
Qed.

(** X15 on a directory of [raw_data]. *)
Lemma label_ignores_directory_witness :
  label_of_dir ("raw_data" ++ "/" ++ "Golden Retriever_01")
  = label_of_dir "Golden Retriever_01".
Proof.
  apply (label_ignores_directory "raw_data" "Golden Retriever_01").
  - cbn. intuition discriminate.
  - cbn. intuition discriminate.
Defined.

(** X16.  A top prediction that is not in the form of a directory label (an
    upper-case letter, an underscore, two spaces) never counts as a true
    positive: it adds a false negative and a false positive. *)
Theorem unnormalised_prediction_misses (label_dir top : string) (c : counters) :
  ~ normal_label (list_ascii_of_string top) ->
  update_metrics (label_of_dir label_dir) top c
  = mk_counters (S (count c)) (tp c) (S (fn c)) (S (fp c)).
Proof.
  intro H. apply update_metrics_miss. intros ->. apply H.
  apply label_of_dir_chars.
Qed.

(** X16 on the prediction [Cat] for the directory [Cat]. *)
Lemma unnormalised_prediction_misses_witness :
  update_metrics (label_of_dir "d/Cat") "Cat" counters0 = mk_counters 1 0 1 1.
Proof.
  apply (unnormalised_prediction_misses "d/Cat" "Cat" counters0).
  intros [F _]. inversion F as [|? ? Hc _]; subst.
  destruct Hc as [Hc|Hc]; discriminate Hc.
Defined.

Lemma length_append (p s : string) :
  String.length (p ++ s) = (String.length p + String.length s)%nat.
Proof. induction p as [|c p IH]; [reflexivity|]. cbn. rewrite IH. reflexivity. Qed.

Lemma substring_all (s : string) : substring 0 (String.length s) s = s.
Proof. induction s as [|c s IH]; [reflexivity|]. cbn. rewrite IH. reflexivity. Qed.

Lemma substring_suffix (p s : string) :
  substring (String.length p) (String.length s) (p ++ s) = s.
Proof. induction p as [|c p IH]; [apply substring_all|]. cbn. exact IH. Qed.

Lemma substring_split (s : string) : forall n,
  (n <= String.length s)%nat ->
  exists p, s = (p ++ substring n (String.length s - n) s)%string.
Proof.
  induction s as [|c s IH]; intros n H.
  - exists "". destruct n; reflexivity.
  - destruct n as [|n].
    + exists "". cbn [append]. rewrite Nat.sub_0_r. symmetry. apply substring_all.
    + cbn in H. destruct (IH n) as (p & E); [lia|].
      exists (String c p). cbn. rewrite <- E. reflexivity.
Qed.

Lemma endswith_spec (s suffix : string) :
  endswith s suffix = true <-> exists p, s = (p ++ suffix)%string.
Proof.
  unfold endswith. rewrite andb_true_iff, Nat.leb_le, String.eqb_eq. split.
  - intros [L E].
    destruct (substring_split s (String.length s - String.length suffix)) as (p & Hp);
      [lia|].
    exists p. rewrite Hp at 1. f_equal.
    replace (String.length s - (String.length s - String.length suffix))%nat
      with (String.length suffix) by lia.
    exact E.
  - intros (p & ->). rewrite length_append. split; [lia|].
    replace (String.length p + String.length suffix - String.length suffix)%nat
      with (String.length p) by lia.
    apply substring_suffix.
Qed.

(** X17.  A file gets predictions only if its name is some [p] followed by
    [.jpg] or [.jpeg], and every such name is passed to the classifier. *)
Theorem get_image_prediction_jpeg (run_graph : string -> predictions) (image : string) :
  (get_image_prediction run_graph image <> [] ->
   exists p, image = (p ++ ".jpg")%string \/ image = (p ++ ".jpeg")%string) /\
  (forall p, get_image_prediction run_graph (p ++ ".jpg") = run_graph (p ++ ".jpg")%string) /\
  (forall p, get_image_prediction run_graph (p ++ ".jpeg") = run_graph (p ++ ".jpeg")%string).
Proof.
  unfold get_image_prediction. split; [|split].
  - intro H. destruct (endswith image ".jpg") eqn:J.
    + apply endswith_spec in J. destruct J as (p & ->). exists p. left. reflexivity.
    + destruct (endswith image ".jpeg") eqn:J'.
      * apply endswith_spec in J'. destruct J' as (p & ->). exists p. right. reflexivity.
      * exfalso. apply H. reflexivity.
  - intro p. assert (E : endswith (p ++ ".jpg") ".jpg" = true)
      by (apply endswith_spec; exists p; reflexivity).
    rewrite E. reflexivity.
  - intro p. assert (E : endswith (p ++ ".jpeg") ".jpeg" = true)
      by (apply endswith_spec; exists p; reflexivity).
    rewrite E, orb_true_r. reflexivity.
Qed.

Lemma drop_while_split (f : ascii -> bool) (l : list ascii) :
  exists ws, l = ws ++ drop_while f l /\ Forall (fun c => f c = true) ws /\
             (forall c r, drop_while f l = c :: r -> f c = false).
Proof.
  induction l as [|c l IH].
  - exists []. repeat split; [constructor|discriminate].
  - cbn [drop_while]. destruct (f c) eqn:E.
    + destruct IH as (ws & E1 & F & N). exists (c :: ws).
      split; [cbn; rewrite <- E1; reflexivity|]. split; [constructor; assumption|exact N].
    + exists []. split; [reflexivity|]. split; [constructor|].
      intros c' r H. injection H as <- _. exact E.
Qed.

Lemma drop_while_fixed (f : ascii -> bool) (l : list ascii) :
  (forall c r, l = c :: r -> f c = false) -> drop_while f l = l.
Proof.
  destruct l as [|c l]; [reflexivity|]. intro H. cbn [drop_while].
  rewrite (H c l eq_refl). reflexivity.
Qed.

(** The separators 28 to 31, the no-break space and the next-line character
    are stripped like the space and the line feed. *)
Lemma rstrip_separators :
  rstrip (String "c" (String "a" (String "t"
            (String (ascii_of_nat 31) (String (ascii_of_nat 160)
               (String (ascii_of_nat 133) (String "010" "")))))))
  = "cat".
Proof. reflexivity. Qed.

(** X18.  [load_labels] returns one label per line: the line without its
    trailing whitespace (the characters 9 to 13, 28 to 32, 133 and 160), which
    stripping again leaves as it is. *)
Theorem load_labels_stripped (lines : list string) :
  List.length (load_labels lines) = List.length lines /\
  Forall2 (fun line label =>
             (exists ws, list_ascii_of_string line = list_ascii_of_string label ++ ws
                         /\ Forall (fun c => is_space c = true) ws) /\
             (forall l c, list_ascii_of_string label = l ++ [c] -> is_space c = false) /\
             rstrip label = label)
          lines (load_labels lines).
Proof.
  unfold load_labels. split; [apply length_map|].
  induction lines as [|s lines IH]; [constructor|]. cbn [map]. constructor; [|exact IH].
  unfold rstrip.
  destruct (drop_while_split is_space (rev (list_ascii_of_string s))) as (ws & E & F & N).
  set (k := drop_while is_space (rev (list_ascii_of_string s))) in *.
  rewrite !list_ascii_of_string_of_list_ascii.
  assert (Last : forall l c, rev k = l ++ [c] -> is_space c = false).
  { intros l c H. apply (f_equal (@rev ascii)) in H.
    rewrite rev_involutive, rev_app_distr in H. cbn in H. apply (N c (rev l) H). }
  split; [|split].
  - exists (rev ws). split.
    + apply (f_equal (@rev ascii)) in E. rewrite rev_involutive, rev_app_distr in E.
      exact E.
    + apply Forall_rev, F.
  - exact Last.
  - rewrite rev_involutive. rewrite (drop_while_fixed is_space k N). reflexivity.
Qed.

Lemma ratio_ltb_false (a b : ratio) : ratio_ltb a b = false <-> ratio_le b a.
Proof.
  destruct a as [x|], b as [y|]; cbn; try tauto.
  - apply Qgtb_false.
  - split; [discriminate|tauto].
Qed.

Lemma ratio_ltb_true (a b : ratio) : ratio_ltb a b = true -> ratio_le a b.
Proof.
  destruct a as [x|], b as [y|]; cbn; try tauto; try discriminate.
  intro H. apply Qgtb_true in H. lra.
Qed.

Lemma ratio_le_trans (a b c : ratio) : ratio_le a b -> ratio_le b c -> ratio_le a c.
Proof.
  destruct a as [x|], b as [y|], c as [z|]; cbn; try tauto. intros. lra.
Qed.

Section SortRatioFacts.
Context {A : Type}.
Variable key : A -> ratio.

Lemma insert_by_ratio_perm (x : A) (l : list A) :
  Permutation (x :: l) (insert_by_ratio key x l).
Proof.
  induction l as [|y l IH]; cbn [insert_by_ratio]; [reflexivity|].
  destruct (ratio_ltb (key y) (key x)); [|reflexivity].
  rewrite perm_swap. apply perm_skip, IH.
Qed.

Lemma sort_by_ratio_perm (l : list A) : Permutation l (sort_by_ratio key l).
Proof.
  induction l as [|x l IH]; cbn [sort_by_ratio fold_right]; [constructor|].
  rewrite <- insert_by_ratio_perm. apply perm_skip, IH.
Qed.

Lemma insert_by_ratio_sorted (x : A) (l : list A) :
  StronglySorted (ratio_key_le key) l ->
  StronglySorted (ratio_key_le key) (insert_by_ratio key x l).
Proof.
  induction 1 as [|y l Hs IH Hall]; cbn [insert_by_ratio].
  - constructor; constructor.
  - destruct (ratio_ltb (key y) (key x)) eqn:E.
    + constructor; [exact IH|].
      apply (Permutation_Forall (insert_by_ratio_perm x l)).
      constructor; [apply ratio_ltb_true, E|exact Hall].
    + apply ratio_ltb_false in E. constructor; [constructor; assumption|].
      constructor; [exact E|].
      revert Hall. apply Forall_impl. intros a Ha.
      apply (ratio_le_trans _ (key y)); assumption.
Qed.

Lemma sort_by_ratio_sorted (l : list A) :
  StronglySorted (ratio_key_le key) (sort_by_ratio key l).
Proof.
  induction l as [|x l IH]; cbn [sort_by_ratio fold_right]; [constructor|].
  apply insert_by_ratio_sorted, IH.
Qed.

Lemma ratio_eqb_not_lt (a b r : ratio) :
  ratio_eqb a r = true -> ratio_eqb b r = true -> ratio_ltb a b = false.
Proof.
  destruct a as [x|], b as [y|], r as [z|]; cbn; try discriminate; try reflexivity.
  intros H1 H2. apply Qeq_bool_iff in H1, H2. apply Qgtb_false. lra.
Qed.

Lemma insert_by_ratio_filter (r : ratio) (x : A) (l : list A) :
  filter (has_ratio key r) (insert_by_ratio key x l)
  = filter (has_ratio key r) (x :: l).
Proof.
  induction l as [|y l IH]; [reflexivity|]. cbn [insert_by_ratio].
  destruct (ratio_ltb (key y) (key x)) eqn:E; [|reflexivity].
  cbn [filter] in *. rewrite IH.
  destruct (has_ratio key r x) eqn:Hx; [|reflexivity].
  destruct (has_ratio key r y) eqn:Hy; [exfalso|reflexivity].
  unfold has_ratio in *. rewrite (ratio_eqb_not_lt _ _ r Hy Hx) in E. discriminate E.
Qed.

Lemma sort_by_ratio_stable (r : ratio) (l : list A) :
  filter (has_ratio key r) (sort_by_ratio key l) = filter (has_ratio key r) l.
Proof.
  induction l as [|x l IH]; [reflexivity|].
  cbn [sort_by_ratio fold_right]. rewrite insert_by_ratio_filter.
  cbn [filter]. fold (sort_by_ratio key l). rewrite IH. reflexivity.
Qed.

Lemma ratio_sorted_filter (f : A -> bool) (l : list A) :
  StronglySorted (ratio_key_le key) l ->
  StronglySorted (ratio_key_le key) (filter f l).
Proof.
  induction 1 as [|x l _ IH Hall]; [constructor|]. cbn [filter].
  destruct (f x); [|exact IH]. constructor; [exact IH|].
  apply Forall_forall. intros y Hy. apply filter_In in Hy.
  rewrite Forall_forall in Hall. apply Hall. tauto.
Qed.
End SortRatioFacts.

(** X19.  Strategy 2 orders the records by ratio: a stable sort in which the
    records of infinite ratio come last. *)
Theorem closest_ratio_first_sorted (l : list image_info) :
  Permutation l (closest_ratio_first l) /\
  StronglySorted (ratio_key_le info_ratio) (closest_ratio_first l) /\
  (forall r, filter (has_ratio info_ratio r) (closest_ratio_first l)
             = filter (has_ratio info_ratio r) l) /\
  (forall pre i post, closest_ratio_first l = pre ++ i :: post ->
                      info_ratio i = Infinity ->
                      forall j, In j post -> info_ratio j = Infinity).
Proof.
  unfold closest_ratio_first. split; [apply sort_by_ratio_perm|].
  split; [apply sort_by_ratio_sorted|]. split; [intro r; apply sort_by_ratio_stable|].
  intros pre i post E Hi j Hj.
  pose proof (sort_by_ratio_sorted info_ratio l) as S. rewrite E in S.
  apply sorted_app_le in S. destruct S as [S _].
  inversion S as [|? ? _ Hall]; subst. rewrite Forall_forall in Hall.
  specialize (Hall j Hj). unfold ratio_key_le in Hall. rewrite Hi in Hall.
  destruct (info_ratio j); [destruct Hall|reflexivity].
Qed.

Lemma append_space_inj (s1 : string) : forall t1 s2 t2 : string,
  ~ In " "%char (list_ascii_of_string s1) ->
  ~ In " "%char (list_ascii_of_string s2) ->
  (s1 ++ " " ++ t1 = s2 ++ " " ++ t2)%string -> s1 = s2 /\ t1 = t2.
Proof.
  induction s1 as [|c s1 IH]; intros t1 [|c' s2] t2 N1 N2 E; cbn in E.
  - injection E as ->. split; reflexivity.
  - injection E as <- _. exfalso. apply N2. left. reflexivity.
  - injection E as -> _. exfalso. apply N1. left. reflexivity.
  - injection E as <- E. apply IH in E.
    + destruct E as [-> ->]. split; reflexivity.
    + intro H. apply N1. right. exact H.
    + intro H. apply N2. right. exact H.
Qed.

(** X20.  Strategy 4 sorts the records by ratio, queues their images under
    the string top + " " + second (line 299) and prints round after round, a
    round being the next image of every key that has one left, the keys in
    first-seen order.  It ends, prints every image once, never prints two
    images of one key in a row while an image of another key is still to
    come, and prints the images of each key by increasing ratio.  Records with
    equal keys have the same two labels when their top labels have no space;
    with a space in a label two different pairs can share a key. *)
Theorem stratify_by_label_pair_round_robin (l : list image_info) :
  stratify_by_label_pair l
  = Some (flat_map
            (fun r =>
               flat_map
                 (fun k =>
                    match nth_error
                            (map info_image
                                 (filter (fun i => String.eqb (pair_key i) k)
                                         (closest_ratio_first l)))
                            r with
                    | Some image => [image]
                    | None => []
                    end)
                 (first_seen (map pair_key (closest_ratio_first l))))
            (seq 0 (List.length (closest_ratio_first l)))) /\
  (exists out,
     stratify_by_label_pair l = Some (map info_image out) /\
     Permutation out l /\
     (forall pre x y post,
        out = pre ++ x :: y :: post -> pair_key x = pair_key y ->
        forall z, In z post -> pair_key z = pair_key x) /\
     forall k,
       filter (with_key pair_key k) out
       = filter (with_key pair_key k) (closest_ratio_first l) /\
       StronglySorted (ratio_key_le info_ratio) (filter (with_key pair_key k) out)) /\
  (forall i j,
     ~ In " "%char (list_ascii_of_string (info_top_prediction i)) ->
     ~ In " "%char (list_ascii_of_string (info_top_prediction j)) ->
     pair_key i = pair_key j ->
     info_top_prediction i = info_top_prediction j /\
     info_second_prediction i = info_second_prediction j) /\
  (forall x y p q r p' q' r',
     pair_key (mk_info x "a b" p "c" q r) = pair_key (mk_info y "a" p' "b c" q' r')).
Proof.
  split; [apply (stratify_rounds pair_key info_image (closest_ratio_first l))|].
  split; [|split; [|reflexivity]].
  - destruct (interleave_terminates pair_key (closest_ratio_first l))
      as (out & H & P & Alt).
    exists out. split; [|split; [|split]].
    + unfold stratify_by_label_pair. rewrite stratify_payload, H. reflexivity.
    + rewrite P. symmetry. apply sort_by_ratio_perm.
    + apply alternating_split, Alt.
    + intro k. pose proof (stratify_filter pair_key _ _ H k) as F.
      split; [exact F|]. rewrite F. apply ratio_sorted_filter, sort_by_ratio_sorted.
  - intros i j Ni Nj E. unfold pair_key in E.
    apply (append_space_inj _ _ _ _ Ni Nj E).
Qed.

(** X6.  What a run that ends has printed: for each directory in turn the
    records of its scored images in the order read, the f-score line and the
    f-score; then Micro-f and Macro-f; then the image names, least confident
    first. *)
Theorem run_output (directory : string) (random : nat -> float)
  (run_graph : string -> predictions) (corpus : list (string * list string))
  (o : outcome) :
  main directory random run_graph corpus = Ok o ->
  exists ls : list slice,
    map fst ls = corpus /\
    map (fun s => map (@Ok image_info) (snd s)) ls
    = map (map (image_record run_graph)) (sample_corpus directory random 0 corpus) /\
    map (fun s => map info_image (snd s)) ls = sample_corpus directory random 0 corpus /\
    stdout (final o)
    = flat_map (fun s => map PInfo (snd s)
                         ++ [PText (label_of directory (fst s) ++ " f-score:")%string;
                             PFloat (fscore_of (tp (tally (label_of directory (fst s)) (snd s)))
                                               (fp (tally (label_of directory (fst s)) (snd s)))
                                               (fn (tally (label_of directory (fst s)) (snd s))))])
               ls
      ++ [PText "Micro-f: "; PFloat (microf o); PText "Macro-f: "; PFloat (macrof o)]
      ++ map (fun i => PText (info_image i))
             (least_confident_first (List.concat (map snd ls))).
Proof.
  intro H. apply main_exact in H.
  destruct H as (ls & E & X & _ & _ & _ & Ho & _).
  unfold records_of_run in X. rewrite E in X.
  exists ls. split; [exact E|]. split; [exact X|]. split; [|exact Ho].
  clear - X. revert X. generalize (sample_corpus directory random 0 corpus).
  induction ls as [|s ls IH]; intros [|names l] X; try discriminate X; [reflexivity|].
  cbn [map] in X |- *. injection X as X1 X2.
  rewrite (records_names run_graph _ _ (eq_sym X1)), (IH _ X2). reflexivity.
Qed.

(** X6 on a run of four images of [cat] and one of [dog]. *)
Lemma run_output_witness :
  exists o,
    main "d" always cat_or_dog cats_and_dog = Ok o /\
    stdout (final o)
    = [PInfo (mk_info "d/cat/1cat.jpg" "cat" (9 # 10) "dog" (1 # 10) (Finite 9));
       PInfo (mk_info "d/cat/2cat.jpg" "cat" (9 # 10) "dog" (1 # 10) (Finite 9));
       PInfo (mk_info "d/cat/3.jpg" "dog" (6 # 10) "cat" (3 # 10) (Finite 2));
       PInfo (mk_info "d/cat/4cat.jpg" "cat" (9 # 10) "dog" (1 # 10) (Finite 9));
       PText "cat f-score:"; PFloat 0.75;
       PInfo (mk_info "d/dog/5.jpg" "dog" (6 # 10) "cat" (3 # 10) (Finite 2));
       PText "dog f-score:"; PFloat 1;
       PText "Micro-f: "; PFloat 0.8; PText "Macro-f: "; PFloat 0.875;
       PText "d/cat/3.jpg"; PText "d/dog/5.jpg"; PText "d/cat/1cat.jpg";
       PText "d/cat/2cat.jpg"; PText "d/cat/4cat.jpg"] /\
    exists ls : list slice,
      map fst ls = cats_and_dog /\
      map (fun s => map (@Ok image_info) (snd s)) ls
      = map (map (image_record cat_or_dog)) (sample_corpus "d" always 0 cats_and_dog) /\
      map (fun s => map info_image (snd s)) ls = sample_corpus "d" always 0 cats_and_dog /\
      stdout (final o)
      = flat_map (fun s => map PInfo (snd s)
                           ++ [PText (label_of "d" (fst s) ++ " f-score:")%string;
                               PFloat (fscore_of (tp (tally (label_of "d" (fst s)) (snd s)))
                                                 (fp (tally (label_of "d" (fst s)) (snd s)))
                                                 (fn (tally (label_of "d" (fst s)) (snd s))))])
                 ls
        ++ [PText "Micro-f: "; PFloat (microf o); PText "Macro-f: "; PFloat (macrof o)]
        ++ map (fun i => PText (info_image i))
               (least_confident_first (List.concat (map snd ls))).
Proof.
  eexists. split; [vm_compute; reflexivity|]. split; [reflexivity|].
  refine (run_output "d" always cat_or_dog cats_and_dog _ _).
  vm_compute. reflexivity.
Defined.

Lemma dict_set_here (k : string) (v : Q) (d : predictions) : In (k, v) (dict_set k v d).
Proof.
  induction d as [|[k' v'] d IH]; [left; reflexivity|]. cbn [dict_set].
  destruct (String.eqb_spec k' k) as [->|_]; [left; reflexivity|right; exact IH].
Qed.

Lemma dict_set_other (k : string) (v : Q) (d : predictions) (e : string * Q) :
  fst e <> k -> In e d -> In e (dict_set k v d).
Proof.
  intros N. induction d as [|[k' v'] d IH]; [intros []|]. cbn [dict_set].
  destruct (String.eqb_spec k' k) as [->|_].
  - intros [<-|H]; [exfalso; apply N; reflexivity|right; exact H].
  - intros [<-|H]; [left; reflexivity|right; apply IH, H].
Qed.

Lemma label_predictions_keeps (labels : list string) (scores : list Q) (ids : list nat) :
  forall d0 d e,
  label_predictions labels scores ids d0 = Some d ->
  In e d0 ->
  (forall j, In j ids -> nth_error labels j <> Some (fst e)) ->
  In e d.
Proof.
  induction ids as [|i ids IH]; intros d0 d e H He N.
  - cbn in H. injection H as <-. exact He.
  - cbn [label_predictions] in H.
    destruct (nth_error labels i) as [l|] eqn:L; [|discriminate H].
    destruct (nth_error scores i) as [s|] eqn:S; [|discriminate H].
    apply (IH _ _ e H).
    + apply dict_set_other; [|exact He]. intros E.
      apply (N i (or_introl eq_refl)). rewrite L, E. reflexivity.
    + intros j Hj. apply N. right. exact Hj.
Qed.

(** X11.  The score a label has in the dict is the score of the last kept node
    with that label. *)
Theorem run_graph_dict_last_wins (labels : list string) (scores : list Q)
  (order : list nat) (k : Z) (d : predictions) (pre post : list nat) (i : nat) :
  run_graph_dict labels scores order k = Some d ->
  top_k k order = pre ++ i :: post ->
  (forall j, In j post -> nth_error labels j <> nth_error labels i) ->
  exists l s, nth_error labels i = Some l /\ nth_error scores i = Some s /\ In (l, s) d.
Proof.
  unfold run_graph_dict. intros H E N. rewrite E in H. clear E.
  revert H. generalize (@nil (string * Q)) as d0.
  induction pre as [|p pre IH]; intros d0 H.
  - cbn [app label_predictions] in H.
    destruct (nth_error labels i) as [l|] eqn:L; [|discriminate H].
    destruct (nth_error scores i) as [s|] eqn:S; [|discriminate H].
    exists l, s. split; [reflexivity|]. split; [reflexivity|].
    apply (label_predictions_keeps _ _ _ _ _ (l, s) H (dict_set_here l s d0)).
    intros j Hj. cbn [fst]. apply N, Hj.
  - cbn [app label_predictions] in H.
    destruct (nth_error labels p); [|discriminate H].
    destruct (nth_error scores p); [|discriminate H].
    apply (IH _ H).
Qed.

(** X11 on three nodes of which two have the label [cat]. *)
Lemma run_graph_dict_last_wins_witness :
  exists l s, nth_error ["dog"; "cat"; "cat"] 2 = Some l
              /\ nth_error [2 # 10; 7 # 10; 1 # 10]%Q 2 = Some s
              /\ In (l, s) [("cat", 1 # 10); ("dog", 2 # 10)]%Q.
Proof.
  apply (run_graph_dict_last_wins ["dog"; "cat"; "cat"] [2 # 10; 7 # 10; 1 # 10]%Q
           [2; 0; 1]%nat 3 [("cat", 1 # 10); ("dog", 2 # 10)]%Q [1; 0]%nat [] 2%nat).
  - reflexivity.
  - reflexivity.
  - intros j [].
Defined.
